(** * ArangoSearch view scan operator (arangod/IResearch/IResearchViewBlock.cpp)

    A shallow embedding of the pull-based view operator: the row-context
    adapter [getVariableValue], the predicate recompilation [reset], the
    document materializer [readDocument], the two segment scan strategies
    ([IResearchViewBlock_next] / [IResearchViewUnorderedBlock_next] and their
    [skip]s) and the pull protocol [getSome] / [skipSome].

    Conventions.
    - Member variables keep their C++ names ([_buffer], [_pos], [_inflight] ...).
    - [size_t] counters are [nat]: every counter of the file is bounded by a
      container size or by [atMost], so no wrap-around is reachable.
    - A C++ exception is an explicit [Throw] outcome returned together with
      the object state at the point of the throw.
    - The upstream dependency is a finite script of replies; once the script is
      used up the dependency answers (DONE, nullptr).
    - The embedding covers the runs in which the query is not killed, no
      fault is injected and no collaborator (upstream, index, storage)
      raises: [throwIfKilled] and the [TRI_IF_FAILURE] point of [getSome] are
      not taken, so the one exception a call can end with here is the one
      [reset] raises. *)

From Stdlib Require Import ZArith Lia Strings.Byte.
From stdpp Require Import base option list gmap.

Set Default Proof Using "Type".

(* ------------------------------------------------------------------------- *)
(** ** Data model *)
(* ------------------------------------------------------------------------- *)

Inductive ExecutionState := DONE | HASMORE | WAITING.

Inductive ErrorCode := TRI_ERROR_INTERNAL | TRI_ERROR_BAD_PARAMETER.

(** Outcome of a call that may raise. *)
Inductive Result (A : Type) :=
| Ok (a : A)
| Throw (e : ErrorCode).
Arguments Ok {A} a.
Arguments Throw {A} e.

#[global] Instance ExecutionState_eq_dec : EqDecision ExecutionState.
Proof. solve_decision. Defined.

Definition RegisterId := nat.
Definition VariableId := nat.
Definition doc_id_t := nat.
Definition bytes_ref := list byte.
Definition VPackSlice := list byte.
(** An AST node is referred to by its identity. *)
Definition AstNode := nat.

Inductive AqlValue :=
| AqlValue_none
| AqlValue_slice (doc : VPackSlice).

(** Modelled from the spec: [AqlValue::clone] (Aql/AqlValue.h is not part of
    the file): a value with the same contents in storage of its own. *)
Definition AqlValue_clone (v : AqlValue) : AqlValue :=
  match v with
  | AqlValue_none => AqlValue_none
  | AqlValue_slice d => AqlValue_slice d
  end.

(** Modelled from the spec: the tuple batch [AqlItemBlock] (Aql/AqlItemBlock.h
    is not part of the file), a fixed-width row sequence: [nrItems] rows of
    [nrRegs] registers; a register that was never set holds the empty value. *)
Record AqlItemBlock := mkAqlItemBlock {
  nrItems : nat;
  nrRegs : nat;
  data : gmap (nat * nat) AqlValue
}.

(** Modelled from the spec: [AqlItemBlock::getValueReference(index, varNr)]. *)
Definition getValueReference (b : AqlItemBlock) (index : nat) (varNr : RegisterId) : AqlValue :=
  default AqlValue_none (data b !! (index, varNr)).

(** Modelled from the spec: [AqlItemBlock::setValue(index, varNr, value)]. *)
Definition setValue (b : AqlItemBlock) (index : nat) (varNr : RegisterId) (v : AqlValue)
  : AqlItemBlock :=
  mkAqlItemBlock (nrItems b) (nrRegs b) (<[(index, varNr) := v]> (data b)).

(** Modelled from the spec: [ExecutionBlock::requestBlock(nrItems, nrRegs)],
    the batch allocated per call: a fresh block, all registers empty. *)
Definition requestBlock (n : nat) (regs : RegisterId) : AqlItemBlock :=
  mkAqlItemBlock n regs ∅.

(** Copy registers [0 .. n) of row [from] of [src] into row [to] of [dst]. *)
Fixpoint copyRegs (n : nat) (src : AqlItemBlock) (from : nat) (dst : AqlItemBlock) (to : nat)
  : AqlItemBlock :=
  match n with
  | 0 => dst
  | S n' => setValue (copyRegs n' src from dst to) to n' (getValueReference src from n')
  end.

(** Modelled from the spec: [AqlItemBlock::copyValuesFromFirstRow(currentRow,
    curRegs)], which reuses the first row's pass-through columns. *)
Definition copyValuesFromFirstRow (b : AqlItemBlock) (currentRow : nat) (curRegs : RegisterId)
  : AqlItemBlock :=
  copyRegs curRegs b 0 b currentRow.

(** Modelled from the spec: [AqlItemBlock::shrink(nrItems)]: keep the first
    [n] rows. *)
Definition shrink (b : AqlItemBlock) (n : nat) : AqlItemBlock :=
  mkAqlItemBlock n (nrRegs b) (filter (λ kv, kv.1.1 < n) (data b)).

Record DocumentPrimaryKey := mkPK { cid : nat; rid : nat }.

(** The storage read scope: collections by id, documents by revision id. *)
Definition TransactionState := gmap nat (gmap nat VPackSlice).

Record SortElement := mkSort { sort_asc : bool; sort_node : AstNode }.

(** The plan node of the operator with its register plan. *)
Record IResearchViewNode := mkNode {
  outVariable : VariableId;
  varInfo : gmap VariableId RegisterId;
  filterCondition : AstNode;
  sortCondition : list SortElement;
  volatility : bool * bool;          (* (filter, sort) *)
  nrInputRegisters : RegisterId;
  nrOutputRegisters : RegisterId;
  regsToClear : list RegisterId
}.

(** [ViewExpressionContext]: the input block and row the operator is bound to. *)
Record ViewExpressionContext := mkCtx {
  ctx_data : option AqlItemBlock;
  ctx_pos : nat
}.

(** One reply of the upstream dependency's getSome. *)
Abbreviation UpstreamReply := (ExecutionState * option AqlItemBlock)%type.
Abbreviation Upstream := (list UpstreamReply).

(** [ReadContext] of getSome: the output batch under construction. *)
Record ReadContext := mkReadContext {
  curRegs : RegisterId;
  rc_pos : nat;
  rc_res : AqlItemBlock
}.

(** The collaborators of the operator that are declared outside the file,
    with the plan node and the index and storage snapshots it is built on. *)
Record Env := mkEnv {
  env_MaxRegisterId : RegisterId;      (* ExecutionNode::MaxRegisterId *)
  env_DefaultBatchSize : nat;          (* ExecutionBlock::DefaultBatchSize() *)
  env_irs_Or : Type;                   (* boolean match tree *)
  env_irs_sort : Type;                 (* scorer *)
  (** [FilterFactory::filter(&root, queryCtx, condition)]: [None] is [false]. *)
  env_FilterFactory_filter : ViewExpressionContext -> AstNode -> option env_irs_Or;
  (** [OrderFactory::scorer(&scorer, node, queryCtx)]: [None] is [false]. *)
  env_OrderFactory_scorer : AstNode -> ViewExpressionContext -> option env_irs_sort;
  (** [segment.mask(prepared->execute(segment, order, filterCtx))] for a filter
      prepared from [root] with [prepOrder]: the matches of segment [seg] in
      iteration order, each with the score bytes its evaluation yields. *)
  env_execute :
    env_irs_Or -> list (bool * env_irs_sort) -> list (bool * env_irs_sort) ->
    ViewExpressionContext -> nat -> list (doc_id_t * bytes_ref);
  (** [order.to_string<AqlValue>(score, i)]. *)
  env_order_to_string : list (bool * env_irs_sort) -> bytes_ref -> nat -> AqlValue;
  (** [DocumentPrimaryKey::read]. *)
  env_DocumentPrimaryKey_read : bytes_ref -> option DocumentPrimaryKey;
  env_node : IResearchViewNode;
  (** The index snapshot [_reader]: segment count and primary-key columns. *)
  env_reader_size : nat;
  env_pkColumn : nat -> doc_id_t -> option bytes_ref;
  (** The storage snapshot behind [_trx]. *)
  env_trx : TransactionState
}.

Section ViewBlock.

Variable E : Env.

Local Abbreviation MaxRegisterId := (env_MaxRegisterId E).
Local Abbreviation DefaultBatchSize := (env_DefaultBatchSize E).
Local Abbreviation irs_Or := (env_irs_Or E).
Local Abbreviation irs_sort := (env_irs_sort E).
Local Abbreviation FilterFactory_filter := (env_FilterFactory_filter E).
Local Abbreviation OrderFactory_scorer := (env_OrderFactory_scorer E).
Local Abbreviation execute := (env_execute E).
Local Abbreviation order_to_string := (env_order_to_string E).
Local Abbreviation DocumentPrimaryKey_read := (env_DocumentPrimaryKey_read E).
Local Abbreviation node := (env_node E).
Local Abbreviation reader_size := (env_reader_size E).
Local Abbreviation pkColumn := (env_pkColumn E).
Local Abbreviation trx := (env_trx E).

(** [irs::order]: the scorers added so far, each with its direction. *)
Definition irs_order := list (bool * irs_sort).

(** A prepared filter; [prepared_empty] is [irs::filter::prepared::empty()],
    which matches nothing. *)
Inductive prepared :=
| prepared_empty
| prepared_filter (root : irs_Or) (prepOrder : irs_order).

Definition prepared_execute (f : prepared) (ord : irs_order) (c : ViewExpressionContext)
    (seg : nat) : list (doc_id_t * bytes_ref) :=
  match f with
  | prepared_empty => []
  | prepared_filter root po => execute root po ord c seg
  end.

(* ------------------------------------------------------------------------- *)
(** ** Operator state *)
(* ------------------------------------------------------------------------- *)

(** Members inherited from [ExecutionBlock], with the engine statistic. *)
Record ExecutionBlock := mkEB {
  _buffer : list AqlItemBlock;
  _pos : nat;
  _done : bool;
  _upstreamState : ExecutionState;
  scannedIndex : Z
}.

(** Members of [IResearchViewBlockBase]. *)
Record ViewBase := mkVB {
  _ctx : ViewExpressionContext;
  _filter : prepared;
  _order : irs_order;
  _inflight : nat;
  _hasMore : bool;
  _volatileSort : bool;
  _volatileFilter : bool
}.

(** Members of [IResearchViewUnorderedBlock]: the read cursor. [_itr] is
    [None] for a null iterator, otherwise the matches not yet visited. *)
Record Cursor := mkCursor {
  _itr : option (list (doc_id_t * bytes_ref));
  _readerOffset : nat;
  _keys : list DocumentPrimaryKey
}.

Record Block := mkBlock {
  eb : ExecutionBlock;
  vb : ViewBase;
  cur : Cursor
}.

(** The two concrete operator classes. *)
Inductive BlockKind := Scored | Unordered.

Definition with_eb (e : ExecutionBlock) (st : Block) : Block := mkBlock e (vb st) (cur st).
Definition with_vb (v : ViewBase) (st : Block) : Block := mkBlock (eb st) v (cur st).
Definition with_cur (c : Cursor) (st : Block) : Block := mkBlock (eb st) (vb st) c.

Definition set_buffer (b : list AqlItemBlock) (e : ExecutionBlock) :=
  mkEB b (_pos e) (_done e) (_upstreamState e) (scannedIndex e).
Definition set_pos (p : nat) (e : ExecutionBlock) :=
  mkEB (_buffer e) p (_done e) (_upstreamState e) (scannedIndex e).
Definition set_done (d : bool) (e : ExecutionBlock) :=
  mkEB (_buffer e) (_pos e) d (_upstreamState e) (scannedIndex e).
Definition set_upstreamState (s : ExecutionState) (e : ExecutionBlock) :=
  mkEB (_buffer e) (_pos e) (_done e) s (scannedIndex e).
Definition set_scannedIndex (n : Z) (e : ExecutionBlock) :=
  mkEB (_buffer e) (_pos e) (_done e) (_upstreamState e) n.

Definition set_ctx (c : ViewExpressionContext) (v : ViewBase) :=
  mkVB c (_filter v) (_order v) (_inflight v) (_hasMore v) (_volatileSort v) (_volatileFilter v).
Definition set_inflight (n : nat) (v : ViewBase) :=
  mkVB (_ctx v) (_filter v) (_order v) n (_hasMore v) (_volatileSort v) (_volatileFilter v).
Definition set_hasMore (b : bool) (v : ViewBase) :=
  mkVB (_ctx v) (_filter v) (_order v) (_inflight v) b (_volatileSort v) (_volatileFilter v).

(** State right after construction: [IResearchViewBlockBase], then
    [IResearchViewUnorderedBlock] ([_volatileSort = false]), then for the
    scored class [IResearchViewBlock] ([_volatileSort = true]). *)
Definition construct (k : BlockKind) : Block :=
  mkBlock
    (mkEB [] 0 false HASMORE 0%Z)
    (mkVB (mkCtx None 0) prepared_empty [] 0 true
          (match k with Scored => true | Unordered => false end) true)
    (mkCursor None 0 []).

(* ------------------------------------------------------------------------- *)
(** ** Row context adapter *)
(* ------------------------------------------------------------------------- *)

Definition getRegister (var : VariableId) : RegisterId :=
  match varInfo node !! var with
  | None => MaxRegisterId
  | Some r => r
  end.

(** [ViewExpressionContext::getVariableValue(var, doCopy, mustDestroy)];
    the result pairs the returned value with the final [mustDestroy]. A
    context that is not bound to a block has no registers to read. *)
Definition getVariableValue (c : ViewExpressionContext) (var : VariableId) (doCopy : bool)
  : Result (AqlValue * bool) :=
  if decide (var = outVariable node) then Throw TRI_ERROR_INTERNAL
  else
    let reg := getRegister var in
    if decide (reg = MaxRegisterId) then Throw TRI_ERROR_INTERNAL
    else
      let value := match ctx_data c with
                   | Some b => getValueReference b (ctx_pos c) reg
                   | None => AqlValue_none
                   end in
      if doCopy then Ok (AqlValue_clone value, true)
      else Ok (value, false).

(* ------------------------------------------------------------------------- *)
(** ** Predicate compiler glue *)
(* ------------------------------------------------------------------------- *)

(** The loop of [reset] over [viewNode.sortCondition()]: compile each scorer
    in declared order and add it to [order]; [None] when a scorer fails. *)
Fixpoint compileOrder (c : ViewExpressionContext) (sorts : list SortElement) (order : irs_order)
  : option irs_order :=
  match sorts with
  | [] => Some order
  | s :: rest =>
      match OrderFactory_scorer (sort_node s) c with
      | None => None
      | Some scorer => compileOrder c rest (order ++ [(sort_asc s, scorer)])
      end
  end.

(** [IResearchViewBlockBase::reset]. *)
Definition IResearchViewBlockBase_reset (st : Block) : Result unit * Block :=
  (* setup expression context *)
  let c := mkCtx (head (_buffer (eb st))) (_pos (eb st)) in
  let st := with_vb (set_ctx c (vb st)) st in
  if _volatileFilter (vb st) then
    match FilterFactory_filter c (filterCondition node) with
    | None => (Throw TRI_ERROR_BAD_PARAMETER, st)
    | Some root =>
        let compiled :=
          if _volatileSort (vb st) then compileOrder c (sortCondition node) []
          else Some (_order (vb st)) in
        match compiled with
        | None => (Throw TRI_ERROR_BAD_PARAMETER, st)
        | Some order =>
            let v := vb st in
            (Ok tt,
             with_vb (mkVB (_ctx v) (prepared_filter root order) order (_inflight v) (_hasMore v)
                           (volatility node).2
                           ((volatility node).2 || (volatility node).1)) st)
        end
    end
  else (Ok tt, st).

(** Modelled from the spec: the override of [reset] in
    [IResearchViewUnorderedBlock] (inherited by [IResearchViewBlock]) lives in
    the class declaration, not in the file. Section 3: the read cursor is
    recreated whenever the row context changes; it is rebuilt on every
    input-row transition. The override runs the base [reset] and then drops the
    iterator and returns to the first segment. *)
Definition reset (st : Block) : Result unit * Block :=
  match IResearchViewBlockBase_reset st with
  | (Ok _, st') => (Ok tt, with_cur (mkCursor None 0 (_keys (cur st'))) st')
  | (Throw e, st') => (Throw e, st')
  end.

(* ------------------------------------------------------------------------- *)
(** ** Document materializer *)
(* ------------------------------------------------------------------------- *)

(** [readDocument(docPk, callback)]: [Some doc] when the callback ran on
    [doc] (result [true]), [None] for [false]. *)
Definition readDocument_pk (docPk : DocumentPrimaryKey) : option VPackSlice :=
  match trx !! cid docPk with
  | None => None                      (* not a valid collection reference *)
  | Some collection => collection !! rid docPk
  end.

(** [readDocument(subReaderId, docId, callback)]. *)
Definition readDocument (subReaderId : nat) (docId : doc_id_t) : option VPackSlice :=
  match pkColumn subReaderId docId with
  | None => None
  | Some tmpRef =>
      match DocumentPrimaryKey_read tmpRef with
      | None => None                  (* not a valid document reference *)
      | Some docPk => readDocument_pk docPk
      end
  end.

(* ------------------------------------------------------------------------- *)
(** ** Segment scan strategies *)
(* ------------------------------------------------------------------------- *)

(** [_filter->execute] on the segment the cursor is at, masked. *)
Definition segmentIterator (v : ViewBase) (seg : nat) : list (doc_id_t * bytes_ref) :=
  prepared_execute (_filter v) (_order v) (_ctx v) seg.

(** The iterator the cursor works on after [if (!_itr) resetIterator()]. *)
Definition liveIterator (v : ViewBase) (c : Cursor) : list (doc_id_t * bytes_ref) :=
  match _itr c with
  | None => segmentIterator v (_readerOffset c)
  | Some it => it
  end.

(** The score registers [curRegs+1 .. curRegs+numSorts] of row [ctx.pos]. *)
Fixpoint copyScores (v : ViewBase) (scrVal : bytes_ref) (i n : nat) (scoreRegs : RegisterId)
    (row : nat) (res : AqlItemBlock) : AqlItemBlock :=
  match n with
  | 0 => res
  | S n' =>
      copyScores v scrVal (S i) n' (S scoreRegs) row
        (setValue res row (S scoreRegs) (order_to_string (_order v) scrVal i))
  end.

(** The tail of the per-document body shared by both strategies. *)
Definition acceptRow (ctx : ReadContext) (res : AqlItemBlock) : ReadContext :=
  let res := if 0 <? rc_pos ctx
             then copyValuesFromFirstRow res (rc_pos ctx) (curRegs ctx)
             else res in
  mkReadContext (curRegs ctx) (S (rc_pos ctx)) res.

(** [while (limit && _itr->next()) { ... }] of [IResearchViewBlock::next];
    returns the remaining limit, the unvisited part of the iterator and the
    read context. *)
Fixpoint scoredScan (v : ViewBase) (seg : nat) (limit : nat)
    (it : list (doc_id_t * bytes_ref)) (ctx : ReadContext)
  : nat * list (doc_id_t * bytes_ref) * ReadContext :=
  match limit with
  | 0 => (0, it, ctx)
  | S limit' =>
      match it with
      | [] => (limit, [], ctx)
      | (docId, scrVal) :: it' =>
          match readDocument seg docId with
          | None => scoredScan v seg limit it' ctx          (* continue *)
          | Some doc =>
              let res := setValue (rc_res ctx) (rc_pos ctx) (curRegs ctx) (AqlValue_slice doc) in
              let res := copyScores v scrVal 0 (length (sortCondition node)) (curRegs ctx)
                           (rc_pos ctx) res in
              scoredScan v seg limit' it' (acceptRow ctx res)
          end
      end
  end.

(** The segment loop of [IResearchViewBlock::next], [n] bounding the segments
    still ahead ([_reader.size() - _readerOffset]). *)
Fixpoint scoredSegments (v : ViewBase) (n : nat) (limit : nat) (ctx : ReadContext) (c : Cursor)
  : bool * ReadContext * Cursor :=
  match n with
  | 0 => (limit =? 0, ctx, c)
  | S n' =>
      let '(limit', it', ctx') := scoredScan v (_readerOffset c) limit (liveIterator v c) ctx in
      if limit' =? 0 then (true, ctx', mkCursor (Some it') (_readerOffset c) (_keys c))
      else scoredSegments v n' limit' ctx' (mkCursor None (S (_readerOffset c)) (_keys c))
  end.

Definition IResearchViewBlock_next (ctx : ReadContext) (limit : nat) (st : Block)
  : bool * ReadContext * Block :=
  let '(r, ctx', c') :=
    scoredSegments (vb st) (reader_size - _readerOffset (cur st)) limit ctx (cur st) in
  (r, ctx', with_cur c' st).

(** The loop of [readPKs]: [slots] is the free room left in [keys]
    ([end - begin]); returns the accepted keys and the unvisited matches. *)
Fixpoint readPKs_loop (seg : nat) (slots : nat) (it : list (doc_id_t * bytes_ref))
  : list DocumentPrimaryKey * list (doc_id_t * bytes_ref) :=
  match slots with
  | 0 => ([], it)
  | S slots' =>
      match it with
      | [] => ([], [])
      | (docId, _) :: it' =>
          match pkColumn seg docId with
          | None => readPKs_loop seg slots it'
          | Some key =>
              match DocumentPrimaryKey_read key with
              | None => readPKs_loop seg slots it'
              | Some pk =>
                  let '(pks, rest) := readPKs_loop seg slots' it' in (pk :: pks, rest)
              end
          end
      end
  end.

(** [readPKs(it, values, keys, limit)]: the new contents of [keys] (resized to
    [limit], accepted keys first), the number of accepted keys ([end -
    keys.begin()]) and the unvisited matches. *)
Definition readPKs (seg : nat) (it : list (doc_id_t * bytes_ref)) (limit : nat)
  : list DocumentPrimaryKey * nat * list (doc_id_t * bytes_ref) :=
  let '(pks, rest) := readPKs_loop seg limit it in
  (pks ++ replicate (limit - length pks) (mkPK 0 0), length pks, rest).

(** The join loop of [IResearchViewUnorderedBlock::next] over the accepted
    keys. *)
Fixpoint joinKeys (pks : list DocumentPrimaryKey) (limit : nat) (ctx : ReadContext)
  : nat * ReadContext :=
  match pks with
  | [] => (limit, ctx)
  | pk :: pks' =>
      match readDocument_pk pk with
      | None => joinKeys pks' limit ctx                     (* continue *)
      | Some doc =>
          let res := setValue (rc_res ctx) (rc_pos ctx) (curRegs ctx) (AqlValue_slice doc) in
          joinKeys pks' (limit - 1) (acceptRow ctx res)
      end
  end.

Fixpoint unorderedSegments (v : ViewBase) (n : nat) (limit : nat) (ctx : ReadContext)
    (c : Cursor) : bool * ReadContext * Cursor :=
  match n with
  | 0 => (limit =? 0, ctx, c)
  | S n' =>
      let '(keys, accepted, it') := readPKs (_readerOffset c) (liveIterator v c) limit in
      let '(limit', ctx') := joinKeys (take accepted keys) limit ctx in
      if limit' =? 0 then (true, ctx', mkCursor (Some it') (_readerOffset c) keys)
      else unorderedSegments v n' limit' ctx' (mkCursor None (S (_readerOffset c)) keys)
  end.

Definition IResearchViewUnorderedBlock_next (ctx : ReadContext) (limit : nat) (st : Block)
  : bool * ReadContext * Block :=
  let '(r, ctx', c') :=
    unorderedSegments (vb st) (reader_size - _readerOffset (cur st)) limit ctx (cur st) in
  (r, ctx', with_cur c' st).

(** [while (limit && _itr->next()) { ++skipped; --limit; }]. *)
Fixpoint skipScan (limit : nat) (it : list (doc_id_t * bytes_ref)) (skipped : nat)
  : nat * list (doc_id_t * bytes_ref) * nat :=
  match limit with
  | 0 => (0, it, skipped)
  | S limit' =>
      match it with
      | [] => (limit, [], skipped)
      | _ :: it' => skipScan limit' it' (S skipped)
      end
  end.

(** The segment loop of [skip]; the two classes differ only in how the
    iterator is (re)built, which leaves the visited matches the same. *)
Fixpoint skipSegments (v : ViewBase) (n : nat) (limit : nat) (skipped : nat) (c : Cursor)
  : nat * Cursor :=
  match n with
  | 0 => (skipped, c)
  | S n' =>
      let '(limit', it', skipped') := skipScan limit (liveIterator v c) skipped in
      if limit' =? 0 then (skipped', mkCursor (Some it') (_readerOffset c) (_keys c))
      else skipSegments v n' limit' skipped' (mkCursor None (S (_readerOffset c)) (_keys c))
  end.

Definition skip (limit : nat) (st : Block) : nat * Block :=
  let '(skipped, c') :=
    skipSegments (vb st) (reader_size - _readerOffset (cur st)) limit 0 (cur st) in
  (skipped, with_cur c' st).

(** Virtual dispatch on the concrete class. *)
Definition next (k : BlockKind) (ctx : ReadContext) (limit : nat) (st : Block)
  : bool * ReadContext * Block :=
  match k with
  | Scored => IResearchViewBlock_next ctx limit st
  | Unordered => IResearchViewUnorderedBlock_next ctx limit st
  end.

(* ------------------------------------------------------------------------- *)
(** ** Pull protocol controller *)
(* ------------------------------------------------------------------------- *)

(** Modelled from the spec: [ExecutionBlock::getBlock] is defined outside the
    file. Section 6: the upstream pull interface [fetchRows(n) -> (state,
    batch|null)] with states WAITING/HASMORE/DONE; section 4.3: WAITING is
    propagated unchanged, a batch is appended to the local input buffer. The
    boolean tells whether a batch was appended. *)
Definition getBlock (atMost : nat) (st : Block) (up : Upstream)
  : (ExecutionState * bool) * Block * Upstream :=
  match up with
  | [] => ((DONE, false), st, [])
  | (WAITING, _) :: up' => ((WAITING, false), st, up')
  | (s, None) :: up' => ((s, false), st, up')
  | (s, Some b) :: up' =>
      ((s, true), with_eb (set_buffer (_buffer (eb st) ++ [b]) (eb st)) st, up')
  end.

(** Modelled from the spec: [ExecutionBlock::getHasMoreState] is defined
    outside the file. Section 8: a batch is returned with "HASMORE or DONE per
    upstream state"; the operator is DONE once it is marked done, or once its
    input buffer is empty and upstream has reported DONE (which marks it
    done). *)
Definition getHasMoreState (st : Block) : ExecutionState * Block :=
  if _done (eb st) then (DONE, st)
  else if bool_decide (_buffer (eb st) = []) && bool_decide (_upstreamState (eb st) = DONE)
       then (DONE, with_eb (set_done true (eb st)) st)
       else (HASMORE, st).

(** Modelled from the spec: [ExecutionBlock::inheritRegisters] is defined
    outside the file. Section 4.3 step 4: copy pass-through register values
    from the active input row into output row 0. *)
Definition inheritRegisters (src dst : AqlItemBlock) (row : nat) : AqlItemBlock :=
  copyRegs (nrInputRegisters node) src row dst 0.

(** Modelled from the spec: [ExecutionBlock::clearRegisters] is defined
    outside the file. Section 4.3 step 7: clear registers not needed
    downstream. *)
Definition clearRegisters (b : AqlItemBlock) : AqlItemBlock :=
  mkAqlItemBlock (nrItems b) (nrRegs b)
    (filter (λ kv, kv.1.2 ∉ regsToClear node) (data b)).

Definition GetSomeOutcome := (Result (ExecutionState * option AqlItemBlock) * Block * Upstream)%type.
Definition SkipSomeOutcome := (Result (ExecutionState * nat) * Block * Upstream)%type.

(** [if (++_pos >= cur->size()) { pop_front; _pos = 0 } else { reset() }]. *)
Definition advanceRow (cur_ : AqlItemBlock) (st : Block) : Result unit * Block :=
  if nrItems cur_ <=? S (_pos (eb st)) then
    (Ok tt, with_eb (set_pos 0 (set_buffer (tail (_buffer (eb st))) (eb st))) st)
  else
    reset (with_eb (set_pos (S (_pos (eb st))) (eb st)) st).

(** The block [if (_buffer.empty()) { ... }] that opens the loop bodies of
    [getSome] and [skipSome] alike, up to the [return] each of them takes:
    - [FetchWaiting s]: upstream answered [s = WAITING];
    - [FetchExhausted]: upstream gave no block, [_done] was set;
    - [FetchThrow e]: a block arrived and [reset] raised [e];
    - [FetchReady]: [_buffer.front()] exists. *)
Inductive Fetched :=
| FetchWaiting (s : ExecutionState) (st : Block) (up : Upstream)
| FetchExhausted (st : Block) (up : Upstream)
| FetchThrow (e : ErrorCode) (st : Block) (up : Upstream)
| FetchReady (st : Block) (up : Upstream).

Definition fetchIfEmpty (atMost : nat) (st : Block) (up : Upstream) : Fetched :=
  if bool_decide (_buffer (eb st) = []) then
    let toFetch := Nat.min DefaultBatchSize atMost in
    let '(upstreamRes, st, up) := getBlock toFetch st up in
    if bool_decide (upstreamRes.1 = WAITING) then FetchWaiting upstreamRes.1 st up
    else
      let st := with_eb (set_upstreamState upstreamRes.1 (eb st)) st in
      if negb upstreamRes.2 then FetchExhausted (with_eb (set_done true (eb st)) st) up
      else
        (* this is in the first block *)
        match reset (with_eb (set_pos 0 (eb st)) st) with
        | (Throw e, st) => FetchThrow e st up
        | (Ok _, st) => FetchReady st up
        end
  else FetchReady st up.

(** The tail of [getSome] after the loops. *)
Definition getSome_finish (atMost : nat) (ctx : ReadContext) (st : Block) (up : Upstream)
  : GetSomeOutcome :=
  (* aggregate stats *)
  let st := with_eb (set_scannedIndex (scannedIndex (eb st) + Z.of_nat (rc_pos ctx)) (eb st)) st in
  let res := if rc_pos ctx <? atMost then shrink (rc_res ctx) (rc_pos ctx) else rc_res ctx in
  let res := clearRegisters res in
  let '(state, st) := getHasMoreState st in
  (Ok (state, Some res), st, up).

(** One pass over the loop bodies of [getSome] once [_buffer.front()] exists:
    the rest of the inner body and, when [needMore] stays false, the rest of
    the outer body. [again] is the jump back to the head of the inner loop. *)
Definition getSome_row (again : Block -> Upstream -> option GetSomeOutcome)
    (k : BlockKind) (atMost : nat) (st : Block) (up : Upstream) : option GetSomeOutcome :=
  match _buffer (eb st) with
  | [] => None                        (* front() of an empty buffer: getBlock appended one *)
  | cur_ :: _ =>
      if negb (_hasMore (vb st)) then
        (* needMore *)
        match advanceRow cur_ (with_vb (set_hasMore true (vb st)) st) with
        | (Throw e, st) => Some (Throw e, st, up)
        | (Ok _, st) => again st up
        end
      else
        let res := requestBlock atMost (nrOutputRegisters node) in
        (* only copy 1st row of registers inherited from previous frame(s) *)
        let res := inheritRegisters cur_ res (_pos (eb st)) in
        let ctx := mkReadContext (nrInputRegisters node) 0 res in
        (* throwIfKilled() and the TRI_IF_FAILURE point: not taken *)
        let '(more, ctx, st) := next k ctx atMost st in
        let st := with_vb (set_hasMore more (vb st)) st in
        (* if the collection is actually empty we cannot forward an empty block *)
        if rc_pos ctx =? 0 then again st up
        else Some (getSome_finish atMost ctx st up)
  end.

(** The two nested do-while loops of [getSome]; one unit of [fuel] is one
    pass through the body of the inner loop (and, when [needMore] is false,
    through the rest of the outer body). [None]: the passes allowed by [fuel]
    did not reach a return. *)
Fixpoint getSome_loop (fuel : nat) (k : BlockKind) (atMost : nat) (st : Block) (up : Upstream)
  : option GetSomeOutcome :=
  match fuel with
  | 0 => None
  | S fuel' =>
      match fetchIfEmpty atMost st up with
      | FetchWaiting s st up => Some (Ok (s, None), st, up)
      | FetchExhausted st up => Some (Ok (DONE, None), st, up)
      | FetchThrow e st up => Some (Throw e, st, up)
      | FetchReady st up => getSome_row (getSome_loop fuel' k atMost) k atMost st up
      end
  end.

(** Rows still to be visited in the input buffer and in the upstream script,
    counting one extra per block and per reply: every pass of the loops of
    [getSome] and [skipSome] that does not return uses up at least one. *)
Definition bufferWeight (e : ExecutionBlock) : nat :=
  match _buffer e with
  | [] => 0
  | b :: bs => S (nrItems b - _pos e) + sum_list (map (λ b, S (nrItems b)) bs)
  end.

Definition replyWeight (r : UpstreamReply) : nat :=
  match r.2 with
  | Some b => 2 + nrItems b
  | None => 2
  end.

Definition inputWeight (st : Block) (up : Upstream) : nat :=
  bufferWeight (eb st) + sum_list (map replyWeight up).

(** [IResearchViewBlockBase::getSome]; the loops get as many passes as the
    input can require when [atMost > 0] (see [getSome_returns]). *)
Definition getSome (k : BlockKind) (atMost : nat) (st : Block) (up : Upstream)
  : option GetSomeOutcome :=
  if _done (eb st) then Some (Ok (DONE, None), st, up)
  else getSome_loop (2 * inputWeight st up + 2) k atMost st up.

(** The statements shared by the three return paths of [skipSome] that report
    the counter: aggregate stats, [skipped = _inflight], [_inflight = 0]. *)
Definition reportInflight (st : Block) : nat * Block :=
  let e := set_scannedIndex (scannedIndex (eb st) + Z.of_nat (_inflight (vb st))) (eb st) in
  let skipped := _inflight (vb st) in
  (skipped, with_vb (set_inflight 0 (vb st)) (with_eb e st)).

(** The body of the loop of [skipSome] once [_buffer.front()] exists; [again]
    is the jump back to the loop condition. *)
Definition skipSome_row (again : Block -> Upstream -> option SkipSomeOutcome)
    (atMost : nat) (st : Block) (up : Upstream) : option SkipSomeOutcome :=
  match _buffer (eb st) with
  | [] => None                        (* front() of an empty buffer: getBlock appended one *)
  | cur_ :: _ =>
      let '(n, st) := skip (atMost - _inflight (vb st)) st in
      let st := with_vb (set_inflight (_inflight (vb st) + n) (vb st)) st in
      if _inflight (vb st) <? atMost then
        (* not skipped enough re-initialize fetching of documents *)
        match advanceRow cur_ st with
        | (Throw e, st) => Some (Throw e, st, up)
        | (Ok _, st) => again st up
        end
      else again st up
  end.

(** [while (_inflight < atMost) { ... }] of [skipSome] and the code after
    it; one unit of [fuel] is one evaluation of the loop condition. *)
Fixpoint skipSome_loop (fuel : nat) (atMost : nat) (st : Block) (up : Upstream)
  : option SkipSomeOutcome :=
  match fuel with
  | 0 => None
  | S fuel' =>
      if _inflight (vb st) <? atMost then
        match fetchIfEmpty atMost st up with
        | FetchWaiting s st up => Some (Ok (s, 0), st, up)
        | FetchExhausted st up =>
            let '(skipped, st) := reportInflight st in Some (Ok (DONE, skipped), st, up)
        | FetchThrow e st up => Some (Throw e, st, up)
        | FetchReady st up => skipSome_row (skipSome_loop fuel' atMost) atMost st up
        end
      else
        (* We skipped atLeast documents *)
        let '(skipped, st) := reportInflight st in
        let '(state, st) := getHasMoreState st in
        Some (Ok (state, skipped), st, up)
  end.

(** [IResearchViewBlockBase::skipSome]. *)
Definition skipSome (atMost : nat) (st : Block) (up : Upstream) : option SkipSomeOutcome :=
  if _done (eb st) then
    let '(skipped, st) := reportInflight st in Some (Ok (DONE, skipped), st, up)
  else skipSome_loop (inputWeight st up + 2) atMost st up.

(** Rows of a returned batch; a null batch has none. *)
Definition batchRows (batch : option AqlItemBlock) : nat :=
  match batch with
  | None => 0
  | Some b => nrItems b
  end.

(** What a reply of [getSome(atMost)] may look like. *)
Definition replyWellFormed (atMost : nat) (r : Result (ExecutionState * option AqlItemBlock))
  : Prop :=
  match r with
  | Ok (s, None) => s = WAITING \/ s = DONE
  | Ok (s, Some b) => 1 <= nrItems b /\ nrItems b <= atMost /\ (s = HASMORE \/ s = DONE)
  | Throw _ => True
  end.

(** The passes [getSome] can still need: two per unit of input, one more
    while the current row has not been found exhausted. *)
Definition getSomeMeasure (st : Block) (up : Upstream) : nat :=
  2 * inputWeight st up + (if _hasMore (vb st) then 1 else 0).

(** The upstream script without its WAITING replies: what the dependency
    delivers when it never has to make the operator wait. *)
Definition dropWaiting (up : Upstream) : Upstream :=
  filter (λ r : UpstreamReply, r.1 <> WAITING) up.

Definition numWaiting (up : Upstream) : nat :=
  length (filter (λ r : UpstreamReply, r.1 = WAITING) up).

(** The caller's side of the WAITING protocol for [skipSome]: call, and while
    the answer is WAITING call again with the same [atMost] (at most [n]
    calls); [reported] sums the counts the calls returned. *)
Fixpoint skipSome_retry (n : nat) (atMost : nat) (st : Block) (up : Upstream) (reported : nat)
  : option SkipSomeOutcome :=
  match n with
  | 0 => None
  | S n' =>
      match skipSome atMost st up with
      | None => None
      | Some (Ok (WAITING, c), st', up') => skipSome_retry n' atMost st' up' (reported + c)
      | Some (Ok (s, c), st', up') => Some (Ok (s, reported + c), st', up')
      | Some (Throw e, st', up') => Some (Throw e, st', up')
      end
  end.

(** The same for [getSome]; a WAITING answer carries no batch. *)
Fixpoint getSome_retry (n : nat) (k : BlockKind) (atMost : nat) (st : Block) (up : Upstream)
  : option GetSomeOutcome :=
  match n with
  | 0 => None
  | S n' =>
      match getSome k atMost st up with
      | Some (Ok (WAITING, _), st', up') => getSome_retry n' k atMost st' up'
      | other => other
      end
  end.

(** The evaluations of the loop condition [skipSome] can still need. *)
Definition skipSomeNeed (atMost : nat) (st : Block) (up : Upstream) : nat :=
  if _inflight (vb st) <? atMost then inputWeight st up + 2 else 1.

(** Retrying [skipSome] through the WAITING replies of [up] ends like the one
    call that meets no WAITING reply: same outcome, same operator state, the
    same replies left over. *)
Definition skipResumes (atMost : nat) (st : Block) (up : Upstream) : Prop :=
  exists out st' up',
    skipSome atMost st (dropWaiting up) = Some (out, st', dropWaiting up')
    /\ skipSome_retry (S (numWaiting up)) atMost st up 0 = Some (out, st', up').

(** What an answer of [skipSome(atMost)] entered in state [st] looks like:
    WAITING reports zero, touches neither the done flag nor the statistic and
    keeps what was counted in flight; any other answer reports the counter,
    which has reached [atMost] unless the answer is DONE, adds it to the
    statistic and zeroes it. *)
Definition skipSomeReplyOk (atMost : nat) (st : Block) (out : SkipSomeOutcome) : Prop :=
  match out with
  | (Ok (WAITING, n), st', _) =>
      n = 0 /\ _done (eb st') = false /\ _buffer (eb st') = []
      /\ scannedIndex (eb st') = scannedIndex (eb st)
      /\ _inflight (vb st) <= _inflight (vb st')
  | (Ok (s, n), st', _) =>
      (atMost <= n \/ s = DONE) /\ _inflight (vb st') = 0
      /\ scannedIndex (eb st') = (scannedIndex (eb st) + Z.of_nat n)%Z
      /\ _inflight (vb st) <= n
  | (Throw _, _, _) => True
  end.

(** Retrying [getSome] through the WAITING replies of [up] ends like the one
    call that meets no WAITING reply. *)
Definition getResumes (k : BlockKind) (atMost : nat) (st : Block) (up : Upstream) : Prop :=
  exists out st' up',
    getSome k atMost st (dropWaiting up) = Some (out, st', dropWaiting up')
    /\ getSome_retry (S (numWaiting up)) k atMost st up = Some (out, st', up').

(** The part of [getSomeMeasure] that the operator state accounts for. *)
Definition bufferMeasure (st : Block) : nat :=
  2 * bufferWeight (eb st) + (if _hasMore (vb st) then 1 else 0).

(** Matches of the [n] segments from [seg] on under the compiled predicate. *)
Fixpoint matchesFrom (v : ViewBase) (seg n : nat) : nat :=
  match n with
  | 0 => 0
  | S n' => length (segmentIterator v seg) + matchesFrom v (S seg) n'
  end.

(** Matches the cursor has not visited, [n] segments being left including the
    one it is on. *)
Definition remainingIn (v : ViewBase) (c : Cursor) (n : nat) : nat :=
  match n with
  | 0 => 0
  | S n' => length (liveIterator v c) + matchesFrom v (S (_readerOffset c)) n'
  end.

(** Matches the cursor has not visited in the scan of the current row. *)
Definition remaining (st : Block) : nat :=
  remainingIn (vb st) (cur st) (reader_size - _readerOffset (cur st)).

(** Every match of the index can be joined: its primary key is stored and
    decodes, and the document is in storage. *)
Definition allJoinable : Prop :=
  forall root po ord c seg docId scrVal,
    (docId, scrVal) ∈ execute root po ord c seg -> is_Some (readDocument seg docId).

(** The join of a match of segment [seg] succeeds. *)
Definition joinableAt (seg : nat) (x : doc_id_t * bytes_ref) : Prop :=
  is_Some (readDocument seg x.1).

(** The matches still on the cursor can all be joined. *)
Definition cursorJoinable (v : ViewBase) (c : Cursor) : Prop :=
  Forall (joinableAt (_readerOffset c)) (liveIterator v c).

(** [reset] cannot compile the predicate for row context [c]: the filter
    condition does not translate, or the sort is volatile and a scorer does
    not compile. *)
Definition resetFailsAt (v : ViewBase) (c : ViewExpressionContext) : Prop :=
  FilterFactory_filter c (filterCondition node) = None
  \/ (_volatileSort v = true
      /\ exists s, s ∈ sortCondition node /\ OrderFactory_scorer (sort_node s) c = None).

(** The cursor has nothing to deliver whatever the row context: it is past the
    last segment, or the filter is still the empty one it was constructed
    with. *)
Definition cursorDry (v : ViewBase) (c : Cursor) : Prop :=
  reader_size <= _readerOffset c
  \/ (_filter v = prepared_empty /\ liveIterator v c = []).

(** An operator that will never compile a predicate again and has nothing
    left on its cursor. *)
Definition dead (st : Block) : Prop :=
  _volatileFilter (vb st) = true
  /\ (forall c, resetFailsAt (vb st) c)
  /\ cursorDry (vb st) (cur st).

(** A caller's calls, in order. *)
Inductive Call :=
| CallGetSome (atMost : nat)
| CallSkipSome (atMost : nat).

(** The batches the [getSome] calls of a sequence of calls return; an error
    is handed to the caller, who may call again. *)
Fixpoint batchesOf (k : BlockKind) (calls : list Call) (st : Block) (up : Upstream)
  : list AqlItemBlock :=
  match calls with
  | [] => []
  | CallGetSome atMost :: calls' =>
      match getSome k atMost st up with
      | None => []
      | Some (Ok (_, Some b), st', up') => b :: batchesOf k calls' st' up'
      | Some (_, st', up') => batchesOf k calls' st' up'
      end
  | CallSkipSome atMost :: calls' =>
      match skipSome atMost st up with
      | None => []
      | Some (_, st', up') => batchesOf k calls' st' up'
      end
  end.

(** The operator state a call left behind ([d] if the call did not return),
    and the batch a [getSome] call returned (an empty one if it returned
    none). *)
Definition outcomeState {A : Type} (o : option (Result A * Block * Upstream)) (d : Block)
  : Block :=
  match o with
  | Some (_, st, _) => st
  | None => d
  end.

Definition outcomeBatch (o : option GetSomeOutcome) : AqlItemBlock :=
  match o with
  | Some (Ok (_, Some b), _, _) => b
  | _ => requestBlock 0 0
  end.

(** The caller's loop "call [getSome(atMost)] until it answers DONE" (at most
    [n] calls): the rows of all batches returned. An error ends the loop. *)
Fixpoint getSome_run (n : nat) (k : BlockKind) (atMost : nat) (st : Block) (up : Upstream)
  : option (Result nat) :=
  match n with
  | 0 => None
  | S n' =>
      match getSome k atMost st up with
      | None => None
      | Some (Throw e, _, _) => Some (Throw e)
      | Some (Ok (DONE, batch), _, _) => Some (Ok (batchRows batch))
      | Some (Ok (_, batch), st', up') =>
          match getSome_run n' k atMost st' up' with
          | Some (Ok total) => Some (Ok (batchRows batch + total))
          | other => other
          end
      end
  end.

(** The caller's loop "call [skipSome(atMost)] until it answers DONE": the sum
    of the counts reported. *)
Fixpoint skipSome_run (n : nat) (atMost : nat) (st : Block) (up : Upstream)
  : option (Result nat) :=
  match n with
  | 0 => None
  | S n' =>
      match skipSome atMost st up with
      | None => None
      | Some (Throw e, _, _) => Some (Throw e)
      | Some (Ok (DONE, skipped), _, _) => Some (Ok skipped)
      | Some (Ok (_, skipped), st', up') =>
          match skipSome_run n' atMost st' up' with
          | Some (Ok total) => Some (Ok (skipped + total))
          | other => other
          end
      end
  end.

(** The predicate compiles for every row context. *)
Definition alwaysCompiles : Prop :=
  forall c, is_Some (FilterFactory_filter c (filterCondition node))
            /\ is_Some (compileOrder c (sortCondition node) []).

(** The compiled predicate of section 3: match tree with its scorers and the
    two volatility flags. *)
Record Compiled := mkCompiled {
  c_filter : prepared;
  c_order : irs_order;
  c_volatileSort : bool;
  c_volatileFilter : bool
}.

Definition compiledOf (v : ViewBase) : Compiled :=
  mkCompiled (_filter v) (_order v) (_volatileSort v) (_volatileFilter v).

(** The view members with compiled predicate [p] bound to row context [c]. *)
Definition viewOf (p : Compiled) (c : ViewExpressionContext) : ViewBase :=
  mkVB c (c_filter p) (c_order p) 0 true (c_volatileSort p) (c_volatileFilter p).

(** The compiled predicate a completed [reset] for row context [c] leaves. *)
Definition recompile (p : Compiled) (c : ViewExpressionContext) : Compiled :=
  compiledOf (vb (IResearchViewBlockBase_reset
                    (mkBlock (mkEB (option_list (ctx_data c)) (ctx_pos c) false HASMORE 0%Z)
                             (viewOf p c) (mkCursor None 0 []))).2).

(** All matches of the index for predicate [p] bound to [c]. *)
Definition matchesOf (p : Compiled) (c : ViewExpressionContext) : nat :=
  matchesFrom (viewOf p c) 0 reader_size.

(** The row contexts the operator is still to be bound to: the rows after
    [_pos] of the buffered block, then the rows of the blocks upstream
    delivers up to its first reply without a block. A block is scanned for its
    row 0 even if it has no rows. *)
Definition rowsAfter (b : AqlItemBlock) (p : nat) : list ViewExpressionContext :=
  map (mkCtx (Some b)) (seq (S p) (nrItems b - S p)).

Fixpoint upstreamRows (up : Upstream) : list ViewExpressionContext :=
  match up with
  | [] => []
  | (WAITING, _) :: up' => upstreamRows up'
  | (_, None) :: _ => []
  | (_, Some b) :: up' => mkCtx (Some b) 0 :: rowsAfter b 0 ++ upstreamRows up'
  end.

Definition pendingRows (e : ExecutionBlock) (up : Upstream) : list ViewExpressionContext :=
  match _buffer e with
  | [] => upstreamRows up
  | b :: _ => rowsAfter b (_pos e) ++ upstreamRows up
  end.

(** The matches of the scans of the given rows, the predicate being
    recompiled for each row as [reset] does. *)
Fixpoint scanTotal (p : Compiled) (rows : list ViewExpressionContext) : nat :=
  match rows with
  | [] => 0
  | c :: rows' => matchesOf (recompile p c) c + scanTotal (recompile p c) rows'
  end.

(** The matches of the scans of the rows to come. *)
Definition futureOf (st : Block) (up : Upstream) : nat :=
  scanTotal (compiledOf (vb st)) (pendingRows (eb st) up).

(** The matches ahead of an operator inside its loops: what is left of the
    scan of the current row and the scans of the rows to come. [getSome]
    leaves a row for good once [_hasMore] is false. *)
Definition aheadOfSkip (st : Block) (up : Upstream) : nat :=
  (if bool_decide (_buffer (eb st) = []) then 0 else remaining st) + futureOf st up.

Definition aheadOfGet (st : Block) (up : Upstream) : nat :=
  (if bool_decide (_buffer (eb st) = []) then 0
   else if _hasMore (vb st) then remaining st else 0)
  + futureOf st up.

(** Matches not yet reported by [skipSome]: those ahead, unless the operator
    is done, and those counted in flight. *)
Definition unreportedSkip (st : Block) (up : Upstream) : nat :=
  (if _done (eb st) then 0 else aheadOfSkip st up) + _inflight (vb st).

(** Matches not yet returned by [getSome]. *)
Definition unreturnedGet (st : Block) (up : Upstream) : nat :=
  if _done (eb st) then 0 else aheadOfGet st up.

(** What one [skipSome(atMost)] call, entered in [st] with script [up], does
    to the matches not yet reported: it reports [n] of them and leaves the
    rest; a WAITING answer used up a reply. *)
Definition skipConserves (atMost : nat) (st : Block) (up : Upstream) (o : SkipSomeOutcome)
  : Prop :=
  exists s n,
    o.1.1 = Ok (s, n)
    /\ (length (_buffer (eb o.1.2)) <= 1 /\ cursorJoinable (vb o.1.2) (cur o.1.2))
    /\ length o.2 <= length up
    /\ (s = WAITING ->
        length o.2 < length up /\ _inflight (vb o.1.2) < atMost /\ _done (eb o.1.2) = false)
    /\ (s = DONE -> _done (eb o.1.2) = true)
    /\ (s = HASMORE ->
        _done (eb o.1.2) = false /\ _inflight (vb o.1.2) = 0 /\ atMost <= n)
    /\ unreportedSkip o.1.2 o.2 + n = unreportedSkip st up.

(** The same for one [getSome(atMost)] call and the matches not yet
    returned. *)
Definition getConserves (atMost : nat) (st : Block) (up : Upstream) (o : GetSomeOutcome)
  : Prop :=
  exists s batch,
    o.1.1 = Ok (s, batch)
    /\ (length (_buffer (eb o.1.2)) <= 1 /\ cursorJoinable (vb o.1.2) (cur o.1.2))
    /\ (_buffer (eb o.1.2) = [] -> _hasMore (vb o.1.2) = true)
    /\ length o.2 <= length up
    /\ (s = WAITING -> length o.2 < length up /\ _done (eb o.1.2) = false)
    /\ (s = DONE -> _done (eb o.1.2) = true)
    /\ (s = HASMORE -> _done (eb o.1.2) = false /\ 1 <= batchRows batch)
    /\ unreturnedGet o.1.2 o.2 + batchRows batch = unreturnedGet st up.

(** What the loops of the controller maintain: at most one block buffered,
    and only joinable matches on the cursor. *)
Definition scanInvariant (st : Block) : Prop :=
  length (_buffer (eb st)) <= 1 /\ cursorJoinable (vb st) (cur st).

(** The state [reset] runs on after upstream delivered block [b] with state
    [s]. *)
Definition fetchedState (s : ExecutionState) (b : AqlItemBlock) (st : Block) : Block :=
  with_eb (mkEB [b] 0 (_done (eb st)) s (scannedIndex (eb st))) st.

(** The state after upstream answered with no block and state [s]. *)
Definition exhaustedState (s : ExecutionState) (st : Block) : Block :=
  with_eb (mkEB (_buffer (eb st)) (_pos (eb st)) true s (scannedIndex (eb st))) st.

(** What a strategy's [next] does to the row count and to the cursor: the
    new rows are covered by the matches that left the cursor; when every match
    joins, the new rows are exactly the matches that left the cursor, as many
    as the limit allows. *)
Definition nextAccounts (v : ViewBase) (n limit : nat) (ctx : ReadContext) (c : Cursor)
    (r : bool * ReadContext * Cursor) : Prop :=
  let n' := reader_size - _readerOffset r.2 in
  rc_pos ctx <= rc_pos r.1.2
  /\ (rc_pos r.1.2 - rc_pos ctx) + remainingIn v r.2 n' <= remainingIn v c n
  /\ (r.1.1 = true <-> rc_pos r.1.2 = rc_pos ctx + limit)
  /\ (allJoinable -> cursorJoinable v c ->
      rc_pos r.1.2 = rc_pos ctx + Nat.min limit (remainingIn v c n)
      /\ remainingIn v r.2 n' = remainingIn v c n - Nat.min limit (remainingIn v c n)
      /\ cursorJoinable v r.2).

(** The primary key of a match as [readPKs] reads it: the stored key of the
    document id, decoded. *)
Definition decodeKey (seg : nat) (x : doc_id_t * bytes_ref) : option DocumentPrimaryKey :=
  match pkColumn seg x.1 with
  | None => None
  | Some key => DocumentPrimaryKey_read key
  end.

(** A match together with the segment it comes from. *)
Abbreviation SegMatch := (nat * (doc_id_t * bytes_ref))%type.

(** The matches of the [n] segments from [seg] on under the compiled
    predicate, in segment order and iteration order. *)
Fixpoint matchListFrom (v : ViewBase) (seg n : nat) : list SegMatch :=
  match n with
  | 0 => []
  | S n' => map (pair seg) (segmentIterator v seg) ++ matchListFrom v (S seg) n'
  end.

(** The matches the cursor has not visited, in the order it visits them,
    [n] segments being left including the one it is on. *)
Definition matchesAheadIn (v : ViewBase) (c : Cursor) (n : nat) : list SegMatch :=
  match n with
  | 0 => []
  | S n' =>
      map (pair (_readerOffset c)) (liveIterator v c)
      ++ matchListFrom v (S (_readerOffset c)) n'
  end.

Definition matchesAhead (st : Block) : list SegMatch :=
  matchesAheadIn (vb st) (cur st) (reader_size - _readerOffset (cur st)).

(** The storage join of a match: the document and the score bytes of the
    match. *)
Definition joinMatch (m : SegMatch) : option (VPackSlice * bytes_ref) :=
  match readDocument m.1 m.2.1 with
  | None => None
  | Some doc => Some (doc, m.2.2)
  end.

(** Row [row] of [res] as a strategy writes it for a joined document: the
    document in register [regs] and, in the registers below, the values of
    row 0 of the batch [res0] the strategy started from. *)
Definition rowHolds (res0 res : AqlItemBlock) (regs : RegisterId) (row : nat)
    (doc : VPackSlice) : Prop :=
  getValueReference res row regs = AqlValue_slice doc
  /\ forall r, r < regs -> getValueReference res row r = getValueReference res0 0 r.

(** Row [row] of [res] holds the scores of a match with score bytes [scrVal]:
    register [regs + 1 + i] holds the value of scorer [i]. *)
Definition rowScored (v : ViewBase) (res : AqlItemBlock) (regs : RegisterId) (row : nat)
    (scrVal : bytes_ref) : Prop :=
  forall i, i < length (sortCondition node) ->
    getValueReference res row (S (regs + i)) = order_to_string (_order v) scrVal i.

(** From read context [ctx] to [ctx'] a strategy appended one row per element
    of [js] (document, score bytes), in order, from row [ctx.pos] on; with
    [scored] the rows carry their scores. Rows below [ctx.pos] and the
    pass-through registers of row 0 are as before. *)
Definition rowsWritten (v : ViewBase) (scored : bool) (ctx ctx' : ReadContext)
    (js : list (VPackSlice * bytes_ref)) : Prop :=
  rc_pos ctx' = rc_pos ctx + length js
  /\ curRegs ctx' = curRegs ctx
  /\ (forall j x, js !! j = Some x ->
        rowHolds (rc_res ctx) (rc_res ctx') (curRegs ctx) (rc_pos ctx + j) x.1
        /\ (scored = true -> rowScored v (rc_res ctx') (curRegs ctx) (rc_pos ctx + j) x.2))
  /\ (forall i r, i < rc_pos ctx ->
        getValueReference (rc_res ctx') i r = getValueReference (rc_res ctx) i r)
  /\ (forall r, r < curRegs ctx ->
        getValueReference (rc_res ctx') 0 r = getValueReference (rc_res ctx) 0 r).

(** Rows carried by a reply of [getSome]. *)
Definition replyRows (r : Result (ExecutionState * option AqlItemBlock)) : nat :=
  match r with
  | Ok (_, batch) => batchRows batch
  | Throw _ => 0
  end.

(** What a call of [getSome] entered in [st] with script [up] keeps: it
    consumes replies from the front of the script, adds the rows it returns to
    the statistic, leaves the in-flight skip counter alone, buffers no second
    block, and with a filter that is not volatile does not recompile, so that
    no [reset] of the call raises. *)
Definition getSomeKeeps (st : Block) (up : Upstream) (o : GetSomeOutcome) : Prop :=
  (exists used, up = used ++ o.2)
  /\ scannedIndex (eb o.1.2) = (scannedIndex (eb st) + Z.of_nat (replyRows o.1.1))%Z
  /\ _inflight (vb o.1.2) = _inflight (vb st)
  /\ (length (_buffer (eb st)) <= 1 -> length (_buffer (eb o.1.2)) <= 1)
  /\ (_volatileFilter (vb st) = false ->
      compiledOf (vb o.1.2) = compiledOf (vb st) /\ exists x, o.1.1 = Ok x).

(** What the fetch block at the head of the loops keeps, by the exit it
    takes. *)
Definition fetchKeeps (st : Block) (up : Upstream) (f : Fetched) : Prop :=
  let step st1 up1 :=
    (exists used, up = used ++ up1)
    /\ scannedIndex (eb st1) = scannedIndex (eb st)
    /\ _inflight (vb st1) = _inflight (vb st)
    /\ _hasMore (vb st1) = _hasMore (vb st)
    /\ (length (_buffer (eb st)) <= 1 -> length (_buffer (eb st1)) <= 1)
    /\ (_volatileFilter (vb st) = false -> compiledOf (vb st1) = compiledOf (vb st)) in
  match f with
  | FetchWaiting s st1 up1 =>
      s = WAITING /\ st1 = st /\ _buffer (eb st) = [] /\ exists x, up = (WAITING, x) :: up1
  | FetchExhausted st1 up1 =>
      step st1 up1 /\ _done (eb st1) = true /\ _buffer (eb st1) = []
  | FetchThrow e st1 up1 => step st1 up1 /\ _volatileFilter (vb st) = true
  | FetchReady st1 up1 => step st1 up1 /\ _buffer (eb st1) <> []
  end.

(** What a call of [skipSome(atMost)] keeps: it consumes replies from the
    front of the script, leaves [_hasMore] alone, buffers no second block,
    keeps the in-flight counter within [atMost] and reports no more than
    [atMost] (exactly [atMost] with HASMORE), and with a filter that is not
    volatile does not recompile, so that no [reset] of the call raises. *)
Definition skipSomeKeeps (atMost : nat) (st : Block) (up : Upstream) (o : SkipSomeOutcome)
  : Prop :=
  (exists used, up = used ++ o.2)
  /\ _hasMore (vb o.1.2) = _hasMore (vb st)
  /\ (length (_buffer (eb st)) <= 1 -> length (_buffer (eb o.1.2)) <= 1)
  /\ (_inflight (vb st) <= atMost ->
      _inflight (vb o.1.2) <= atMost
      /\ forall s n, o.1.1 = Ok (s, n) -> n <= atMost /\ (s = HASMORE -> n = atMost))
  /\ (_volatileFilter (vb st) = false ->
      compiledOf (vb o.1.2) = compiledOf (vb st) /\ exists x, o.1.1 = Ok x).

(** What one [skipSome(atMost)] call does to the matches not yet reported,
    whether or not they can be joined: it reports [n] of them and leaves the
    rest; a WAITING answer used up a reply. *)
Definition skipCounts (atMost : nat) (st : Block) (up : Upstream) (o : SkipSomeOutcome)
  : Prop :=
  exists s n,
    o.1.1 = Ok (s, n)
    /\ length (_buffer (eb o.1.2)) <= 1
    /\ length o.2 <= length up
    /\ (s = WAITING ->
        length o.2 < length up /\ _inflight (vb o.1.2) < atMost /\ _done (eb o.1.2) = false)
    /\ (s = DONE -> _done (eb o.1.2) = true)
    /\ (s = HASMORE ->
        _done (eb o.1.2) = false /\ _inflight (vb o.1.2) = 0 /\ atMost <= n)
    /\ unreportedSkip o.1.2 o.2 + n = unreportedSkip st up.

(** The matches ahead of the cursor that can be joined. *)
Definition joinedRemaining (st : Block) : nat :=
  length (omap joinMatch (matchesAhead st)).

(** All matches of the index for predicate [p] bound to [c] that can be
    joined. *)
Definition joinedOf (p : Compiled) (c : ViewExpressionContext) : nat :=
  length (omap joinMatch (matchListFrom (viewOf p c) 0 reader_size)).

(** The joinable matches of the scans of the given rows, the predicate being
    recompiled for each row as [reset] does. *)
Fixpoint scanTotalJoined (p : Compiled) (rows : list ViewExpressionContext) : nat :=
  match rows with
  | [] => 0
  | c :: rows' => joinedOf (recompile p c) c + scanTotalJoined (recompile p c) rows'
  end.

Definition futureJoined (st : Block) (up : Upstream) : nat :=
  scanTotalJoined (compiledOf (vb st)) (pendingRows (eb st) up).

(** The joinable matches not yet returned by [getSome]: those left of the
    scan of the current row, unless it was found exhausted, and those of the
    rows to come; none once the operator is done. *)
Definition unreturnedJoined (st : Block) (up : Upstream) : nat :=
  if _done (eb st) then 0
  else (if bool_decide (_buffer (eb st) = []) then 0
        else if _hasMore (vb st) then joinedRemaining st else 0)
       + futureJoined st up.

(** What one [getSome(atMost)] call of the scored class does to the joinable
    matches not yet returned: it returns a row for some of them and leaves the
    rest. *)
Definition getReturnsJoined (atMost : nat) (st : Block) (up : Upstream) (o : GetSomeOutcome)
  : Prop :=
  exists s batch,
    o.1.1 = Ok (s, batch)
    /\ length (_buffer (eb o.1.2)) <= 1
    /\ (_buffer (eb o.1.2) = [] -> _hasMore (vb o.1.2) = true)
    /\ length o.2 <= length up
    /\ (s = WAITING -> length o.2 < length up /\ _done (eb o.1.2) = false)
    /\ (s = DONE -> _done (eb o.1.2) = true)
    /\ (s = HASMORE -> _done (eb o.1.2) = false /\ 1 <= batchRows batch)
    /\ unreturnedJoined o.1.2 o.2 + batchRows batch = unreturnedJoined st up.

(** [IResearchViewBlockBase::initializeCursor(items, pos)]. The call of the
    base class, [ExecutionBlock::initializeCursor], is outside the file: its
    answer [res] (a state and an [arangodb::Result], [Ok] or an error number)
    and the inherited members [e] it leaves behind are parameters. *)
Definition initializeCursor (res : ExecutionState * Result unit) (e : ExecutionBlock)
    (st : Block) : (ExecutionState * Result unit) * Block :=
  let st := with_eb e st in
  if bool_decide (res.1 = WAITING) || negb (match res.2 with Ok _ => true | Throw _ => false end)
  then
    (* If we need to wait or get an error we return as is. *)
    (res, st)
  else
    (* has more data initially *)
    (res, with_vb (set_inflight 0 (set_hasMore true (vb st))) st).

(** The state [reset] runs on at a row transition inside a block: [++_pos]. *)
Definition nextRowState (st : Block) : Block :=
  with_eb (set_pos (S (_pos (eb st))) (eb st)) st.

(** One pass through the loops of [getSome(atMost)], entered at their head in
    [st] with script [up], jumps back to the head in [st'] with script [up']:
    the fetch block leaves [_buffer.front()] in place and the rest of the body
    hands over to whatever runs next, [again]. *)
Definition getSomePass (k : BlockKind) (atMost : nat) (st : Block) (up : Upstream)
    (st' : Block) (up' : Upstream) : Prop :=
  exists st1,
    fetchIfEmpty atMost st up = FetchReady st1 up'
    /\ forall again, getSome_row again k atMost st1 up' = again st' up'.

(** A [getSome(atMost)] call entered in [st] with script [up] stands at the
    head of its loops in [st'] with script [up'], after any number of passes
    that jumped back. *)
Inductive getSomeAt (k : BlockKind) (atMost : nat) (st : Block) (up : Upstream)
  : Block -> Upstream -> Prop :=
| getSomeAt_entry : getSomeAt k atMost st up st up
| getSomeAt_pass (st1 : Block) (up1 : Upstream) (st' : Block) (up' : Upstream) :
    getSomeAt k atMost st up st1 up1 -> getSomePass k atMost st1 up1 st' up' ->
    getSomeAt k atMost st up st' up'.

(** The same for one evaluation of the loop of [skipSome(atMost)]: the
    condition [_inflight < atMost] holds, the fetch block leaves
    [_buffer.front()] in place and the body jumps back to the condition. *)
Definition skipSomePass (atMost : nat) (st : Block) (up : Upstream)
    (st' : Block) (up' : Upstream) : Prop :=
  _inflight (vb st) < atMost
  /\ exists st1,
       fetchIfEmpty atMost st up = FetchReady st1 up'
       /\ forall again, skipSome_row again atMost st1 up' = again st' up'.

Inductive skipSomeAt (atMost : nat) (st : Block) (up : Upstream)
  : Block -> Upstream -> Prop :=
| skipSomeAt_entry : skipSomeAt atMost st up st up
| skipSomeAt_pass (st1 : Block) (up1 : Upstream) (st' : Block) (up' : Upstream) :
    skipSomeAt atMost st up st1 up1 -> skipSomePass atMost st1 up1 st' up' ->
    skipSomeAt atMost st up st' up'.

(** The documents of the matches ahead of the cursor that can be joined, in
    the order the cursor visits them. *)
Definition joinedAhead (st : Block) : list VPackSlice :=
  (omap joinMatch (matchesAhead st)).*1.

(** The documents of all matches of the index for predicate [p] bound to [c]
    that can be joined, in segment order and iteration order. *)
Definition joinedDocsOf (p : Compiled) (c : ViewExpressionContext) : list VPackSlice :=
  (omap joinMatch (matchListFrom (viewOf p c) 0 reader_size)).*1.

(** The joinable documents of the scans of the given rows, row after row, the
    predicate being recompiled for each row as [reset] does. *)
Fixpoint scanDocs (p : Compiled) (rows : list ViewExpressionContext) : list VPackSlice :=
  match rows with
  | [] => []
  | c :: rows' => joinedDocsOf (recompile p c) c ++ scanDocs (recompile p c) rows'
  end.

Definition futureDocs (st : Block) (up : Upstream) : list VPackSlice :=
  scanDocs (compiledOf (vb st)) (pendingRows (eb st) up).

(** The joinable documents not yet returned by [getSome], in the order of the
    scan: those left of the scan of the current row, unless it was found
    exhausted, then those of the rows to come; none once the operator is
    done. *)
Definition unreturnedDocs (st : Block) (up : Upstream) : list VPackSlice :=
  if _done (eb st) then []
  else (if bool_decide (_buffer (eb st) = []) then []
        else if _hasMore (vb st) then joinedAhead st else [])
       ++ futureDocs st up.

(** What a returned batch holds in the register of the output variable (the
    first register after the input registers), row by row. *)
Definition batchDocs (batch : option AqlItemBlock) : list AqlValue :=
  match batch with
  | None => []
  | Some b => (λ i, getValueReference b i (nrInputRegisters node)) <$> seq 0 (nrItems b)
  end.

(** The caller's loop "call [getSome(atMost)] until it answers DONE" (at most
    [n] calls): what the rows of all batches returned hold in the register of
    the output variable, in the order returned. An error ends the loop. *)
Fixpoint getSome_collect (n : nat) (k : BlockKind) (atMost : nat) (st : Block) (up : Upstream)
  : option (Result (list AqlValue)) :=
  match n with
  | 0 => None
  | S n' =>
      match getSome k atMost st up with
      | None => None
      | Some (Throw e, _, _) => Some (Throw e)
      | Some (Ok (DONE, batch), _, _) => Some (Ok (batchDocs batch))
      | Some (Ok (_, batch), st', up') =>
          match getSome_collect n' k atMost st' up' with
          | Some (Ok docs) => Some (Ok (batchDocs batch ++ docs))
          | other => other
          end
      end
  end.

(** What one [getSome(atMost)] call of the scored class does to the joinable
    documents not yet returned: the rows of its batch hold the first of them,
    in order, and the rest is left. *)
Definition getReturnsDocs (atMost : nat) (st : Block) (up : Upstream) (o : GetSomeOutcome)
  : Prop :=
  exists s batch,
    o.1.1 = Ok (s, batch)
    /\ length (_buffer (eb o.1.2)) <= 1
    /\ (_buffer (eb o.1.2) = [] -> _hasMore (vb o.1.2) = true)
    /\ length o.2 <= length up
    /\ (s = WAITING -> length o.2 < length up /\ _done (eb o.1.2) = false)
    /\ (s = DONE -> _done (eb o.1.2) = true)
    /\ (s = HASMORE -> _done (eb o.1.2) = false /\ 1 <= batchRows batch)
    /\ batchDocs batch ++ (AqlValue_slice <$> unreturnedDocs o.1.2 o.2)
       = AqlValue_slice <$> unreturnedDocs st up.

(** The flag invariant of the compiled predicate, as a boolean. *)
Definition sortImpliesFilter (v : ViewBase) : bool :=
  implb (_volatileSort v) (_volatileFilter v).

(** A register plan is well formed when no variable is planned into the
    sentinel register [MaxRegisterId]. *)
Definition planWellFormed : Prop :=
  map_Forall (λ _ r, r ≠ MaxRegisterId) (varInfo node).

(* ------------------------------------------------------------------------- *)
(** ** Row context adapter: properties *)
(* ------------------------------------------------------------------------- *)

Lemma AqlValue_clone_contents (v : AqlValue) : AqlValue_clone v = v.
Proof. by destruct v. Qed.

Lemma getRegister_planned (var : VariableId) (r : RegisterId) :
  varInfo node !! var = Some r -> getRegister var = r.
Proof. unfold getRegister. by intros ->. Qed.

Lemma getRegister_unplanned (var : VariableId) :
  varInfo node !! var = None -> getRegister var = MaxRegisterId.
Proof. unfold getRegister. by intros ->. Qed.

(** C9: the row-context lookup raises an internal error exactly when the
    variable is the operator's own output variable or has no register in the
    register plan; otherwise it returns the register of the current row, as a
    copy with [mustDestroy = true] when [doCopy] is set and as the value
    itself with [mustDestroy = false] otherwise. *)
Theorem getVariableValue_contract
    (c : ViewExpressionContext) (b : AqlItemBlock) (var : VariableId) (doCopy : bool) :
  planWellFormed ->
  ctx_data c = Some b ->
  (getVariableValue c var doCopy = Throw TRI_ERROR_INTERNAL
   <-> (var = outVariable node \/ varInfo node !! var = None))
  /\ (forall r, var <> outVariable node -> varInfo node !! var = Some r ->
        getVariableValue c var doCopy
        = Ok (if doCopy then AqlValue_clone (getValueReference b (ctx_pos c) r)
              else getValueReference b (ctx_pos c) r, doCopy)
        /\ AqlValue_clone (getValueReference b (ctx_pos c) r)
           = getValueReference b (ctx_pos c) r).
Proof.
  intros Hwf Hb. unfold getVariableValue. rewrite Hb. split.
  - split.
    + destruct (decide (var = outVariable node)) as [|Hne]; [by left|].
      destruct (varInfo node !! var) as [r|] eqn:Hr; [|by right].
      rewrite (getRegister_planned _ _ Hr).
      destruct (decide (r = MaxRegisterId)) as [->|_].
      * by destruct (Hwf _ _ Hr).
      * by destruct doCopy.
    + intros [->|Hnone].
      * by rewrite decide_True.
      * destruct (decide (var = outVariable node)); [done|].
        rewrite (getRegister_unplanned _ Hnone). by rewrite decide_True.
  - intros r Hne Hr. rewrite decide_False by done.
    rewrite (getRegister_planned _ _ Hr).
    rewrite decide_False by (by apply (Hwf _ _ Hr)).
    split; [by destruct doCopy | apply AqlValue_clone_contents].
Qed.

(* ------------------------------------------------------------------------- *)
(** ** Predicate compiler glue: properties *)
(* ------------------------------------------------------------------------- *)

(** What [IResearchViewBlockBase_reset] leaves alone. *)
Lemma base_reset_frame (st : Block) :
  eb (IResearchViewBlockBase_reset st).2 = eb st
  /\ cur (IResearchViewBlockBase_reset st).2 = cur st
  /\ _inflight (vb (IResearchViewBlockBase_reset st).2) = _inflight (vb st)
  /\ _hasMore (vb (IResearchViewBlockBase_reset st).2) = _hasMore (vb st).
Proof.
  unfold IResearchViewBlockBase_reset; simpl.
  destruct (_volatileFilter (vb st)); [|done].
  destruct (FilterFactory_filter _ _); [|done].
  destruct (if _volatileSort (vb st) then _ else _); done.
Qed.

Lemma reset_frame (st : Block) :
  eb (reset st).2 = eb st
  /\ _inflight (vb (reset st).2) = _inflight (vb st)
  /\ _hasMore (vb (reset st).2) = _hasMore (vb st).
Proof.
  unfold reset. destruct (base_reset_frame st) as (He & _ & Hi & Hh).
  destruct (IResearchViewBlockBase_reset st) as [[u|e] st']; simpl in *; done.
Qed.

Lemma base_reset_flags (st : Block) :
  sortImpliesFilter (vb st) = true ->
  sortImpliesFilter (vb (IResearchViewBlockBase_reset st).2) = true.
Proof.
  unfold IResearchViewBlockBase_reset, sortImpliesFilter; simpl.
  destruct (_volatileFilter (vb st)) eqn:Hvf; simpl; [|by rewrite Hvf].
  destruct (FilterFactory_filter _ _); simpl; [|by rewrite Hvf].
  destruct (if _volatileSort (vb st) then _ else _); simpl.
  - by destruct ((volatility node).2).
  - by rewrite Hvf.
Qed.

(** C6 (amended): a completed [reset] establishes volatile-sort implies
    volatile-filter whenever the implication held before the call, for the
    base method as well as for the override the operator dispatches to. *)
Theorem reset_keeps_sort_implies_filter (st : Block) :
  sortImpliesFilter (vb st) = true ->
  (IResearchViewBlockBase_reset st).1 = Ok tt ->
  sortImpliesFilter (vb (IResearchViewBlockBase_reset st).2) = true
  /\ sortImpliesFilter (vb (reset st).2) = true.
Proof.
  intros Hinv _. pose proof (base_reset_flags st Hinv) as H.
  split; [done|]. unfold reset.
  destruct (IResearchViewBlockBase_reset st) as [[u|e] st']; done.
Qed.

(* ------------------------------------------------------------------------- *)
(** ** Scored strategy: a failed join *)
(* ------------------------------------------------------------------------- *)

Lemma scoredSegments_S (v : ViewBase) (n limit : nat) (ctx : ReadContext) (c : Cursor) :
  scoredSegments v (S n) limit ctx c
  = let '(limit', it', ctx') := scoredScan v (_readerOffset c) limit (liveIterator v c) ctx in
    if limit' =? 0 then (true, ctx', mkCursor (Some it') (_readerOffset c) (_keys c))
    else scoredSegments v n limit' ctx' (mkCursor None (S (_readerOffset c)) (_keys c)).
Proof. reflexivity. Qed.

Lemma scoredScan_failed_join (v : ViewBase) (seg limit : nat) (docId : doc_id_t)
    (scrVal : bytes_ref) (it : list (doc_id_t * bytes_ref)) (ctx : ReadContext) :
  0 < limit -> readDocument seg docId = None ->
  scoredScan v seg limit ((docId, scrVal) :: it) ctx = scoredScan v seg limit it ctx.
Proof. intros Hl Hr. destruct limit; [lia|]. simpl. by rewrite Hr. Qed.

(** C5: in [IResearchViewBlock::next], a match whose storage join fails is
    skipped without effect: the call behaves exactly as if the match had not
    been in the iterator, so it consumes no limit, adds no row, writes no
    register (document or score) and the scan goes on with the next match of
    the same iterator. *)
Theorem scored_next_skips_failed_join
    (st : Block) (ctx : ReadContext) (limit : nat) (docId : doc_id_t) (scrVal : bytes_ref)
    (it : list (doc_id_t * bytes_ref)) :
  _readerOffset (cur st) < reader_size ->
  liveIterator (vb st) (cur st) = (docId, scrVal) :: it ->
  0 < limit ->
  readDocument (_readerOffset (cur st)) docId = None ->
  IResearchViewBlock_next ctx limit st
  = IResearchViewBlock_next ctx limit
      (with_cur (mkCursor (Some it) (_readerOffset (cur st)) (_keys (cur st))) st)
  /\ scoredScan (vb st) (_readerOffset (cur st)) limit ((docId, scrVal) :: it) ctx
     = scoredScan (vb st) (_readerOffset (cur st)) limit it ctx.
Proof.
  intros Hoff Hit Hl Hr. split; [|by apply scoredScan_failed_join].
  unfold IResearchViewBlock_next.
  cbn [vb cur with_cur _itr _readerOffset _keys].
  destruct (reader_size - _readerOffset (cur st)) as [|n] eqn:Hn; [lia|].
  rewrite !scoredSegments_S, Hit.
  cbn [liveIterator _itr _readerOffset _keys].
  by rewrite (scoredScan_failed_join _ _ _ _ _ _ _ Hl Hr).
Qed.

(* ------------------------------------------------------------------------- *)
(** ** skipSome on a finished operator *)
(* ------------------------------------------------------------------------- *)

(** C10: when the operator is already DONE, [skipSome] returns DONE with the
    current in-flight counter, adds it to the scanned-index statistic and
    zeroes the counter, so calling again reports zero and adds nothing. *)
Theorem skipSome_when_done (atMost atMost' : nat) (st : Block) (up : Upstream) :
  _done (eb st) = true ->
  exists st',
    skipSome atMost st up = Some (Ok (DONE, _inflight (vb st)), st', up)
    /\ scannedIndex (eb st') = (scannedIndex (eb st) + Z.of_nat (_inflight (vb st)))%Z
    /\ _inflight (vb st') = 0
    /\ _done (eb st') = true
    /\ exists st'',
         skipSome atMost' st' up = Some (Ok (DONE, 0), st'', up)
         /\ scannedIndex (eb st'') = scannedIndex (eb st')
         /\ _inflight (vb st'') = 0.
Proof.
  intros Hd. unfold skipSome. rewrite Hd. simpl.
  eexists; split; [reflexivity|]. simpl. rewrite Hd. simpl.
  repeat split; try done.
  eexists; split; [reflexivity|]. simpl. split; [lia|done].
Qed.

(* ------------------------------------------------------------------------- *)
(** ** Scan strategies: limit accounting *)
(* ------------------------------------------------------------------------- *)

Lemma scoredScan_count (v : ViewBase) (seg limit : nat) (it : list (doc_id_t * bytes_ref))
    (ctx : ReadContext) :
  rc_pos (scoredScan v seg limit it ctx).2 + (scoredScan v seg limit it ctx).1.1
  = rc_pos ctx + limit.
Proof.
  revert limit ctx. induction it as [|[docId scrVal] it IH]; intros limit ctx.
  - destruct limit; simpl; lia.
  - destruct limit as [|limit']; [simpl; lia|].
    cbn [scoredScan]. destruct (readDocument seg docId).
    + rewrite IH. simpl. lia.
    + apply IH.
Qed.

Lemma scoredSegments_more (v : ViewBase) (n limit : nat) (ctx : ReadContext) (c : Cursor) :
  (scoredSegments v n limit ctx c).1.1 = true ->
  rc_pos (scoredSegments v n limit ctx c).1.2 = rc_pos ctx + limit.
Proof.
  revert limit ctx c. induction n as [|n IH]; intros limit ctx c.
  - simpl. intros ->%Nat.eqb_eq. lia.
  - rewrite scoredSegments_S.
    pose proof (scoredScan_count v (_readerOffset c) limit (liveIterator v c) ctx) as Hc.
    destruct (scoredScan _ _ _ _ _) as [[limit' it'] ctx']. simpl in Hc.
    destruct (limit' =? 0) eqn:Hz.
    + apply Nat.eqb_eq in Hz. simpl. lia.
    + intros Hm. rewrite (IH _ _ _ Hm). lia.
Qed.

Lemma readPKs_loop_length (seg slots : nat) (it : list (doc_id_t * bytes_ref)) :
  length (readPKs_loop seg slots it).1 <= slots.
Proof.
  revert slots. induction it as [|[docId scr] it IH]; intros slots.
  - destruct slots; simpl; lia.
  - destruct slots as [|slots']; [simpl; lia|].
    cbn [readPKs_loop]. destruct (pkColumn seg docId) as [key|]; [|apply IH].
    destruct (DocumentPrimaryKey_read key); [|apply IH].
    specialize (IH slots'). destruct (readPKs_loop seg slots' it). simpl in *. lia.
Qed.

Lemma readPKs_accepted (seg : nat) (it : list (doc_id_t * bytes_ref)) (limit : nat) :
  take (readPKs seg it limit).1.2 (readPKs seg it limit).1.1 = (readPKs_loop seg limit it).1
  /\ (readPKs seg it limit).2 = (readPKs_loop seg limit it).2.
Proof.
  unfold readPKs. destruct (readPKs_loop seg limit it) as [pks rest]. simpl.
  split; [|done]. by rewrite take_app_length.
Qed.

Lemma joinKeys_count (pks : list DocumentPrimaryKey) (limit : nat) (ctx : ReadContext) :
  length pks <= limit ->
  rc_pos (joinKeys pks limit ctx).2 + (joinKeys pks limit ctx).1 = rc_pos ctx + limit.
Proof.
  revert limit ctx. induction pks as [|pk pks IH]; intros limit ctx Hl; [done|].
  simpl in *. destruct (readDocument_pk pk).
  - rewrite IH by lia. simpl. lia.
  - apply IH. lia.
Qed.

Lemma unorderedSegments_S (v : ViewBase) (n limit : nat) (ctx : ReadContext) (c : Cursor) :
  unorderedSegments v (S n) limit ctx c
  = let '(keys, accepted, it') := readPKs (_readerOffset c) (liveIterator v c) limit in
    let '(limit', ctx') := joinKeys (take accepted keys) limit ctx in
    if limit' =? 0 then (true, ctx', mkCursor (Some it') (_readerOffset c) keys)
    else unorderedSegments v n limit' ctx' (mkCursor None (S (_readerOffset c)) keys).
Proof. reflexivity. Qed.

Lemma unorderedSegments_more (v : ViewBase) (n limit : nat) (ctx : ReadContext) (c : Cursor) :
  (unorderedSegments v n limit ctx c).1.1 = true ->
  rc_pos (unorderedSegments v n limit ctx c).1.2 = rc_pos ctx + limit.
Proof.
  revert limit ctx c. induction n as [|n IH]; intros limit ctx c.
  - simpl. intros ->%Nat.eqb_eq. lia.
  - rewrite unorderedSegments_S.
    destruct (readPKs_accepted (_readerOffset c) (liveIterator v c) limit) as [Ht _].
    pose proof (readPKs_loop_length (_readerOffset c) limit (liveIterator v c)) as Hlen.
    destruct (readPKs _ _ _) as [[keys accepted] it']. simpl in Ht. rewrite Ht.
    pose proof (joinKeys_count _ limit ctx Hlen) as Hc.
    destruct (joinKeys _ _ _) as [limit' ctx']. simpl in Hc.
    destruct (limit' =? 0) eqn:Hz.
    + apply Nat.eqb_eq in Hz. simpl. lia.
    + intros Hm. rewrite (IH _ _ _ Hm). lia.
Qed.

(** [next] touches the read cursor only. *)
Lemma next_frame (k : BlockKind) (ctx : ReadContext) (limit : nat) (st : Block) :
  eb (next k ctx limit st).2 = eb st /\ vb (next k ctx limit st).2 = vb st.
Proof.
  destruct k; simpl.
  - unfold IResearchViewBlock_next. by destruct (scoredSegments _ _ _ _ _) as [[r c'] ctx'].
  - unfold IResearchViewUnorderedBlock_next.
    by destruct (unorderedSegments _ _ _ _ _) as [[r c'] ctx'].
Qed.

(** [next] answers [true] only when it produced [limit] rows. *)
Lemma next_more (k : BlockKind) (ctx : ReadContext) (limit : nat) (st : Block) :
  (next k ctx limit st).1.1 = true ->
  rc_pos (next k ctx limit st).1.2 = rc_pos ctx + limit.
Proof.
  destruct k; simpl.
  - unfold IResearchViewBlock_next.
    pose proof (scoredSegments_more (vb st) (reader_size - _readerOffset (cur st)) limit ctx
                  (cur st)) as H.
    by destruct (scoredSegments _ _ _ _ _) as [[r c'] ctx'].
  - unfold IResearchViewUnorderedBlock_next.
    pose proof (unorderedSegments_more (vb st) (reader_size - _readerOffset (cur st)) limit ctx
                  (cur st)) as H.
    by destruct (unorderedSegments _ _ _ _ _) as [[r c'] ctx'].
Qed.

Lemma skip_frame (limit : nat) (st : Block) :
  eb (skip limit st).2 = eb st /\ vb (skip limit st).2 = vb st.
Proof. unfold skip. by destruct (skipSegments _ _ _ _ _). Qed.

(** The scan strategies write registers of the output batch but never
    resize it. *)
Lemma copyRegs_nrItems (n : nat) (src : AqlItemBlock) (from : nat) (dst : AqlItemBlock)
    (to : nat) :
  nrItems (copyRegs n src from dst to) = nrItems dst.
Proof. induction n as [|n IH]; simpl; done. Qed.

Lemma copyScores_nrItems (v : ViewBase) (scrVal : bytes_ref) (i n : nat) (regs : RegisterId)
    (row : nat) (res : AqlItemBlock) :
  nrItems (copyScores v scrVal i n regs row res) = nrItems res.
Proof.
  revert i regs res. induction n as [|n IH]; intros i regs res; simpl; [done|].
  by rewrite IH.
Qed.

Lemma acceptRow_nrItems (ctx : ReadContext) (res : AqlItemBlock) :
  nrItems (rc_res (acceptRow ctx res)) = nrItems res.
Proof.
  unfold acceptRow; simpl. destruct (0 <? rc_pos ctx); [|done].
  apply copyRegs_nrItems.
Qed.

Lemma scoredScan_nrItems (v : ViewBase) (seg limit : nat) (it : list (doc_id_t * bytes_ref))
    (ctx : ReadContext) :
  nrItems (rc_res (scoredScan v seg limit it ctx).2) = nrItems (rc_res ctx).
Proof.
  revert limit ctx. induction it as [|[docId scrVal] it IH]; intros limit ctx.
  - by destruct limit.
  - destruct limit as [|limit']; [done|].
    cbn [scoredScan]. destruct (readDocument seg docId); [|apply IH].
    by rewrite IH, acceptRow_nrItems, copyScores_nrItems.
Qed.

Lemma scoredSegments_nrItems (v : ViewBase) (n limit : nat) (ctx : ReadContext) (c : Cursor) :
  nrItems (rc_res (scoredSegments v n limit ctx c).1.2) = nrItems (rc_res ctx).
Proof.
  revert limit ctx c. induction n as [|n IH]; intros limit ctx c; [done|].
  rewrite scoredSegments_S.
  pose proof (scoredScan_nrItems v (_readerOffset c) limit (liveIterator v c) ctx) as Hc.
  destruct (scoredScan _ _ _ _ _) as [[limit' it'] ctx']. simpl in Hc.
  destruct (limit' =? 0); [done|]. by rewrite IH.
Qed.

Lemma joinKeys_nrItems (pks : list DocumentPrimaryKey) (limit : nat) (ctx : ReadContext) :
  nrItems (rc_res (joinKeys pks limit ctx).2) = nrItems (rc_res ctx).
Proof.
  revert limit ctx. induction pks as [|pk pks IH]; intros limit ctx; [done|].
  simpl. destruct (readDocument_pk pk); [|apply IH].
  by rewrite IH, acceptRow_nrItems.
Qed.

Lemma unorderedSegments_nrItems (v : ViewBase) (n limit : nat) (ctx : ReadContext)
    (c : Cursor) :
  nrItems (rc_res (unorderedSegments v n limit ctx c).1.2) = nrItems (rc_res ctx).
Proof.
  revert limit ctx c. induction n as [|n IH]; intros limit ctx c; [done|].
  rewrite unorderedSegments_S.
  destruct (readPKs _ _ _) as [[keys accepted] it'].
  pose proof (joinKeys_nrItems (take accepted keys) limit ctx) as Hc.
  destruct (joinKeys _ _ _) as [limit' ctx']. simpl in Hc.
  destruct (limit' =? 0); [done|]. by rewrite IH.
Qed.

Lemma next_nrItems (k : BlockKind) (ctx : ReadContext) (limit : nat) (st : Block) :
  nrItems (rc_res (next k ctx limit st).1.2) = nrItems (rc_res ctx).
Proof.
  destruct k; simpl.
  - unfold IResearchViewBlock_next.
    pose proof (scoredSegments_nrItems (vb st) (reader_size - _readerOffset (cur st)) limit
                  ctx (cur st)) as H.
    by destruct (scoredSegments _ _ _ _ _) as [[r c'] ctx'].
  - unfold IResearchViewUnorderedBlock_next.
    pose proof (unorderedSegments_nrItems (vb st) (reader_size - _readerOffset (cur st)) limit
                  ctx (cur st)) as H.
    by destruct (unorderedSegments _ _ _ _ _) as [[r c'] ctx'].
Qed.

(* ------------------------------------------------------------------------- *)
(** ** The fetch block and the row transition *)
(* ------------------------------------------------------------------------- *)

Lemma fetchIfEmpty_nonempty (atMost : nat) (st : Block) (up : Upstream) :
  _buffer (eb st) <> [] -> fetchIfEmpty atMost st up = FetchReady st up.
Proof. intros H. unfold fetchIfEmpty. by rewrite bool_decide_eq_false_2. Qed.

Lemma fetchIfEmpty_script_end (atMost : nat) (st : Block) :
  _buffer (eb st) = [] ->
  fetchIfEmpty atMost st [] = FetchExhausted (exhaustedState DONE st) [].
Proof. intros H. unfold fetchIfEmpty. by rewrite bool_decide_eq_true_2. Qed.

Lemma fetchIfEmpty_waiting (atMost : nat) (st : Block) (x : option AqlItemBlock)
    (up : Upstream) :
  _buffer (eb st) = [] ->
  fetchIfEmpty atMost st ((WAITING, x) :: up) = FetchWaiting WAITING st up.
Proof. intros H. unfold fetchIfEmpty. by rewrite bool_decide_eq_true_2. Qed.

Lemma fetchIfEmpty_no_block (atMost : nat) (st : Block) (s : ExecutionState) (up : Upstream) :
  _buffer (eb st) = [] -> s <> WAITING ->
  fetchIfEmpty atMost st ((s, None) :: up) = FetchExhausted (exhaustedState s st) up.
Proof.
  intros H Hs. unfold fetchIfEmpty. rewrite bool_decide_eq_true_2 by done.
  by destruct s.
Qed.

Lemma fetchIfEmpty_block (atMost : nat) (st : Block) (s : ExecutionState) (b : AqlItemBlock)
    (up : Upstream) :
  _buffer (eb st) = [] -> s <> WAITING ->
  fetchIfEmpty atMost st ((s, Some b) :: up)
  = match reset (fetchedState s b st) with
    | (Throw e, st') => FetchThrow e st' up
    | (Ok _, st') => FetchReady st' up
    end.
Proof.
  intros H Hs. unfold fetchIfEmpty. rewrite bool_decide_eq_true_2 by done.
  unfold fetchedState. destruct s; try done; simpl; by rewrite H.
Qed.

(** Case analysis on the reply [fetchIfEmpty] consumes. *)
Ltac fetch_cases st up Hbuf :=
  destruct (_buffer (eb st)) as [|? ?] eqn:Hbuf;
  [ destruct up as [|[[| |] [?|]] up];
    [ rewrite (fetchIfEmpty_script_end _ _ Hbuf)
    | rewrite (fetchIfEmpty_block _ _ _ _ _ Hbuf) by done
    | rewrite (fetchIfEmpty_no_block _ _ _ _ Hbuf) by done
    | rewrite (fetchIfEmpty_block _ _ _ _ _ Hbuf) by done
    | rewrite (fetchIfEmpty_no_block _ _ _ _ Hbuf) by done
    | rewrite (fetchIfEmpty_waiting _ _ _ _ Hbuf)
    | rewrite (fetchIfEmpty_waiting _ _ _ _ Hbuf) ]
  | rewrite (fetchIfEmpty_nonempty _ st up) by (by rewrite Hbuf) ].

(** After a successful row transition the input to visit has shrunk. *)
Lemma advanceRow_weight (b : AqlItemBlock) (bs : list AqlItemBlock) (st st' : Block)
    (up : Upstream) :
  _buffer (eb st) = b :: bs ->
  advanceRow b st = (Ok tt, st') ->
  inputWeight st' up < inputWeight st up
  /\ _hasMore (vb st') = _hasMore (vb st)
  /\ _inflight (vb st') = _inflight (vb st)
  /\ _done (eb st') = _done (eb st).
Proof.
  intros Hb. unfold advanceRow, inputWeight, bufferWeight. rewrite Hb.
  destruct (nrItems b <=? S (_pos (eb st))) eqn:Hle.
  - intros [= <-]. simpl.
    split; [|done]. destruct bs; simpl; lia.
  - apply Nat.leb_gt in Hle. intros Hr.
    pose proof (reset_frame (with_eb (set_pos (S (_pos (eb st))) (eb st)) st)) as (He & Hi & Hh).
    rewrite Hr in He, Hi, Hh. simpl in *. rewrite He. simpl. rewrite Hb.
    repeat split; try done. lia.
Qed.

Lemma advanceRow_stats (b : AqlItemBlock) (st : Block) :
  scannedIndex (eb (advanceRow b st).2) = scannedIndex (eb st)
  /\ _done (eb (advanceRow b st).2) = _done (eb st)
  /\ _upstreamState (eb (advanceRow b st).2) = _upstreamState (eb st)
  /\ _inflight (vb (advanceRow b st).2) = _inflight (vb st).
Proof.
  unfold advanceRow. destruct (nrItems b <=? S (_pos (eb st))); [done|].
  destruct (reset_frame (with_eb (set_pos (S (_pos (eb st))) (eb st)) st)) as (He & Hi & _).
  by rewrite He, Hi.
Qed.

(* ------------------------------------------------------------------------- *)
(** ** getSome: it returns, and never an empty batch *)
(* ------------------------------------------------------------------------- *)

Lemma getHasMoreState_cases (st : Block) :
  ((getHasMoreState st).1 = HASMORE \/ (getHasMoreState st).1 = DONE)
  /\ vb (getHasMoreState st).2 = vb st
  /\ cur (getHasMoreState st).2 = cur st
  /\ scannedIndex (eb (getHasMoreState st).2) = scannedIndex (eb st)
  /\ _buffer (eb (getHasMoreState st).2) = _buffer (eb st).
Proof.
  unfold getHasMoreState. destruct (_done (eb st)); [by auto|].
  destruct (_ && _); by auto.
Qed.

Lemma getSome_finish_reply (atMost : nat) (ctx : ReadContext) (st : Block) (up : Upstream) :
  0 < atMost -> rc_pos ctx <> 0 -> nrItems (rc_res ctx) = atMost ->
  replyWellFormed atMost (getSome_finish atMost ctx st up).1.1.
Proof.
  intros Ha Hp Hn. unfold getSome_finish.
  match goal with |- context [getHasMoreState ?s] =>
    destruct (getHasMoreState_cases s) as (Hs & _); destruct (getHasMoreState s) as [state st']
  end.
  simpl in *. destruct (rc_pos ctx <? atMost) eqn:Hlt; simpl.
  - apply Nat.ltb_lt in Hlt. split; [lia|split; [lia|done]].
  - split; [lia|split; [lia|done]].
Qed.

Lemma getSome_row_returns (again : Block -> Upstream -> option GetSomeOutcome)
    (k : BlockKind) (atMost : nat) (st : Block) (up : Upstream) :
  0 < atMost -> _buffer (eb st) <> [] ->
  (forall st' up', getSomeMeasure st' up' < getSomeMeasure st up -> is_Some (again st' up')) ->
  is_Some (getSome_row again k atMost st up).
Proof.
  intros Ha Hne Hagain. unfold getSome_row.
  destruct (_buffer (eb st)) as [|b bs] eqn:Hb; [done|].
  destruct (_hasMore (vb st)) eqn:Hm; simpl.
  - pose proof (next_frame k (mkReadContext (nrInputRegisters node) 0
        (inheritRegisters b (requestBlock atMost (nrOutputRegisters node)) (_pos (eb st))))
        atMost st) as [He Hv].
    pose proof (next_more k (mkReadContext (nrInputRegisters node) 0
        (inheritRegisters b (requestBlock atMost (nrOutputRegisters node)) (_pos (eb st))))
        atMost st) as Hmore.
    destruct (next k _ atMost st) as [[more ctx'] st']. simpl in *.
    destruct (rc_pos ctx' =? 0) eqn:Hz; [|by eexists].
    apply Nat.eqb_eq in Hz. apply Hagain.
    unfold getSomeMeasure, inputWeight. simpl. rewrite He, Hm.
    destruct more; [specialize (Hmore eq_refl); lia | lia].
  - destruct (advanceRow b _) as [[u|e] st'] eqn:Hadv; [|by eexists].
    destruct u.
    apply (advanceRow_weight b bs _ _ up) in Hadv as (Hw & Hh & _); [|done].
    apply Hagain. unfold getSomeMeasure in *. rewrite Hh, Hm. simpl.
    unfold inputWeight in *. simpl in *. lia.
Qed.

Lemma fetchedState_weight (s : ExecutionState) (b : AqlItemBlock) (st : Block) (up : Upstream) :
  _buffer (eb st) = [] ->
  inputWeight (fetchedState s b st) up < inputWeight st ((s, Some b) :: up).
Proof.
  intros Hb. unfold inputWeight, bufferWeight. rewrite Hb. simpl.
  unfold replyWeight. simpl. lia.
Qed.

Lemma reset_ready (st st' : Block) :
  reset st = (Ok tt, st') ->
  eb st' = eb st /\ _hasMore (vb st') = _hasMore (vb st)
  /\ _inflight (vb st') = _inflight (vb st).
Proof.
  intros H. pose proof (reset_frame st) as (He & Hi & Hh).
  rewrite H in He, Hi, Hh. done.
Qed.

Lemma getSome_loop_returns (fuel : nat) (k : BlockKind) (atMost : nat) (st : Block)
    (up : Upstream) :
  0 < atMost -> getSomeMeasure st up < fuel ->
  is_Some (getSome_loop fuel k atMost st up).
Proof.
  intros Ha. revert st up. induction fuel as [|fuel IH]; intros st up Hfuel; [lia|].
  cbn [getSome_loop].
  assert (Hready : forall st1 up1, _buffer (eb st1) <> [] ->
            getSomeMeasure st1 up1 <= getSomeMeasure st up ->
            is_Some (getSome_row (getSome_loop fuel k atMost) k atMost st1 up1)).
  { intros st1 up1 Hne Hle. apply getSome_row_returns; [done..|].
    intros st' up' Hlt. apply IH. lia. }
  assert (Hblock : forall s b up1, _buffer (eb st) = [] -> up = (s, Some b) :: up1 ->
            is_Some (match reset (fetchedState s b st) with
                     | (Throw e, st') => Some (Throw e, st', up1)
                     | (Ok _, st') =>
                         getSome_row (getSome_loop fuel k atMost) k atMost st' up1
                     end)).
  { intros s b up1 Hb ->.
    destruct (reset (fetchedState s b st)) as [[[]|e] st'] eqn:Hr; [|by eexists].
    apply reset_ready in Hr as (He & Hh & _).
    apply Hready; [by rewrite He|].
    pose proof (fetchedState_weight s b st up1 Hb) as Hw.
    unfold getSomeMeasure, inputWeight in *. rewrite He, Hh. simpl in *. lia. }
  fetch_cases st up Hbuf; try (by eexists).
  - match goal with |- context [fetchedState ?s ?b st] =>
      specialize (Hblock s b _ eq_refl eq_refl);
      by destruct (reset (fetchedState s b st)) as [[[]|e] st']
    end.
  - match goal with |- context [fetchedState ?s ?b st] =>
      specialize (Hblock s b _ eq_refl eq_refl);
      by destruct (reset (fetchedState s b st)) as [[[]|e] st']
    end.
  - apply Hready; [by rewrite Hbuf | done].
Qed.

Lemma getSome_row_reply (again : Block -> Upstream -> option GetSomeOutcome)
    (k : BlockKind) (atMost : nat) (st : Block) (up : Upstream) (out : GetSomeOutcome) :
  0 < atMost ->
  (forall st' up' out', again st' up' = Some out' -> replyWellFormed atMost out'.1.1) ->
  getSome_row again k atMost st up = Some out ->
  replyWellFormed atMost out.1.1.
Proof.
  intros Ha Hagain. unfold getSome_row.
  destruct (_buffer (eb st)) as [|b bs] eqn:Hb; [done|].
  destruct (_hasMore (vb st)) eqn:Hm; simpl.
  - pose proof (next_nrItems k (mkReadContext (nrInputRegisters node) 0
        (inheritRegisters b (requestBlock atMost (nrOutputRegisters node)) (_pos (eb st))))
        atMost st) as Hn.
    destruct (next k _ atMost st) as [[more ctx'] st']. simpl in *.
    destruct (rc_pos ctx' =? 0) eqn:Hz; [by apply Hagain|].
    apply Nat.eqb_neq in Hz. intros [= <-].
    apply getSome_finish_reply; [done..|].
    rewrite Hn. unfold inheritRegisters. by rewrite copyRegs_nrItems.
  - destruct (advanceRow b _) as [[u|e] st'] eqn:Hadv.
    + by apply Hagain.
    + by intros [= <-].
Qed.

Lemma getSome_loop_reply (fuel : nat) (k : BlockKind) (atMost : nat) (st : Block)
    (up : Upstream) (out : GetSomeOutcome) :
  0 < atMost ->
  getSome_loop fuel k atMost st up = Some out -> replyWellFormed atMost out.1.1.
Proof.
  intros Ha. revert st up out. induction fuel as [|fuel IH]; intros st up out; [done|].
  cbn [getSome_loop].
  fetch_cases st up Hbuf;
    try (intros [= <-]; simpl; by auto);
    try (apply getSome_row_reply; [done|by apply IH]);
    match goal with |- context [reset ?s] => destruct (reset s) as [[[]|e] st'] end;
    try (intros [= <-]; simpl; by auto);
    apply getSome_row_reply; [done|by apply IH | done|by apply IH].
Qed.

(** C1: for [atMost > 0], [getSome] returns, and what it returns is never
    (HASMORE, zero-row batch): with HASMORE the batch has at least one row,
    and a zero-row (null) result comes only with WAITING or DONE. *)
Theorem getSome_never_empty_hasmore (k : BlockKind) (atMost : nat) (st : Block)
    (up : Upstream) :
  0 < atMost ->
  exists r st' up',
    getSome k atMost st up = Some (r, st', up')
    /\ replyWellFormed atMost r
    /\ forall s batch, r = Ok (s, batch) ->
         (s = HASMORE -> 1 <= batchRows batch)
         /\ (batchRows batch = 0 -> s = WAITING \/ s = DONE).
Proof.
  intros Ha.
  assert (exists out, getSome k atMost st up = Some out /\ replyWellFormed atMost out.1.1)
    as ([[r st'] up'] & Hout & Hwf).
  { unfold getSome. destruct (_done (eb st)).
    - eexists; split; [done|]. simpl. by right.
    - destruct (getSome_loop_returns (2 * inputWeight st up + 2) k atMost st up Ha)
        as [out Hout].
      + unfold getSomeMeasure. destruct (_hasMore (vb st)); lia.
      + exists out. split; [done|]. by apply (getSome_loop_reply _ _ _ _ _ _ Ha Hout). }
  exists r, st', up'. split; [done|]. split; [done|].
  intros s batch ->. simpl in Hwf. destruct batch as [b|]; simpl.
  - split; [lia|]. destruct Hwf as (H1 & _ & _). lia.
  - split; [|done]. destruct Hwf as [->| ->]; done.
Qed.

(* ------------------------------------------------------------------------- *)
(** ** skipSome: it returns; fuel beyond the need changes nothing *)
(* ------------------------------------------------------------------------- *)

Lemma skipSome_row_mono (again again' : Block -> Upstream -> option SkipSomeOutcome)
    (atMost : nat) (st : Block) (up : Upstream) (out : SkipSomeOutcome) :
  (forall st' up' o, again st' up' = Some o -> again' st' up' = Some o) ->
  skipSome_row again atMost st up = Some out ->
  skipSome_row again' atMost st up = Some out.
Proof.
  intros Hmono. unfold skipSome_row.
  destruct (_buffer (eb st)) as [|b bs]; [done|].
  destruct (skip _ st) as [n st1]. simpl.
  destruct (_ <? atMost); [|by apply Hmono].
  destruct (advanceRow b _) as [[u|e] st2]; [by apply Hmono|done].
Qed.

Lemma skipSome_loop_mono (f f' : nat) (atMost : nat) (st : Block) (up : Upstream)
    (out : SkipSomeOutcome) :
  f <= f' -> skipSome_loop f atMost st up = Some out ->
  skipSome_loop f' atMost st up = Some out.
Proof.
  revert f' st up out. induction f as [|f IH]; intros f' st up out Hle; [done|].
  destruct f' as [|f']; [lia|]. cbn [skipSome_loop].
  destruct (_ <? atMost); [|done].
  destruct (fetchIfEmpty atMost st up); try done.
  apply skipSome_row_mono. intros st' up' o. apply IH. lia.
Qed.

Lemma skipSome_loop_reached (f : nat) (atMost : nat) (st : Block) (up : Upstream) :
  atMost <= _inflight (vb st) ->
  skipSome_loop (S f) atMost st up
  = Some (Ok ((getHasMoreState (reportInflight st).2).1, _inflight (vb st)),
          (getHasMoreState (reportInflight st).2).2, up).
Proof.
  intros Hle. cbn [skipSome_loop].
  destruct (_ <? atMost) eqn:Hlt; [apply Nat.ltb_lt in Hlt; lia|].
  simpl. by destruct (getHasMoreState _).
Qed.

Lemma skipSome_row_returns (again : Block -> Upstream -> option SkipSomeOutcome)
    (atMost : nat) (st : Block) (up : Upstream) :
  _buffer (eb st) <> [] ->
  (forall st' up', skipSomeNeed atMost st' up' <= inputWeight st up + 1 ->
                   is_Some (again st' up')) ->
  is_Some (skipSome_row again atMost st up).
Proof.
  intros Hne Hagain. unfold skipSome_row.
  destruct (_buffer (eb st)) as [|b bs] eqn:Hb; [done|].
  pose proof (skip_frame (atMost - _inflight (vb st)) st) as [He Hv].
  destruct (skip _ st) as [n st1]. simpl in *.
  destruct (_ <? atMost) eqn:Hlt.
  - destruct (advanceRow b _) as [[[]|e] st2] eqn:Hadv; [|by eexists].
    apply (advanceRow_weight b bs _ _ up) in Hadv as (Hw & _); [|by rewrite <- Hb, <- He].
    apply Hagain. unfold skipSomeNeed. unfold inputWeight in *. simpl in *. rewrite He in Hw.
    destruct (_inflight (vb st2) <? atMost); lia.
  - apply Hagain. unfold skipSomeNeed. simpl. rewrite Hlt. lia.
Qed.

Lemma skipSome_loop_returns (f : nat) (atMost : nat) (st : Block) (up : Upstream) :
  skipSomeNeed atMost st up <= f -> is_Some (skipSome_loop f atMost st up).
Proof.
  revert st up. induction f as [|f IH]; intros st up Hf.
  { unfold skipSomeNeed in Hf. destruct (_ <? atMost); lia. }
  cbn [skipSome_loop]. unfold skipSomeNeed in Hf.
  destruct (_inflight (vb st) <? atMost) eqn:Hlt.
  2:{ destruct (reportInflight st) as [skipped st1].
      destruct (getHasMoreState st1). by eexists. }
  assert (Hready : forall st1 up1, _buffer (eb st1) <> [] ->
            inputWeight st1 up1 <= inputWeight st up ->
            is_Some (skipSome_row (skipSome_loop f atMost) atMost st1 up1)).
  { intros st1 up1 Hne Hle. apply skipSome_row_returns; [done|].
    intros st' up' Hn. apply IH. lia. }
  assert (Hblock : forall s b up1, _buffer (eb st) = [] -> up = (s, Some b) :: up1 ->
            is_Some (match reset (fetchedState s b st) with
                     | (Throw e, st') => Some (Throw e, st', up1)
                     | (Ok _, st') => skipSome_row (skipSome_loop f atMost) atMost st' up1
                     end)).
  { intros s b up1 Hb ->.
    destruct (reset (fetchedState s b st)) as [[[]|e] st'] eqn:Hr; [|by eexists].
    apply reset_ready in Hr as (He & _).
    apply Hready; [by rewrite He|].
    pose proof (fetchedState_weight s b st up1 Hb) as Hw.
    unfold inputWeight in *. rewrite He. simpl in *. lia. }
  fetch_cases st up Hbuf; try (by eexists);
    try (destruct (reportInflight _); by eexists).
  - match goal with |- context [fetchedState ?s ?b st] =>
      specialize (Hblock s b _ eq_refl eq_refl);
      by destruct (reset (fetchedState s b st)) as [[[]|e] st']
    end.
  - match goal with |- context [fetchedState ?s ?b st] =>
      specialize (Hblock s b _ eq_refl eq_refl);
      by destruct (reset (fetchedState s b st)) as [[[]|e] st']
    end.
  - apply Hready; [by rewrite Hbuf | done].
Qed.

Lemma skipSomeNeed_bound (atMost : nat) (st : Block) (up : Upstream) :
  skipSomeNeed atMost st up <= inputWeight st up + 2.
Proof. unfold skipSomeNeed. destruct (_ <? atMost); lia. Qed.

(** With enough fuel the loop of [skipSome] is the call itself. *)
Lemma skipSome_loop_enough (f : nat) (atMost : nat) (st : Block) (up : Upstream) :
  _done (eb st) = false -> skipSomeNeed atMost st up <= f ->
  skipSome_loop f atMost st up = skipSome atMost st up.
Proof.
  intros Hd Hf. unfold skipSome. rewrite Hd.
  destruct (skipSome_loop_returns _ atMost st up (skipSomeNeed_bound atMost st up))
    as [out Hout].
  destruct (skipSome_loop_returns _ atMost st up Hf) as [out' Hout'].
  rewrite Hout.
  destruct (Nat.le_ge_cases f (inputWeight st up + 2)) as [Hle|Hle].
  - pose proof (skipSome_loop_mono _ _ _ _ _ _ Hle Hout'). congruence.
  - pose proof (skipSome_loop_mono _ _ _ _ _ _ Hle Hout). congruence.
Qed.

Lemma skipSome_returns (atMost : nat) (st : Block) (up : Upstream) :
  is_Some (skipSome atMost st up).
Proof.
  unfold skipSome. destruct (_done (eb st)).
  - destruct (reportInflight st). by eexists.
  - apply skipSome_loop_returns, skipSomeNeed_bound.
Qed.

(** What a ready fetch leaves alone. *)
Lemma fetchIfEmpty_ready (atMost : nat) (st st1 : Block) (up up1 : Upstream) :
  fetchIfEmpty atMost st up = FetchReady st1 up1 ->
  _buffer (eb st1) <> []
  /\ inputWeight st1 up1 <= inputWeight st up
  /\ _done (eb st1) = _done (eb st)
  /\ scannedIndex (eb st1) = scannedIndex (eb st)
  /\ _inflight (vb st1) = _inflight (vb st)
  /\ _hasMore (vb st1) = _hasMore (vb st).
Proof.
  assert (Hblock : forall s b up0, _buffer (eb st) = [] ->
            match reset (fetchedState s b st) with
            | (Throw e, st') => FetchThrow e st' up0
            | (Ok _, st') => FetchReady st' up0
            end = FetchReady st1 up1 ->
            _buffer (eb st1) <> []
            /\ inputWeight st1 up1 <= inputWeight st ((s, Some b) :: up0)
            /\ _done (eb st1) = _done (eb st)
            /\ scannedIndex (eb st1) = scannedIndex (eb st)
            /\ _inflight (vb st1) = _inflight (vb st)
            /\ _hasMore (vb st1) = _hasMore (vb st)).
  { intros s b up0 Hb.
    destruct (reset (fetchedState s b st)) as [[[]|e] st'] eqn:Hr; [|done].
    intros [= -> ->]. apply reset_ready in Hr as (He & Hh & Hi).
    pose proof (fetchedState_weight s b st up1 Hb) as Hw.
    unfold inputWeight in *. rewrite He, Hh, Hi. simpl in *.
    repeat split; try done. lia. }
  fetch_cases st up Hbuf; try done; try (by apply Hblock).
  intros [= <- <-]. rewrite Hbuf. by repeat split.
Qed.

(** The three ways a pass of the loop body of [skipSome] can end, none of
    which looks at the upstream script: it raises, or it jumps back with the
    row scanned (the counter has reached [atMost], or the row is used up). *)
Lemma skipSome_row_cases (atMost : nat) (st : Block) :
  _buffer (eb st) <> [] ->
  (exists e st2, forall again up, skipSome_row again atMost st up = Some (Throw e, st2, up))
  \/ (exists st2,
        (forall again up, skipSome_row again atMost st up = again st2 up)
        /\ _done (eb st2) = _done (eb st)
        /\ bufferWeight (eb st2) <= bufferWeight (eb st)
        /\ (atMost <= _inflight (vb st2) \/ bufferWeight (eb st2) < bufferWeight (eb st))
        /\ scannedIndex (eb st2) = scannedIndex (eb st)
        /\ _inflight (vb st) <= _inflight (vb st2)).
Proof.
  intros Hne. unfold skipSome_row.
  destruct (_buffer (eb st)) as [|b bs] eqn:Hb; [done|].
  pose proof (skip_frame (atMost - _inflight (vb st)) st) as [He Hv].
  destruct (skip _ st) as [n st1]. simpl in *.
  destruct (_ <? atMost) eqn:Hlt.
  - match goal with |- context [advanceRow b ?s] =>
      pose proof (advanceRow_stats b s) as (Hst & _ & _ & Hin) end.
    destruct (advanceRow b _) as [[[]|e] st2] eqn:Hadv.
    + right. exists st2. split; [done|].
      apply (advanceRow_weight b bs _ _ []) in Hadv as (Hw & _ & _ & Hd);
        [|by rewrite <- Hb, <- He].
      unfold inputWeight in Hw. simpl in *. rewrite He in Hw, Hd, Hst. rewrite Hv in Hin.
      split; [done|]. split; [lia|]. split; [right; lia|]. split; [done|]. lia.
    + left. by exists e, st2.
  - right. eexists. split; [done|]. simpl. rewrite He, Hv.
    split; [done|]. split; [done|]. split; [|split; [done|lia]]. left.
    apply Nat.ltb_ge in Hlt. by rewrite Hv in Hlt.
Qed.

Lemma skipSomeNeed_after_row (atMost : nat) (st st2 : Block) (up : Upstream) :
  atMost <= _inflight (vb st2) \/ bufferWeight (eb st2) < bufferWeight (eb st) ->
  skipSomeNeed atMost st2 up <= inputWeight st up + 1.
Proof.
  intros H. unfold skipSomeNeed, inputWeight.
  destruct (_inflight (vb st2) <? atMost) eqn:Hlt; [|lia].
  apply Nat.ltb_lt in Hlt. destruct H; lia.
Qed.

(** One unfolding of the loop of [skipSome], as an equation on the call. *)
Lemma skipSome_unfold (atMost : nat) (st : Block) (up : Upstream) :
  _done (eb st) = false ->
  skipSome atMost st up
  = if _inflight (vb st) <? atMost then
      match fetchIfEmpty atMost st up with
      | FetchWaiting s st up => Some (Ok (s, 0), st, up)
      | FetchExhausted st up =>
          let '(skipped, st) := reportInflight st in Some (Ok (DONE, skipped), st, up)
      | FetchThrow e st up => Some (Throw e, st, up)
      | FetchReady st up => skipSome_row (skipSome atMost) atMost st up
      end
    else
      let '(skipped, st) := reportInflight st in
      let '(state, st) := getHasMoreState st in
      Some (Ok (state, skipped), st, up).
Proof.
  intros Hd.
  rewrite <- (skipSome_loop_enough (S (inputWeight st up + 1)) atMost st up Hd)
    by (pose proof (skipSomeNeed_bound atMost st up); lia).
  cbn [skipSome_loop]. destruct (_ <? atMost); [|done].
  destruct (fetchIfEmpty atMost st up) as [| | |st1 up1] eqn:Hf; try done.
  apply fetchIfEmpty_ready in Hf as (Hne & Hw & Hd1 & _).
  destruct (skipSome_row_cases atMost st1 Hne) as [(e & st2 & H)|(st2 & H & Hd2 & _ & Hm & _)].
  - by rewrite !H.
  - rewrite !H. apply skipSome_loop_enough; [congruence|].
    pose proof (skipSomeNeed_after_row atMost st1 st2 up1 Hm). lia.
Qed.

(* ------------------------------------------------------------------------- *)
(** ** skipSome across WAITING suspensions *)
(* ------------------------------------------------------------------------- *)

Lemma dropWaiting_waiting (x : option AqlItemBlock) (up : Upstream) :
  dropWaiting ((WAITING, x) :: up) = dropWaiting up
  /\ numWaiting ((WAITING, x) :: up) = S (numWaiting up).
Proof.
  unfold dropWaiting, numWaiting.
  rewrite filter_cons_False by (simpl; by intros []).
  by rewrite filter_cons_True.
Qed.

Lemma dropWaiting_reply (s : ExecutionState) (x : option AqlItemBlock) (up : Upstream) :
  s <> WAITING ->
  dropWaiting ((s, x) :: up) = (s, x) :: dropWaiting up
  /\ numWaiting ((s, x) :: up) = numWaiting up.
Proof.
  intros Hs. unfold dropWaiting, numWaiting.
  rewrite filter_cons_True by done.
  by rewrite filter_cons_False.
Qed.

(** A WAITING answer of [skipSome] reports zero and leaves the operator not
    done. *)
Lemma skipSome_waiting_zero (atMost : nat) (st st' : Block) (up up' : Upstream) (c : nat) :
  skipSome atMost st up = Some (Ok (WAITING, c), st', up') ->
  c = 0 /\ _done (eb st') = false.
Proof.
  revert st up. 
  assert (Hloop : forall f st up, _done (eb st) = false ->
            skipSome_loop f atMost st up = Some (Ok (WAITING, c), st', up') ->
            c = 0 /\ _done (eb st') = false).
  { induction f as [|f IH]; intros st up Hd; [done|].
    cbn [skipSome_loop]. destruct (_ <? atMost).
    - destruct (fetchIfEmpty atMost st up) as [s st1 up1|st1 up1|e st1 up1|st1 up1] eqn:Hf.
      + revert Hf. fetch_cases st up Hbuf; try done;
          try (by destruct (reset _) as [[[]|?] ?]).
        all: intros [= <- <- <-] [= <- <-]; done.
      + by destruct (reportInflight st1).
      + done.
      + apply fetchIfEmpty_ready in Hf as (Hne & _ & Hd1 & _).
        destruct (skipSome_row_cases atMost st1 Hne) as [(e & st2 & H)|(st2 & H & Hd2 & _)].
        * by rewrite H.
        * rewrite H. apply IH. congruence.
    - destruct (reportInflight st) as [skipped st1].
      destruct (getHasMoreState_cases st1) as ([Hs|Hs] & _);
        destruct (getHasMoreState st1) as [state st2]; simpl in Hs; subst state; done. }
  intros st up. unfold skipSome. destruct (_done (eb st)) eqn:Hd; [|by apply Hloop].
  by destruct (reportInflight st).
Qed.


Lemma skipSome_reached (atMost : nat) (st : Block) (up : Upstream) :
  _done (eb st) = false -> atMost <= _inflight (vb st) ->
  exists s st',
    (s = HASMORE \/ s = DONE) /\ _inflight (vb st') = 0
    /\ (forall up, skipSome atMost st up = Some (Ok (s, _inflight (vb st)), st', up))
    /\ scannedIndex (eb st') = (scannedIndex (eb st) + Z.of_nat (_inflight (vb st)))%Z.
Proof.
  intros Hd Hle.
  exists (getHasMoreState (reportInflight st).2).1, (getHasMoreState (reportInflight st).2).2.
  destruct (getHasMoreState_cases (reportInflight st).2) as (Hs & Hv & _ & Hsc & _).
  split; [done|]. split; [by rewrite Hv|]. split; [|by rewrite Hsc].
  intros up0. rewrite skipSome_unfold by done.
  destruct (_ <? atMost) eqn:Hlt; [apply Nat.ltb_lt in Hlt; lia|].
  simpl. by destruct (getHasMoreState _).
Qed.

Lemma skipSome_retry_return (n atMost : nat) (st st' : Block) (up up' : Upstream)
    (out : Result (ExecutionState * nat)) :
  skipSome atMost st up = Some (out, st', up') ->
  (forall c, out = Ok (WAITING, c) -> False) ->
  skipSome_retry (S n) atMost st up 0 = Some (out, st', up').
Proof.
  intros H Hw. cbn [skipSome_retry]. rewrite H.
  destruct out as [[[] c]|e]; try done. by destruct (Hw c).
Qed.

Lemma skipResumes_return (atMost : nat) (st st' : Block) (up up' : Upstream)
    (out : Result (ExecutionState * nat)) :
  skipSome atMost st up = Some (out, st', up') ->
  skipSome atMost st (dropWaiting up) = Some (out, st', dropWaiting up') ->
  (forall c, out = Ok (WAITING, c) -> False) ->
  skipResumes atMost st up.
Proof.
  intros H Hd Hw. exists out, st', up'. split; [done|].
  by apply skipSome_retry_return.
Qed.

Lemma skipResumes_step (atMost : nat) (st st2 : Block) (up up2 : Upstream) :
  skipSome atMost st up = skipSome atMost st2 up2 ->
  skipSome atMost st (dropWaiting up) = skipSome atMost st2 (dropWaiting up2) ->
  numWaiting up = numWaiting up2 ->
  skipResumes atMost st2 up2 -> skipResumes atMost st up.
Proof.
  intros H Hd Hn (out & st' & up' & H1 & H2). exists out, st', up'.
  rewrite Hd, Hn. split; [done|]. cbn [skipSome_retry] in *. by rewrite H.
Qed.

Lemma skipResumes_reached (atMost : nat) (st : Block) (up : Upstream) :
  _done (eb st) = false -> atMost <= _inflight (vb st) -> skipResumes atMost st up.
Proof.
  intros Hd Hle. destruct (skipSome_reached atMost st up Hd Hle) as (s & st' & Hs & _ & H & _).
  apply (skipResumes_return atMost st st' up up _ (H up) (H (dropWaiting up))).
  intros c [= -> _]. by destruct Hs.
Qed.

Lemma skipResumes_waiting (atMost : nat) (st : Block) (x : option AqlItemBlock)
    (up : Upstream) :
  _done (eb st) = false -> _inflight (vb st) < atMost -> _buffer (eb st) = [] ->
  skipResumes atMost st up -> skipResumes atMost st ((WAITING, x) :: up).
Proof.
  intros Hd Hlt Hbuf (out & st' & up' & H1 & H2). unfold skipResumes.
  destruct (dropWaiting_waiting x up) as [-> ->].
  exists out, st', up'. split; [done|].
  change (skipSome_retry (S (S (numWaiting up))) atMost st ((WAITING, x) :: up) 0)
    with (match skipSome atMost st ((WAITING, x) :: up) with
          | None => None
          | Some (Ok (WAITING, c), st', up') =>
              skipSome_retry (S (numWaiting up)) atMost st' up' (0 + c)
          | Some (Ok (s, c), st', up') => Some (Ok (s, 0 + c), st', up')
          | Some (Throw e, st', up') => Some (Throw e, st', up')
          end).
  rewrite (skipSome_unfold atMost st _ Hd).
  apply Nat.ltb_lt in Hlt. rewrite Hlt.
  by rewrite (fetchIfEmpty_waiting _ _ _ _ Hbuf).
Qed.

(** The retried calls of [skipSome] resume the scan where the WAITING answer
    left it. *)
Lemma skipSome_resumes (atMost : nat) (m : nat) (st : Block) (up : Upstream) :
  inputWeight st up < m -> _done (eb st) = false -> skipResumes atMost st up.
Proof.
  revert st up. induction m as [|m IH]; intros st up Hm Hd; [lia|].
  destruct (Nat.le_gt_cases atMost (_inflight (vb st))) as [Hle|Hlt];
    [by apply skipResumes_reached|].
  assert (Hrow : forall st1 up1,
            _buffer (eb st1) <> [] -> _done (eb st1) = false ->
            inputWeight st1 up1 <= inputWeight st up ->
            skipSome atMost st up = skipSome_row (skipSome atMost) atMost st1 up1 ->
            skipSome atMost st (dropWaiting up)
            = skipSome_row (skipSome atMost) atMost st1 (dropWaiting up1) ->
            numWaiting up = numWaiting up1 ->
            skipResumes atMost st up).
  { intros st1 up1 Hne Hd1 Hw1 H1 H2 Hn.
    destruct (skipSome_row_cases atMost st1 Hne)
      as [(e & st2 & H)|(st2 & H & Hd2 & Hw2 & Hcase & _)]; rewrite H in H1, H2.
    - by apply (skipResumes_return atMost st st2 up up1 _ H1 H2).
    - apply (skipResumes_step atMost st st2 up up1 H1 H2 Hn).
      destruct Hcase as [Hreach|Hless].
      + apply skipResumes_reached; congruence.
      + apply IH; [unfold inputWeight in *; lia | congruence]. }
  pose proof (skipSome_unfold atMost st up Hd) as E1.
  pose proof (skipSome_unfold atMost st (dropWaiting up) Hd) as E2.
  pose proof Hlt as Hltb. apply Nat.ltb_lt in Hltb. rewrite Hltb in E1, E2.
  destruct (_buffer (eb st)) as [|b0 bs] eqn:Hbuf.
  - destruct up as [|[s [b|]] up1].
    + change (dropWaiting []) with (@nil UpstreamReply) in *.
      rewrite (fetchIfEmpty_script_end _ _ Hbuf) in E1.
      destruct (reportInflight _) as [skipped st1].
      by apply (skipResumes_return atMost st st1 [] [] _ E1 E1).
    + destruct (decide (s = WAITING)) as [->|Hs].
      { apply skipResumes_waiting; [done..|].
        apply IH; [|done]. unfold inputWeight in *. simpl in *. unfold replyWeight in *.
        simpl in *. lia. }
      destruct (dropWaiting_reply s (Some b) up1 Hs) as [Hdw Hnw]. rewrite Hdw in E2.
      rewrite (fetchIfEmpty_block _ _ _ _ _ Hbuf Hs) in E1.
      rewrite (fetchIfEmpty_block _ _ _ _ _ Hbuf Hs) in E2.
      destruct (reset (fetchedState s b st)) as [[[]|e] st1] eqn:Hr.
      * apply reset_ready in Hr as (He & _).
        apply (Hrow st1 up1); try done.
        -- by rewrite He.
        -- by rewrite He.
        -- pose proof (fetchedState_weight s b st up1 Hbuf).
           unfold inputWeight in *. rewrite He. lia.
        -- by rewrite Hdw.
      * apply (skipResumes_return atMost st st1 _ up1 _ E1); [by rewrite Hdw|done].
    + destruct (decide (s = WAITING)) as [->|Hs].
      { apply skipResumes_waiting; [done..|].
        apply IH; [|done]. unfold inputWeight in *. simpl in *. unfold replyWeight in *.
        simpl in *. lia. }
      destruct (dropWaiting_reply s None up1 Hs) as [Hdw Hnw]. rewrite Hdw in E2.
      rewrite (fetchIfEmpty_no_block _ _ _ _ Hbuf Hs) in E1.
      rewrite (fetchIfEmpty_no_block _ _ _ _ Hbuf Hs) in E2.
      destruct (reportInflight _) as [skipped st1].
      apply (skipResumes_return atMost st st1 _ up1 _ E1); [by rewrite Hdw|done].
  - assert (Hne : _buffer (eb st) <> []) by (by rewrite Hbuf).
    rewrite (fetchIfEmpty_nonempty _ _ _ Hne) in E1.
    rewrite (fetchIfEmpty_nonempty _ _ _ Hne) in E2.
    by apply (Hrow st up).
Qed.

Lemma skipSomeReplyOk_later (atMost : nat) (st st2 : Block) (out : SkipSomeOutcome) :
  scannedIndex (eb st2) = scannedIndex (eb st) ->
  _inflight (vb st) <= _inflight (vb st2) ->
  skipSomeReplyOk atMost st2 out -> skipSomeReplyOk atMost st out.
Proof.
  intros Hs Hi. destruct out as [[[[[] n]|e] st'] up']; simpl; try rewrite Hs; try done.
  all: intros (? & ? & ? & ?); repeat split; try done; lia.
Qed.

Lemma skipSome_reply_loop (atMost : nat) (m : nat) (st : Block) (up : Upstream)
    (out : SkipSomeOutcome) :
  inputWeight st up < m -> _done (eb st) = false ->
  skipSome atMost st up = Some out -> skipSomeReplyOk atMost st out.
Proof.
  revert st up. induction m as [|m IH]; intros st up Hm Hd; [lia|].
  destruct (Nat.le_gt_cases atMost (_inflight (vb st))) as [Hle|Hlt].
  { destruct (skipSome_reached atMost st up Hd Hle) as (s & st' & Hs & Hz & H & Hsc).
    rewrite H. intros [= <-]. destruct Hs as [-> | ->]; simpl; repeat split; try done.
    all: by left. }
  rewrite (skipSome_unfold atMost st up Hd).
  pose proof Hlt as Hltb. apply Nat.ltb_lt in Hltb. rewrite Hltb.
  destruct (fetchIfEmpty atMost st up) as [s st1 up1|st1 up1|e st1 up1|st1 up1] eqn:Hf.
  - revert Hf. fetch_cases st up Hbuf; try done;
      try (by destruct (reset _) as [[[]|?] ?]).
    all: intros [= <- <- <-] [= <-]; simpl; by repeat split.
  - revert Hf. fetch_cases st up Hbuf; try done;
      try (by destruct (reset _) as [[[]|?] ?]).
    all: intros [= <- <-] [= <-]; simpl; repeat split; try done; try (by right); lia.
  - by intros [= <-].
  - apply fetchIfEmpty_ready in Hf as (Hne & Hw & Hd1 & Hsc1 & Hi1 & _).
    destruct (skipSome_row_cases atMost st1 Hne)
      as [(e & st2 & H)|(st2 & H & Hd2 & Hw2 & Hcase & Hsc2 & Hi2)]; rewrite H.
    + by intros [= <-].
    + intros Hout. apply (skipSomeReplyOk_later atMost st st2); [congruence|lia|].
      destruct Hcase as [Hreach|Hless].
      * destruct (skipSome_reached atMost st2 up1) as (s & st' & Hs & Hz & H' & Hsc);
          [congruence|done|].
        rewrite H' in Hout. injection Hout as <-.
        destruct Hs as [-> | ->]; simpl; repeat split; try done. all: by left.
      * apply (IH st2 up1); [unfold inputWeight in *; lia|congruence|done].
Qed.

Lemma skipSome_reply (atMost : nat) (st : Block) (up : Upstream) (out : SkipSomeOutcome) :
  skipSome atMost st up = Some out -> skipSomeReplyOk atMost st out.
Proof.
  destruct (_done (eb st)) eqn:Hd.
  - unfold skipSome. rewrite Hd. simpl. intros [= <-]. simpl.
    repeat split; try done. by right.
  - by apply (skipSome_reply_loop atMost (S (inputWeight st up))); [lia|].
Qed.



(* ------------------------------------------------------------------------- *)
(** ** getSome across WAITING suspensions *)
(* ------------------------------------------------------------------------- *)

(** The ways a pass of the loop bodies of [getSome] can end, none of which
    looks at the upstream script: it raises, it jumps back with less left to
    do, or it returns a batch. *)
Lemma getSome_row_cases (k : BlockKind) (atMost : nat) (st : Block) :
  0 < atMost -> _buffer (eb st) <> [] ->
  (exists e st2, forall again up, getSome_row again k atMost st up = Some (Throw e, st2, up))
  \/ (exists st2,
        (forall again up, getSome_row again k atMost st up = again st2 up)
        /\ _done (eb st2) = _done (eb st)
        /\ bufferMeasure st2 < bufferMeasure st
        /\ scannedIndex (eb st2) = scannedIndex (eb st)
        /\ _inflight (vb st2) = _inflight (vb st))
  \/ (exists s b st2,
        (forall again up, getSome_row again k atMost st up = Some (Ok (s, Some b), st2, up))
        /\ (s = HASMORE \/ s = DONE)).
Proof.
  intros Ha Hne. unfold getSome_row.
  destruct (_buffer (eb st)) as [|b bs] eqn:Hb; [done|].
  destruct (_hasMore (vb st)) eqn:Hm; simpl.
  - pose proof (next_frame k (mkReadContext (nrInputRegisters node) 0
        (inheritRegisters b (requestBlock atMost (nrOutputRegisters node)) (_pos (eb st))))
        atMost st) as [He Hv].
    pose proof (next_more k (mkReadContext (nrInputRegisters node) 0
        (inheritRegisters b (requestBlock atMost (nrOutputRegisters node)) (_pos (eb st))))
        atMost st) as Hmore.
    destruct (next k _ atMost st) as [[more ctx'] st']. simpl in *.
    destruct (rc_pos ctx' =? 0) eqn:Hz.
    + right; left. eexists. split; [done|]. simpl. rewrite He, Hv.
      apply Nat.eqb_eq in Hz. unfold bufferMeasure. simpl. rewrite He, Hm.
      repeat split; try done.
      destruct more; [specialize (Hmore eq_refl); lia | lia].
    + right; right. unfold getSome_finish.
      match goal with |- context [getHasMoreState ?s0] =>
        destruct (getHasMoreState_cases s0) as (Hs & _);
        destruct (getHasMoreState s0) as [state st2] end.
      by eexists _, _, _.
  - match goal with |- context [advanceRow b ?s] =>
      pose proof (advanceRow_stats b s) as (Hst & _ & _ & Hin) end.
    destruct (advanceRow b _) as [[[]|e] st2] eqn:Hadv.
    + right; left. exists st2. split; [done|].
      apply (advanceRow_weight b bs _ _ []) in Hadv as (Hw & Hh & _ & Hd); [|done].
      unfold bufferMeasure, inputWeight in *. simpl in *. rewrite Hh, Hm.
      repeat split; try done. lia.
    + left. by exists e, st2.
Qed.

Lemma getSome_row_mono (again again' : Block -> Upstream -> option GetSomeOutcome)
    (k : BlockKind) (atMost : nat) (st : Block) (up : Upstream) (out : GetSomeOutcome) :
  (forall st' up' o, again st' up' = Some o -> again' st' up' = Some o) ->
  getSome_row again k atMost st up = Some out ->
  getSome_row again' k atMost st up = Some out.
Proof.
  intros Hmono. unfold getSome_row.
  destruct (_buffer (eb st)) as [|b bs]; [done|].
  destruct (negb _).
  - destruct (advanceRow b _) as [[u|e] st2]; [by apply Hmono|done].
  - destruct (next k _ atMost st) as [[more ctx'] st'].
    destruct (_ =? 0); [by apply Hmono|done].
Qed.

Lemma getSome_loop_mono (f f' : nat) (k : BlockKind) (atMost : nat) (st : Block)
    (up : Upstream) (out : GetSomeOutcome) :
  f <= f' -> getSome_loop f k atMost st up = Some out ->
  getSome_loop f' k atMost st up = Some out.
Proof.
  revert f' st up out. induction f as [|f IH]; intros f' st up out Hle; [done|].
  destruct f' as [|f']; [lia|]. cbn [getSome_loop].
  destruct (fetchIfEmpty atMost st up); try done.
  apply getSome_row_mono. intros st' up' o. apply IH. lia.
Qed.

(** With enough fuel the loops of [getSome] are the call itself. *)
Lemma getSome_loop_enough (f : nat) (k : BlockKind) (atMost : nat) (st : Block)
    (up : Upstream) :
  0 < atMost -> _done (eb st) = false -> getSomeMeasure st up < f ->
  getSome_loop f k atMost st up = getSome k atMost st up.
Proof.
  intros Ha Hd Hf. unfold getSome. rewrite Hd.
  assert (Hc : getSomeMeasure st up < 2 * inputWeight st up + 2).
  { unfold getSomeMeasure. destruct (_hasMore (vb st)); lia. }
  destruct (getSome_loop_returns _ k atMost st up Ha Hc) as [out Hout].
  destruct (getSome_loop_returns _ k atMost st up Ha Hf) as [out' Hout'].
  rewrite Hout.
  destruct (Nat.le_ge_cases f (2 * inputWeight st up + 2)) as [Hle|Hle].
  - pose proof (getSome_loop_mono _ _ _ _ _ _ _ Hle Hout'). congruence.
  - pose proof (getSome_loop_mono _ _ _ _ _ _ _ Hle Hout). congruence.
Qed.

Lemma getSomeMeasure_split (st : Block) (up : Upstream) :
  getSomeMeasure st up = bufferMeasure st + 2 * sum_list (map replyWeight up).
Proof. unfold getSomeMeasure, bufferMeasure, inputWeight. lia. Qed.

(** One unfolding of the loops of [getSome], as an equation on the call. *)
Lemma getSome_unfold (k : BlockKind) (atMost : nat) (st : Block) (up : Upstream) :
  0 < atMost -> _done (eb st) = false ->
  getSome k atMost st up
  = match fetchIfEmpty atMost st up with
    | FetchWaiting s st up => Some (Ok (s, None), st, up)
    | FetchExhausted st up => Some (Ok (DONE, None), st, up)
    | FetchThrow e st up => Some (Throw e, st, up)
    | FetchReady st up => getSome_row (getSome k atMost) k atMost st up
    end.
Proof.
  intros Ha Hd.
  rewrite <- (getSome_loop_enough (S (getSomeMeasure st up)) k atMost st up Ha Hd) by lia.
  cbn [getSome_loop].
  destruct (fetchIfEmpty atMost st up) as [| | |st1 up1] eqn:Hf; try done.
  apply fetchIfEmpty_ready in Hf as (Hne & Hw & Hd1 & _ & _ & Hh).
  destruct (getSome_row_cases k atMost st1 Ha Hne)
    as [(e & st2 & H)|[(st2 & H & Hd2 & Hm & _)|(s & b & st2 & H & _)]].
  - by rewrite !H.
  - rewrite !H. apply getSome_loop_enough; [done|congruence|].
    rewrite getSomeMeasure_split in *. unfold bufferMeasure in *.
    unfold getSomeMeasure, inputWeight in *. rewrite Hh in *. lia.
  - by rewrite !H.
Qed.


Lemma getSome_retry_return (n : nat) (k : BlockKind) (atMost : nat) (st st' : Block)
    (up up' : Upstream) (out : Result (ExecutionState * option AqlItemBlock)) :
  getSome k atMost st up = Some (out, st', up') ->
  (forall b, out = Ok (WAITING, b) -> False) ->
  getSome_retry (S n) k atMost st up = Some (out, st', up').
Proof.
  intros H Hw. cbn [getSome_retry]. rewrite H.
  destruct out as [[[] b]|e]; try done. by destruct (Hw b).
Qed.

Lemma getResumes_return (k : BlockKind) (atMost : nat) (st st' : Block) (up up' : Upstream)
    (out : Result (ExecutionState * option AqlItemBlock)) :
  getSome k atMost st up = Some (out, st', up') ->
  getSome k atMost st (dropWaiting up) = Some (out, st', dropWaiting up') ->
  (forall b, out = Ok (WAITING, b) -> False) ->
  getResumes k atMost st up.
Proof.
  intros H Hd Hw. exists out, st', up'. split; [done|].
  by apply getSome_retry_return.
Qed.

Lemma getResumes_step (k : BlockKind) (atMost : nat) (st st2 : Block) (up up2 : Upstream) :
  getSome k atMost st up = getSome k atMost st2 up2 ->
  getSome k atMost st (dropWaiting up) = getSome k atMost st2 (dropWaiting up2) ->
  numWaiting up = numWaiting up2 ->
  getResumes k atMost st2 up2 -> getResumes k atMost st up.
Proof.
  intros H Hd Hn (out & st' & up' & H1 & H2). exists out, st', up'.
  rewrite Hd, Hn. split; [done|]. cbn [getSome_retry] in *. by rewrite H.
Qed.

Lemma getResumes_waiting (k : BlockKind) (atMost : nat) (st : Block)
    (x : option AqlItemBlock) (up : Upstream) :
  0 < atMost -> _done (eb st) = false -> _buffer (eb st) = [] ->
  getResumes k atMost st up -> getResumes k atMost st ((WAITING, x) :: up).
Proof.
  intros Ha Hd Hbuf (out & st' & up' & H1 & H2). unfold getResumes.
  destruct (dropWaiting_waiting x up) as [-> ->].
  exists out, st', up'. split; [done|].
  change (getSome_retry (S (S (numWaiting up))) k atMost st ((WAITING, x) :: up))
    with (match getSome k atMost st ((WAITING, x) :: up) with
          | Some (Ok (WAITING, _), st', up') =>
              getSome_retry (S (numWaiting up)) k atMost st' up'
          | other => other
          end).
  rewrite (getSome_unfold k atMost st _ Ha Hd).
  by rewrite (fetchIfEmpty_waiting _ _ _ _ Hbuf).
Qed.

(** The retried calls of [getSome] resume the scan where the WAITING answer
    left it. *)
Lemma getSome_resumes (k : BlockKind) (atMost : nat) (m : nat) (st : Block) (up : Upstream) :
  0 < atMost -> getSomeMeasure st up < m -> _done (eb st) = false ->
  getResumes k atMost st up.
Proof.
  intros Ha. revert st up. induction m as [|m IH]; intros st up Hm Hd; [lia|].
  assert (Hrow : forall st1 up1,
            _buffer (eb st1) <> [] -> _done (eb st1) = false ->
            getSomeMeasure st1 up1 <= getSomeMeasure st up ->
            getSome k atMost st up = getSome_row (getSome k atMost) k atMost st1 up1 ->
            getSome k atMost st (dropWaiting up)
            = getSome_row (getSome k atMost) k atMost st1 (dropWaiting up1) ->
            numWaiting up = numWaiting up1 ->
            getResumes k atMost st up).
  { intros st1 up1 Hne Hd1 Hw1 H1 H2 Hn.
    destruct (getSome_row_cases k atMost st1 Ha Hne)
      as [(e & st2 & H)|[(st2 & H & Hd2 & Hlt & _)|(s & b & st2 & H & Hs)]];
      rewrite H in H1, H2.
    - by apply (getResumes_return k atMost st st2 up up1 _ H1 H2).
    - apply (getResumes_step k atMost st st2 up up1 H1 H2 Hn).
      apply IH; [|congruence]. rewrite ?getSomeMeasure_split in *. lia.
    - apply (getResumes_return k atMost st st2 up up1 _ H1 H2).
      intros b0 [= -> _]. by destruct Hs. }
  pose proof (getSome_unfold k atMost st up Ha Hd) as E1.
  pose proof (getSome_unfold k atMost st (dropWaiting up) Ha Hd) as E2.
  destruct (_buffer (eb st)) as [|b0 bs] eqn:Hbuf.
  - destruct up as [|[s [b|]] up1].
    + change (dropWaiting []) with (@nil UpstreamReply) in *.
      rewrite (fetchIfEmpty_script_end _ _ Hbuf) in E1.
      by apply (getResumes_return k atMost st _ [] [] _ E1 E1).
    + destruct (decide (s = WAITING)) as [->|Hs].
      { apply getResumes_waiting; [done..|].
        apply IH; [|done]. rewrite ?getSomeMeasure_split in *. simpl in *.
        unfold replyWeight in *. simpl in *. lia. }
      destruct (dropWaiting_reply s (Some b) up1 Hs) as [Hdw Hnw]. rewrite Hdw in E2.
      rewrite (fetchIfEmpty_block _ _ _ _ _ Hbuf Hs) in E1.
      rewrite (fetchIfEmpty_block _ _ _ _ _ Hbuf Hs) in E2.
      destruct (reset (fetchedState s b st)) as [[[]|e] st1] eqn:Hr.
      * apply reset_ready in Hr as (He & Hh & _).
        apply (Hrow st1 up1); try done.
        -- by rewrite He.
        -- by rewrite He.
        -- pose proof (fetchedState_weight s b st up1 Hbuf).
           unfold getSomeMeasure, inputWeight in *. rewrite He, Hh. simpl in *. lia.
        -- by rewrite Hdw.
      * apply (getResumes_return k atMost st st1 _ up1 _ E1); [by rewrite Hdw|done].
    + destruct (decide (s = WAITING)) as [->|Hs].
      { apply getResumes_waiting; [done..|].
        apply IH; [|done]. rewrite ?getSomeMeasure_split in *. simpl in *.
        unfold replyWeight in *. simpl in *. lia. }
      destruct (dropWaiting_reply s None up1 Hs) as [Hdw Hnw]. rewrite Hdw in E2.
      rewrite (fetchIfEmpty_no_block _ _ _ _ Hbuf Hs) in E1.
      rewrite (fetchIfEmpty_no_block _ _ _ _ Hbuf Hs) in E2.
      apply (getResumes_return k atMost st _ _ up1 _ E1); [by rewrite Hdw|done].
  - assert (Hne : _buffer (eb st) <> []) by (by rewrite Hbuf).
    rewrite (fetchIfEmpty_nonempty _ _ _ Hne) in E1.
    rewrite (fetchIfEmpty_nonempty _ _ _ Hne) in E2.
    by apply (Hrow st up).
Qed.


(** A WAITING answer of [getSome]: no batch, the input buffer is empty, and
    the done flag, the statistic and the in-flight counter are as on entry. *)
Lemma getSome_waiting_loop (k : BlockKind) (atMost : nat) (m : nat) (st st' : Block)
    (up up' : Upstream) (batch : option AqlItemBlock) :
  0 < atMost -> getSomeMeasure st up < m -> _done (eb st) = false ->
  getSome k atMost st up = Some (Ok (WAITING, batch), st', up') ->
  batch = None /\ _buffer (eb st') = [] /\ _done (eb st') = false
  /\ scannedIndex (eb st') = scannedIndex (eb st)
  /\ _inflight (vb st') = _inflight (vb st).
Proof.
  intros Ha. revert st up. induction m as [|m IH]; intros st up Hm Hd; [lia|].
  rewrite (getSome_unfold k atMost st up Ha Hd).
  destruct (fetchIfEmpty atMost st up) as [s st1 up1|st1 up1|e st1 up1|st1 up1] eqn:Hf.
  - revert Hf. fetch_cases st up Hbuf; try done;
      try (by destruct (reset _) as [[[]|?] ?]).
    all: by intros [= <- <- <-] [= <- <- <-].
  - done.
  - done.
  - apply fetchIfEmpty_ready in Hf as (Hne & Hw & Hd1 & Hsc1 & Hi1 & Hh1).
    destruct (getSome_row_cases k atMost st1 Ha Hne)
      as [(e & st2 & H)|[(st2 & H & Hd2 & Hlt & Hsc2 & Hi2)|(s & b & st2 & H & Hs)]];
      rewrite H.
    + done.
    + intros Hout. apply (IH st2 up1) in Hout as (? & ? & ? & ? & ?).
      * repeat split; try done; congruence.
      * unfold getSomeMeasure, bufferMeasure, inputWeight in *. rewrite Hh1 in *. lia.
      * congruence.
    + intros [= -> _]. by destruct Hs.
Qed.

Lemma getSome_waiting_frame (k : BlockKind) (atMost : nat) (st st' : Block)
    (up up' : Upstream) (batch : option AqlItemBlock) :
  0 < atMost ->
  getSome k atMost st up = Some (Ok (WAITING, batch), st', up') ->
  batch = None /\ _buffer (eb st') = [] /\ _done (eb st') = _done (eb st)
  /\ scannedIndex (eb st') = scannedIndex (eb st)
  /\ _inflight (vb st') = _inflight (vb st).
Proof.
  intros Ha. destruct (_done (eb st)) eqn:Hd.
  - unfold getSome. by rewrite Hd.
  - intros H.
    by apply (getSome_waiting_loop k atMost (S (getSomeMeasure st up))) in H; [|lia..|done].
Qed.

Lemma skipSome_waiting_frame (atMost : nat) (st st' : Block) (up up' : Upstream) (n : nat) :
  skipSome atMost st up = Some (Ok (WAITING, n), st', up') ->
  n = 0 /\ _buffer (eb st') = [] /\ _done (eb st') = _done (eb st)
  /\ scannedIndex (eb st') = scannedIndex (eb st)
  /\ _inflight (vb st) <= _inflight (vb st').
Proof.
  intros H. pose proof (skipSome_reply _ _ _ _ H) as (? & ? & ? & ? & ?).
  repeat split; try done.
  destruct (_done (eb st)) eqn:Hd; [|done].
  unfold skipSome in H. by rewrite Hd in H.
Qed.

(** C8 (amended): a WAITING answer of [getSome] or [skipSome] reports nothing
    and leaves the done flag and the statistic as on entry, with the input
    buffer empty; when WAITING answers the first upstream fetch of the call
    the operator state is unchanged. What the call did before waiting (rows
    consumed, cursor and predicate rebuilt, the in-flight skip counter) is
    kept, and retrying with the same arguments ends like the call that never
    had to wait. *)
Theorem waiting_keeps_progress (k : BlockKind) (atMost : nat) (st : Block) (up : Upstream) :
  0 < atMost ->
  (forall batch st' up',
      getSome k atMost st up = Some (Ok (WAITING, batch), st', up') ->
      batch = None /\ _buffer (eb st') = [] /\ _done (eb st') = _done (eb st)
      /\ scannedIndex (eb st') = scannedIndex (eb st)
      /\ _inflight (vb st') = _inflight (vb st))
  /\ (forall n st' up',
        skipSome atMost st up = Some (Ok (WAITING, n), st', up') ->
        n = 0 /\ _buffer (eb st') = [] /\ _done (eb st') = _done (eb st)
        /\ scannedIndex (eb st') = scannedIndex (eb st)
        /\ _inflight (vb st) <= _inflight (vb st'))
  /\ (forall x up1,
        up = (WAITING, x) :: up1 -> _done (eb st) = false -> _buffer (eb st) = [] ->
        getSome k atMost st up = Some (Ok (WAITING, None), st, up1)
        /\ (_inflight (vb st) < atMost ->
            skipSome atMost st up = Some (Ok (WAITING, 0), st, up1)))
  /\ getResumes k atMost st up
  /\ skipResumes atMost st up.
Proof.
  intros Ha. split; [|split; [|split; [|split]]].
  - intros batch st' up'. by apply getSome_waiting_frame.
  - intros n st' up'. by apply skipSome_waiting_frame.
  - intros x up1 -> Hd Hbuf. split.
    + rewrite (getSome_unfold k atMost st _ Ha Hd).
      by rewrite (fetchIfEmpty_waiting _ _ _ _ Hbuf).
    + intros Hlt. rewrite (skipSome_unfold atMost st _ Hd).
      apply Nat.ltb_lt in Hlt. rewrite Hlt.
      by rewrite (fetchIfEmpty_waiting _ _ _ _ Hbuf).
  - destruct (_done (eb st)) eqn:Hd.
    + assert (Hcall : forall up0, getSome k atMost st up0 = Some (Ok (DONE, None), st, up0)).
      { intros up0. unfold getSome. by rewrite Hd. }
      by apply (getResumes_return k atMost st _ up up _ (Hcall up) (Hcall (dropWaiting up))).
    + by apply (getSome_resumes k atMost (S (getSomeMeasure st up))); [|lia|].
  - destruct (_done (eb st)) eqn:Hd.
    + assert (Hcall : forall up0, skipSome atMost st up0
                = Some (Ok (DONE, _inflight (vb st)), (reportInflight st).2, up0)).
      { intros up0. unfold skipSome. by rewrite Hd. }
      by apply (skipResumes_return atMost st _ up up _ (Hcall up) (Hcall (dropWaiting up))).
    + by apply (skipSome_resumes atMost (S (inputWeight st up))); [lia|].
Qed.


(* ------------------------------------------------------------------------- *)
(** ** Scan strategies: what is left on the cursor *)
(* ------------------------------------------------------------------------- *)

Ltac pair_eq :=
  repeat match goal with |- (_, _) = (_, _) => f_equal end; try done; try lia.

Lemma skipScan_count (limit : nat) (it : list (doc_id_t * bytes_ref)) (skipped : nat) :
  skipScan limit it skipped
  = (limit - length it, drop limit it, skipped + Nat.min limit (length it)).
Proof.
  revert it skipped. induction limit as [|limit IH]; intros it skipped.
  - simpl. rewrite drop_0. pair_eq.
  - destruct it as [|x it]; simpl.
    + pair_eq.
    + rewrite IH. pair_eq.
Qed.

Lemma skipSegments_S (v : ViewBase) (n limit skipped : nat) (c : Cursor) :
  skipSegments v (S n) limit skipped c
  = let '(limit', it', skipped') := skipScan limit (liveIterator v c) skipped in
    if limit' =? 0 then (skipped', mkCursor (Some it') (_readerOffset c) (_keys c))
    else skipSegments v n limit' skipped' (mkCursor None (S (_readerOffset c)) (_keys c)).
Proof. reflexivity. Qed.

(** [skip] counts the matches it passes over, joined or not. *)
Lemma skipSegments_count (v : ViewBase) (n limit skipped : nat) (c : Cursor) :
  n = reader_size - _readerOffset c ->
  let r := skipSegments v n limit skipped c in
  r.1 = skipped + Nat.min limit (remainingIn v c n)
  /\ remainingIn v r.2 (reader_size - _readerOffset r.2)
     = remainingIn v c n - Nat.min limit (remainingIn v c n).
Proof.
  revert limit skipped c. induction n as [|n IH]; intros limit skipped c Hn.
  - simpl. rewrite <- Hn. simpl. split; lia.
  - cbv zeta. rewrite skipSegments_S, skipScan_count.
    destruct (limit - length (liveIterator v c) =? 0) eqn:Hz.
    + apply Nat.eqb_eq in Hz. cbn [fst snd _readerOffset]. rewrite <- Hn.
      cbn [remainingIn liveIterator _itr _readerOffset]. rewrite length_drop. split; lia.
    + apply Nat.eqb_neq in Hz.
      destruct (IH (limit - length (liveIterator v c))
                   (skipped + Nat.min limit (length (liveIterator v c)))
                   (mkCursor None (S (_readerOffset c)) (_keys c))) as [H1 H2].
      { simpl. lia. }
      cbv zeta in H1, H2. rewrite H1, H2. clear H1 H2.
      assert (Hr : remainingIn v (mkCursor None (S (_readerOffset c)) (_keys c)) n
                   = matchesFrom v (S (_readerOffset c)) n).
      { destruct n; [done|]. by cbn [remainingIn liveIterator _itr _readerOffset matchesFrom]. }
      rewrite Hr. cbn [remainingIn]. split; lia.
Qed.

Lemma skip_count (limit : nat) (st : Block) :
  (skip limit st).1 = Nat.min limit (remaining st)
  /\ remaining (skip limit st).2 = remaining st - Nat.min limit (remaining st).
Proof.
  unfold skip, remaining.
  pose proof (skipSegments_count (vb st) (reader_size - _readerOffset (cur st)) limit 0
                (cur st) eq_refl) as H.
  cbv zeta in H. destruct (skipSegments _ _ _ _ _) as [skipped c']. simpl in *.
  destruct H as [H1 H2]. split; [lia|done].
Qed.


Lemma segmentIterator_joinable (v : ViewBase) (seg : nat) :
  allJoinable -> Forall (joinableAt seg) (segmentIterator v seg).
Proof.
  intros Hall. apply Forall_forall. intros [docId scrVal] Hin.
  unfold segmentIterator, prepared_execute in Hin.
  destruct (_filter v) as [|root po]; [by apply elem_of_nil in Hin|].
  by apply (Hall _ _ _ _ _ _ _ Hin).
Qed.

(** The inner loop of the scored strategy: the limit it used up is covered
    by the matches it visited, exactly so when every visited match joins; it
    stops short of the limit only at the end of the iterator. *)
Lemma scoredScan_left (v : ViewBase) (seg limit : nat) (it : list (doc_id_t * bytes_ref))
    (ctx : ReadContext) :
  let r := scoredScan v seg limit it ctx in
  r.1.1 <= limit
  /\ (limit - r.1.1) + length r.1.2 <= length it
  /\ (r.1.1 <> 0 -> r.1.2 = [])
  /\ (exists pre, it = pre ++ r.1.2)
  /\ (Forall (joinableAt seg) it -> (limit - r.1.1) + length r.1.2 = length it).
Proof.
  cbv zeta. revert limit ctx. induction it as [|[docId scrVal] it IH]; intros limit ctx.
  - destruct limit; simpl; repeat split; try done; try lia; by exists [].
  - destruct limit as [|limit'].
    + simpl. repeat split; try done; try lia. by exists [].
    + cbn [scoredScan]. destruct (readDocument seg docId) as [doc|] eqn:Hr.
      * match goal with |- context [scoredScan v seg limit' it ?c] =>
          destruct (IH limit' c) as (H1 & H2 & H3 & (pre & H4) & H5) end.
        destruct (scoredScan v seg limit' it _) as [[l' it'] ctx']. simpl in *.
        repeat split; try lia; try done.
        -- exists ((docId, scrVal) :: pre). by rewrite H4 at 1.
        -- intros Hall. apply Forall_cons in Hall as [_ Hall]. specialize (H5 Hall). lia.
      * destruct (IH (S limit') ctx) as (H1 & H2 & H3 & (pre & H4) & H5).
        destruct (scoredScan v seg (S limit') it ctx) as [[l' it'] ctx']. simpl in *.
        repeat split; try lia; try done.
        -- exists ((docId, scrVal) :: pre). by rewrite H4 at 1.
        -- intros Hall. apply Forall_cons in Hall as [Hj _].
           unfold joinableAt in Hj. simpl in Hj. rewrite Hr in Hj. by destruct Hj.
Qed.

Lemma remainingIn_fresh (v : ViewBase) (off : nat) (keys : list DocumentPrimaryKey) (n : nat) :
  remainingIn v (mkCursor None off keys) n = matchesFrom v off n.
Proof. by destruct n. Qed.

Lemma scoredSegments_accounts (v : ViewBase) (n limit : nat) (ctx : ReadContext) (c : Cursor) :
  n = reader_size - _readerOffset c ->
  nextAccounts v n limit ctx c (scoredSegments v n limit ctx c).
Proof.
  revert limit ctx c. induction n as [|n IH]; intros limit ctx c Hn.
  - unfold nextAccounts. simpl. rewrite <- Hn. simpl.
    split; [lia|]. split; [lia|]. split.
    + rewrite Nat.eqb_eq. lia.
    + intros _ Hc. split; [lia|]. split; [lia|done].
  - rewrite scoredSegments_S.
    pose proof (scoredScan_count v (_readerOffset c) limit (liveIterator v c) ctx) as Hcnt.
    pose proof (scoredScan_left v (_readerOffset c) limit (liveIterator v c) ctx)
      as (Hle & Hcov & Hend & (pre & Hsuf) & Hex).
    destruct (scoredScan v _ limit (liveIterator v c) ctx) as [[limit' it'] ctx'].
    simpl in Hcnt, Hle, Hcov, Hend, Hsuf, Hex.
    destruct (limit' =? 0) eqn:Hz.
    + apply Nat.eqb_eq in Hz. subst limit'. unfold nextAccounts.
      cbn [fst snd _readerOffset]. rewrite <- Hn.
      cbn [remainingIn liveIterator _itr _readerOffset].
      split; [lia|]. split; [lia|]. split; [split; [lia|done]|].
      intros Hall Hc. specialize (Hex Hc). split; [lia|]. split; [lia|].
      unfold cursorJoinable. cbn [liveIterator _itr _readerOffset].
      unfold cursorJoinable in Hc. rewrite Hsuf in Hc. by apply Forall_app in Hc as [_ ?].
    + apply Nat.eqb_neq in Hz. specialize (Hend Hz). subst it'.
      specialize (IH limit' ctx' (mkCursor None (S (_readerOffset c)) (_keys c))).
      destruct IH as (I1 & I2 & I3 & I4); [simpl; lia|].
      rewrite remainingIn_fresh in I2, I4.
      destruct (scoredSegments v n limit' ctx' _) as [[more ctx''] c''].
      unfold nextAccounts. cbn [fst snd] in *. cbn [remainingIn].
      simpl in Hcov. split; [lia|]. split; [lia|]. split.
      * rewrite I3. lia.
      * intros Hall Hc. specialize (Hex Hc). simpl in Hex.
        destruct I4 as (J1 & J2 & J3); [done|..].
        { unfold cursorJoinable. cbn [liveIterator _itr _readerOffset].
          by apply segmentIterator_joinable. }
        split; [lia|]. split; [lia|done].
Qed.


Lemma readPKs_loop_left (seg slots : nat) (it : list (doc_id_t * bytes_ref)) :
  let r := readPKs_loop seg slots it in
  length r.1 <= slots
  /\ length r.1 + length r.2 <= length it
  /\ (length r.1 < slots -> r.2 = [])
  /\ (exists pre, it = pre ++ r.2)
  /\ (Forall (joinableAt seg) it ->
      length r.1 + length r.2 = length it
      /\ Forall (λ pk, is_Some (readDocument_pk pk)) r.1).
Proof.
  cbv zeta. revert slots. induction it as [|[docId scrVal] it IH]; intros slots.
  - destruct slots; simpl; repeat split; try done; try lia; by exists [].
  - destruct slots as [|slots'].
    + simpl. repeat split; try done; try lia. by exists [].
    + cbn [readPKs_loop].
      assert (Hskip : readDocument seg docId = None ->
        let r := readPKs_loop seg (S slots') it in
        length r.1 <= S slots'
        /\ length r.1 + length r.2 <= length ((docId, scrVal) :: it)
        /\ (length r.1 < S slots' -> r.2 = [])
        /\ (exists pre, (docId, scrVal) :: it = pre ++ r.2)
        /\ (Forall (joinableAt seg) ((docId, scrVal) :: it) ->
            length r.1 + length r.2 = length ((docId, scrVal) :: it)
            /\ Forall (λ pk, is_Some (readDocument_pk pk)) r.1)).
      { intros Hr. cbv zeta. destruct (IH (S slots')) as (H1 & H2 & H3 & (pre & H4) & H5).
        destruct (readPKs_loop seg (S slots') it) as [pks rest]. simpl in *.
        repeat split; try lia; try done.
        - exists ((docId, scrVal) :: pre). by rewrite H4 at 1.
        - apply Forall_cons in H as [Hj _]. unfold joinableAt in Hj. simpl in Hj.
          rewrite Hr in Hj. by destruct Hj.
        - apply Forall_cons in H as [Hj _]. unfold joinableAt in Hj. simpl in Hj.
          rewrite Hr in Hj. by destruct Hj. }
      unfold readDocument in Hskip.
      destruct (pkColumn seg docId) as [key|] eqn:Hk; [|by apply Hskip].
      destruct (DocumentPrimaryKey_read key) as [pk|] eqn:Hp; [|by apply Hskip].
      clear Hskip.
      destruct (IH slots') as (H1 & H2 & H3 & (pre & H4) & H5).
      destruct (readPKs_loop seg slots' it) as [pks rest]. simpl in *.
      repeat split; try lia; try done.
      * intros Hlt. apply H3. lia.
      * exists ((docId, scrVal) :: pre). by rewrite H4 at 1.
      * apply Forall_cons in H as [_ Hall]. destruct (H5 Hall). lia.
      * apply Forall_cons in H as [Hj Hall]. destruct (H5 Hall) as [_ Hpk].
        apply Forall_cons. split; [|done].
        unfold joinableAt, readDocument in Hj. simpl in Hj. by rewrite Hk, Hp in Hj.
Qed.


Lemma joinKeys_left (pks : list DocumentPrimaryKey) (limit : nat) (ctx : ReadContext) :
  let r := joinKeys pks limit ctx in
  rc_pos ctx <= rc_pos r.2
  /\ rc_pos r.2 - rc_pos ctx <= length pks
  /\ (Forall (λ pk, is_Some (readDocument_pk pk)) pks ->
      rc_pos r.2 = rc_pos ctx + length pks).
Proof.
  cbv zeta. revert limit ctx. induction pks as [|pk pks IH]; intros limit ctx.
  - simpl. repeat split; try done; lia.
  - simpl. destruct (readDocument_pk pk) as [doc|] eqn:Hr.
    + match goal with |- context [joinKeys pks ?l ?c] =>
        destruct (IH l c) as (H1 & H2 & H3) end.
      simpl in *. repeat split; try lia.
      intros Hall. apply Forall_cons in Hall as [_ Hall]. specialize (H3 Hall). lia.
    + destruct (IH limit ctx) as (H1 & H2 & H3). repeat split; try lia.
      intros Hall. apply Forall_cons in Hall as [Hj _]. rewrite Hr in Hj. by destruct Hj.
Qed.

Lemma unorderedSegments_accounts (v : ViewBase) (n limit : nat) (ctx : ReadContext)
    (c : Cursor) :
  n = reader_size - _readerOffset c ->
  nextAccounts v n limit ctx c (unorderedSegments v n limit ctx c).
Proof.
  revert limit ctx c. induction n as [|n IH]; intros limit ctx c Hn.
  - unfold nextAccounts. simpl. rewrite <- Hn. simpl.
    split; [lia|]. split; [lia|]. split.
    + rewrite Nat.eqb_eq. lia.
    + intros _ Hc. split; [lia|]. split; [lia|done].
  - rewrite unorderedSegments_S.
    destruct (readPKs_accepted (_readerOffset c) (liveIterator v c) limit) as [Ht Hrest].
    pose proof (readPKs_loop_left (_readerOffset c) limit (liveIterator v c))
      as (Hlen & Hcov & Hend & (pre & Hsuf) & Hex).
    destruct (readPKs _ _ _) as [[keys accepted] it']. simpl in Ht, Hrest. rewrite Ht.
    destruct (readPKs_loop (_readerOffset c) limit (liveIterator v c)) as [pks rest].
    simpl in Hlen, Hcov, Hend, Hsuf, Hex, Hrest. subst it'. cbn [fst].
    pose proof (joinKeys_count pks limit ctx Hlen) as Hcnt.
    pose proof (joinKeys_left pks limit ctx) as (Hmon & Hrows & Hall).
    destruct (joinKeys pks limit ctx) as [limit' ctx']. simpl in Hcnt, Hmon, Hrows, Hall.
    destruct (limit' =? 0) eqn:Hz.
    + apply Nat.eqb_eq in Hz. subst limit'. unfold nextAccounts.
      cbn [fst snd _readerOffset]. rewrite <- Hn.
      cbn [remainingIn liveIterator _itr _readerOffset].
      split; [lia|]. split; [lia|]. split; [split; [lia|done]|].
      intros Hj Hc. destruct (Hex Hc) as [Hex1 Hex2]. specialize (Hall Hex2).
      split; [lia|]. split; [lia|].
      unfold cursorJoinable. cbn [liveIterator _itr _readerOffset].
      unfold cursorJoinable in Hc. rewrite Hsuf in Hc. by apply Forall_app in Hc as [_ ?].
    + apply Nat.eqb_neq in Hz.
      specialize (IH limit' ctx' (mkCursor None (S (_readerOffset c)) keys)).
      destruct IH as (I1 & I2 & I3 & I4); [simpl; lia|].
      rewrite remainingIn_fresh in I2, I4.
      destruct (unorderedSegments v n limit' ctx' _) as [[more ctx''] c''].
      unfold nextAccounts. cbn [fst snd] in *. cbn [remainingIn].
      split; [lia|]. split; [lia|]. split.
      * rewrite I3. lia.
      * intros Hj Hc. destruct (Hex Hc) as [Hex1 Hex2]. specialize (Hall Hex2).
        assert (rest = []) as -> by (apply Hend; lia). simpl in Hex1.
        destruct I4 as (J1 & J2 & J3); [done|..].
        { unfold cursorJoinable. cbn [liveIterator _itr _readerOffset].
          by apply segmentIterator_joinable. }
        split; [lia|]. split; [lia|done].
Qed.

(** The accounting of [next], for either strategy, on the operator state. *)
Lemma next_accounts (k : BlockKind) (ctx : ReadContext) (limit : nat) (st : Block) :
  let r := next k ctx limit st in
  rc_pos ctx <= rc_pos r.1.2
  /\ (rc_pos r.1.2 - rc_pos ctx) + remaining r.2 <= remaining st
  /\ (r.1.1 = true <-> rc_pos r.1.2 = rc_pos ctx + limit)
  /\ (allJoinable -> cursorJoinable (vb st) (cur st) ->
      rc_pos r.1.2 = rc_pos ctx + Nat.min limit (remaining st)
      /\ remaining r.2 = remaining st - Nat.min limit (remaining st)
      /\ cursorJoinable (vb r.2) (cur r.2)).
Proof.
  cbv zeta. unfold remaining. destruct k; simpl.
  - unfold IResearchViewBlock_next.
    pose proof (scoredSegments_accounts (vb st) _ limit ctx (cur st) eq_refl) as H.
    by destruct (scoredSegments _ _ _ _ _) as [[r c'] ctx'].
  - unfold IResearchViewUnorderedBlock_next.
    pose proof (unorderedSegments_accounts (vb st) _ limit ctx (cur st) eq_refl) as H.
    by destruct (unorderedSegments _ _ _ _ _) as [[r c'] ctx'].
Qed.


(* ------------------------------------------------------------------------- *)
(** ** Compilation failures *)
(* ------------------------------------------------------------------------- *)

Lemma compileOrder_fails (c : ViewExpressionContext) (sorts : list SortElement)
    (order : irs_order) :
  compileOrder c sorts order = None
  <-> exists s, s ∈ sorts /\ OrderFactory_scorer (sort_node s) c = None.
Proof.
  revert order. induction sorts as [|s sorts IH]; intros order; simpl.
  - split; [done|]. intros (s & Hin & _). by apply elem_of_nil in Hin.
  - destruct (OrderFactory_scorer (sort_node s) c) as [scorer|] eqn:Hs.
    + rewrite IH. split.
      * intros (s' & Hin & Hf). exists s'. split; [by apply elem_of_cons; right|done].
      * intros (s' & Hin & Hf). apply elem_of_cons in Hin as [->|Hin]; [congruence|].
        by exists s'.
    + split; [|done]. intros _. exists s. split; [apply elem_of_cons; by left|done].
Qed.

(** [reset] raises exactly when the filter is volatile and the predicate does
    not compile for the row it is bound to; it then raises bad-parameter and
    has only rebound the row context. *)
Lemma base_reset_throws (st : Block) :
  let c := mkCtx (head (_buffer (eb st))) (_pos (eb st)) in
  (_volatileFilter (vb st) = true /\ resetFailsAt (vb st) c ->
   IResearchViewBlockBase_reset st
   = (Throw TRI_ERROR_BAD_PARAMETER, with_vb (set_ctx c (vb st)) st))
  /\ (forall e st', IResearchViewBlockBase_reset st = (Throw e, st') ->
        e = TRI_ERROR_BAD_PARAMETER /\ st' = with_vb (set_ctx c (vb st)) st
        /\ _volatileFilter (vb st) = true /\ resetFailsAt (vb st) c).
Proof.
  cbv zeta. unfold IResearchViewBlockBase_reset, resetFailsAt.
  cbn [vb with_vb set_ctx _volatileFilter _volatileSort _order].
  destruct (_volatileFilter (vb st)) eqn:Hvf.
  2:{ split; [by intros [? _]|done]. }
  destruct (FilterFactory_filter _ _) as [root|] eqn:Hf.
  2:{ split; [done|]. intros e st' [= <- <-]. repeat split; try done. by left. }
  destruct (_volatileSort (vb st)) eqn:Hvs.
  - destruct (compileOrder _ _ []) as [order|] eqn:Ho.
    + split; [|done]. intros (_ & [?|(_ & Hs)]); [done|].
      apply (compileOrder_fails _ _ []) in Hs. congruence.
    + split; [done|]. intros e st' [= <- <-]. repeat split; try done.
      right. split; [done|]. by apply compileOrder_fails in Ho.
  - split; [|done]. by intros (_ & [?|(? & _)]).
Qed.

Lemma reset_throws (st : Block) :
  let c := mkCtx (head (_buffer (eb st))) (_pos (eb st)) in
  (_volatileFilter (vb st) = true /\ resetFailsAt (vb st) c ->
   reset st = (Throw TRI_ERROR_BAD_PARAMETER, with_vb (set_ctx c (vb st)) st))
  /\ (forall e st', reset st = (Throw e, st') ->
        e = TRI_ERROR_BAD_PARAMETER /\ st' = with_vb (set_ctx c (vb st)) st
        /\ _volatileFilter (vb st) = true /\ resetFailsAt (vb st) c).
Proof.
  cbv zeta. destruct (base_reset_throws st) as [H1 H2]. cbv zeta in H1, H2.
  unfold reset. split.
  - intros H. by rewrite (H1 H).
  - intros e st'. destruct (IResearchViewBlockBase_reset st) as [[[]|e0] st0]; [done|].
    intros [= <- <-]. by apply H2.
Qed.


Lemma matchesFrom_empty (v : ViewBase) (seg n : nat) :
  _filter v = prepared_empty -> matchesFrom v seg n = 0.
Proof.
  intros Hf. revert seg. induction n as [|n IH]; intros seg; [done|].
  simpl. rewrite IH. unfold segmentIterator. by rewrite Hf.
Qed.

Lemma cursorDry_remaining (st : Block) : cursorDry (vb st) (cur st) -> remaining st = 0.
Proof.
  unfold remaining. intros [Hoff|[Hf Hl]].
  - by replace (reader_size - _readerOffset (cur st)) with 0 by lia.
  - destruct (reader_size - _readerOffset (cur st)); [done|].
    simpl. by rewrite Hl, matchesFrom_empty.
Qed.

(** [dead] looks at the volatility flags, the compiled filter and the cursor
    only. *)
Lemma dead_same (st st' : Block) :
  _volatileFilter (vb st') = _volatileFilter (vb st) ->
  _volatileSort (vb st') = _volatileSort (vb st) ->
  _filter (vb st') = _filter (vb st) ->
  cur st' = cur st ->
  dead st -> dead st'.
Proof.
  intros Hvf Hvs Hf Hc (D1 & D2 & D3). unfold dead, resetFailsAt, cursorDry in *.
  rewrite Hvf, Hvs, Hf, Hc. split; [done|]. split; [done|].
  destruct D3 as [?|[Hfe Hl]]; [by left|right]. split; [done|].
  unfold liveIterator, segmentIterator in *. rewrite Hf, Hfe in *.
  by destruct (_itr (cur st)).
Qed.

Lemma reset_dead (st : Block) :
  dead st -> exists st', reset st = (Throw TRI_ERROR_BAD_PARAMETER, st') /\ dead st'.
Proof.
  intros Hd. destruct (reset_throws st) as [H _]. cbv zeta in H.
  eexists. split.
  - apply H. destruct Hd as (D1 & D2 & _). by split.
  - by apply (dead_same st).
Qed.

Lemma remaining_dry (st : Block) :
  remaining st = 0 -> _filter (vb st) = prepared_empty \/ reader_size <= _readerOffset (cur st)
  -> cursorDry (vb st) (cur st).
Proof.
  unfold remaining, cursorDry. intros Hr [Hf|Hoff]; [|by left].
  destruct (reader_size - _readerOffset (cur st)) eqn:Hn; [left; lia|right].
  simpl in Hr. split; [done|]. apply length_zero_iff_nil. lia.
Qed.

Lemma next_exhausted (k : BlockKind) (ctx : ReadContext) (limit : nat) (st : Block) :
  reader_size <= _readerOffset (cur st) -> cur (next k ctx limit st).2 = cur st.
Proof.
  intros Hoff. destruct k; simpl.
  - unfold IResearchViewBlock_next.
    by replace (reader_size - _readerOffset (cur st)) with 0 by lia.
  - unfold IResearchViewUnorderedBlock_next.
    by replace (reader_size - _readerOffset (cur st)) with 0 by lia.
Qed.

Lemma skip_exhausted (limit : nat) (st : Block) :
  reader_size <= _readerOffset (cur st) -> cur (skip limit st).2 = cur st.
Proof.
  intros Hoff. unfold skip.
  by replace (reader_size - _readerOffset (cur st)) with 0 by lia.
Qed.

(** A dead operator scans nothing. *)
Lemma next_dead (k : BlockKind) (ctx : ReadContext) (limit : nat) (st : Block) :
  dead st ->
  rc_pos (next k ctx limit st).1.2 = rc_pos ctx /\ dead (next k ctx limit st).2.
Proof.
  intros (D1 & D2 & D3).
  pose proof (next_accounts k ctx limit st) as (A1 & A2 & _). cbv zeta in A1, A2.
  pose proof (next_frame k ctx limit st) as [He Hv].
  pose proof (next_exhausted k ctx limit st) as Hex.
  rewrite (cursorDry_remaining st D3) in A2.
  split; [lia|]. unfold dead. rewrite Hv. split; [done|]. split; [done|].
  destruct D3 as [Hoff|[Hf Hl]].
  - rewrite (Hex Hoff). by left.
  - rewrite <- Hv. apply remaining_dry; [lia|]. left. by rewrite Hv.
Qed.

Lemma skip_dead (limit : nat) (st : Block) :
  dead st -> (skip limit st).1 = 0 /\ dead (skip limit st).2.
Proof.
  intros (D1 & D2 & D3).
  pose proof (skip_count limit st) as (A1 & A2).
  pose proof (skip_frame limit st) as [He Hv].
  pose proof (skip_exhausted limit st) as Hex.
  rewrite (cursorDry_remaining st D3) in A1, A2.
  split; [lia|]. unfold dead. rewrite Hv. split; [done|]. split; [done|].
  destruct D3 as [Hoff|[Hf Hl]].
  - rewrite (Hex Hoff). by left.
  - rewrite <- Hv. apply remaining_dry; [lia|]. left. by rewrite Hv.
Qed.

Lemma advanceRow_dead (b : AqlItemBlock) (st : Block) :
  dead st ->
  dead (advanceRow b st).2
  /\ ((advanceRow b st).1 = Ok tt \/ (advanceRow b st).1 = Throw TRI_ERROR_BAD_PARAMETER).
Proof.
  intros Hd. unfold advanceRow. destruct (nrItems b <=? S (_pos (eb st))).
  - split; [|by left]. by apply (dead_same st).
  - match goal with |- context [reset ?s] =>
      destruct (reset_dead s) as (st' & -> & Hd') end.
    + by apply (dead_same st).
    + split; [done|by right].
Qed.


Lemma getSome_loop_dead (f : nat) (k : BlockKind) (atMost : nat) (st st' : Block)
    (up up' : Upstream) (out : Result (ExecutionState * option AqlItemBlock)) :
  dead st -> getSome_loop f k atMost st up = Some (out, st', up') ->
  dead st' /\ forall s batch, out = Ok (s, batch) -> batch = None.
Proof.
  revert st up. induction f as [|f IH]; intros st up Hd; [done|].
  cbn [getSome_loop].
  assert (Hblock : forall s b up1,
            match reset (fetchedState s b st) with
            | (Throw e, st1) => FetchThrow e st1 up1
            | (Ok _, st1) => FetchReady st1 up1
            end = FetchThrow TRI_ERROR_BAD_PARAMETER (reset (fetchedState s b st)).2 up1
            /\ dead (reset (fetchedState s b st)).2).
  { intros s b up1. destruct (reset_dead (fetchedState s b st)) as (st1 & -> & Hd1); [|done].
    by apply (dead_same st). }
  fetch_cases st up Hbuf.
  - intros [= <- <- <-]. split; [by apply (dead_same st)|]. by intros s batch [= _ <-].
  - match goal with |- context [fetchedState ?s ?b st] =>
      destruct (Hblock s b up) as [-> Hd1] end.
    intros [= <- <- <-]. by split.
  - intros [= <- <- <-]. split; [by apply (dead_same st)|]. by intros s batch [= _ <-].
  - match goal with |- context [fetchedState ?s ?b st] =>
      destruct (Hblock s b up) as [-> Hd1] end.
    intros [= <- <- <-]. by split.
  - intros [= <- <- <-]. split; [by apply (dead_same st)|]. by intros s batch [= _ <-].
  - intros [= <- <- <-]. split; [done|]. by intros s batch [= _ <-].
  - intros [= <- <- <-]. split; [done|]. by intros s batch [= _ <-].
  - unfold getSome_row. rewrite Hbuf.
    destruct (_hasMore (vb st)) eqn:Hm; simpl.
    + match goal with |- context [next k ?c atMost st] =>
        destruct (next_dead k c atMost st Hd) as [Hrows Hd1];
        destruct (next k c atMost st) as [[more ctx'] st1] end.
      simpl in Hrows, Hd1. rewrite Hrows. simpl.
      apply IH. by apply (dead_same st1).
    + match goal with |- context [advanceRow a ?s0] =>
        destruct (advanceRow_dead a s0) as [Hd1 Hres]; [by apply (dead_same st)|];
        destruct (advanceRow a s0) as [[[]|e] st1] end.
      * by apply IH.
      * intros [= <- <- <-]. by split.
Qed.

Lemma skipSome_loop_dead (f : nat) (atMost : nat) (st st' : Block) (up up' : Upstream)
    (out : Result (ExecutionState * nat)) :
  dead st -> skipSome_loop f atMost st up = Some (out, st', up') -> dead st'.
Proof.
  revert st up. induction f as [|f IH]; intros st up Hd; [done|].
  cbn [skipSome_loop].
  assert (Hblock : forall s b up1,
            match reset (fetchedState s b st) with
            | (Throw e, st1) => FetchThrow e st1 up1
            | (Ok _, st1) => FetchReady st1 up1
            end = FetchThrow TRI_ERROR_BAD_PARAMETER (reset (fetchedState s b st)).2 up1
            /\ dead (reset (fetchedState s b st)).2).
  { intros s b up1. destruct (reset_dead (fetchedState s b st)) as (st1 & -> & Hd1); [|done].
    by apply (dead_same st). }
  destruct (_ <? atMost).
  2:{ simpl. destruct (getHasMoreState_cases (reportInflight st).2) as (_ & Hv & Hc & _).
      destruct (getHasMoreState _) as [state st1]. simpl in *.
      intros [= <- <- <-]. by apply (dead_same st); rewrite ?Hv, ?Hc. }
  fetch_cases st up Hbuf.
  - simpl. intros [= <- <- <-]. by apply (dead_same st).
  - match goal with |- context [fetchedState ?s ?b st] =>
      destruct (Hblock s b up) as [-> Hd1] end.
    by intros [= <- <- <-].
  - simpl. intros [= <- <- <-]. by apply (dead_same st).
  - match goal with |- context [fetchedState ?s ?b st] =>
      destruct (Hblock s b up) as [-> Hd1] end.
    by intros [= <- <- <-].
  - simpl. intros [= <- <- <-]. by apply (dead_same st).
  - by intros [= <- <- <-].
  - by intros [= <- <- <-].
  - unfold skipSome_row. rewrite Hbuf.
    destruct (skip_dead (atMost - _inflight (vb st)) st Hd) as [Hn Hd1].
    destruct (skip _ st) as [n st1]. simpl in Hn, Hd1. simpl.
    destruct (_ <? atMost).
    + match goal with |- context [advanceRow a ?s0] =>
        destruct (advanceRow_dead a s0) as [Hd2 Hres]; [by apply (dead_same st1)|];
        destruct (advanceRow a s0) as [[[]|e] st2] end.
      * by apply IH.
      * by intros [= <- <- <-].
    + apply IH. by apply (dead_same st1).
Qed.

(** No call on a dead operator returns a batch. *)
Lemma batchesOf_dead (k : BlockKind) (calls : list Call) (st : Block) (up : Upstream) :
  dead st -> batchesOf k calls st up = [].
Proof.
  revert st up. induction calls as [|[atMost|atMost] calls IH]; intros st up Hd; [done|..].
  - cbn [batchesOf]. destruct (getSome k atMost st up) as [[[out st'] up']|] eqn:Hg; [|done].
    assert (dead st' /\ forall s batch, out = Ok (s, batch) -> batch = None) as [Hd' Hb].
    { unfold getSome in Hg. destruct (_done (eb st)).
      - injection Hg as <- <- <-. split; [done|]. by intros s batch [= _ <-].
      - by apply (getSome_loop_dead _ _ _ _ _ _ _ _ Hd Hg). }
    destruct out as [[s [b|]]|e]; try by apply IH.
    by specialize (Hb s (Some b) eq_refl).
  - cbn [batchesOf]. destruct (skipSome atMost st up) as [[[out st'] up']|] eqn:Hg; [|done].
    apply IH. unfold skipSome in Hg. destruct (_done (eb st)).
    + injection Hg as <- <- <-. by apply (dead_same st).
    + by apply (skipSome_loop_dead _ _ _ _ _ _ _ Hd Hg).
Qed.


Lemma construct_dead (k : BlockKind) :
  (forall c, resetFailsAt (vb (construct k)) c) -> dead (construct k).
Proof. intros H. split; [done|]. split; [done|]. right. by split. Qed.

(** A pass that jumps back leaves the rest of the call to the loops entered
    in the state it jumps back with. *)
Lemma getSomePass_call (k : BlockKind) (atMost : nat) (st st' : Block) (up up' : Upstream) :
  0 < atMost -> _done (eb st) = false -> getSomePass k atMost st up st' up' ->
  getSome k atMost st up = getSome k atMost st' up' /\ _done (eb st') = false.
Proof.
  intros Ha Hd (st1 & Hf & Hrow). split.
  - rewrite (getSome_unfold k atMost st up Ha Hd), Hf. apply Hrow.
  - apply fetchIfEmpty_ready in Hf as (Hne & _ & Hd1 & _).
    destruct (getSome_row_cases k atMost st1 Ha Hne)
      as [(e & st2 & H)|[(st2 & H & Hd2 & _)|(s & b & st2 & H & _)]].
    + specialize (Hrow (fun _ _ => None)). by rewrite H in Hrow.
    + specialize (Hrow (fun s _ => Some (Ok (DONE, None), s, []))). rewrite H in Hrow.
      injection Hrow as <-. congruence.
    + specialize (Hrow (fun _ _ => None)). by rewrite H in Hrow.
Qed.

Lemma getSomeAt_call (k : BlockKind) (atMost : nat) (st st' : Block) (up up' : Upstream) :
  0 < atMost -> _done (eb st) = false -> getSomeAt k atMost st up st' up' ->
  getSome k atMost st up = getSome k atMost st' up' /\ _done (eb st') = false.
Proof.
  intros Ha Hd H. induction H as [|st1 up1 st' up' _ [IH1 IH2] Hp]; [done|].
  destruct (getSomePass_call _ _ _ _ _ _ Ha IH2 Hp) as [H1 H2].
  split; [congruence|done].
Qed.

Lemma skipSomePass_call (atMost : nat) (st st' : Block) (up up' : Upstream) :
  _done (eb st) = false -> skipSomePass atMost st up st' up' ->
  skipSome atMost st up = skipSome atMost st' up' /\ _done (eb st') = false.
Proof.
  intros Hd (Hlt & st1 & Hf & Hrow). split.
  - rewrite (skipSome_unfold atMost st up Hd), Hf.
    apply Nat.ltb_lt in Hlt. rewrite Hlt. apply Hrow.
  - apply fetchIfEmpty_ready in Hf as (Hne & _ & Hd1 & _).
    destruct (skipSome_row_cases atMost st1 Hne) as [(e & st2 & H)|(st2 & H & Hd2 & _)].
    + specialize (Hrow (fun _ _ => None)). by rewrite H in Hrow.
    + specialize (Hrow (fun s _ => Some (Ok (DONE, 0), s, []))). rewrite H in Hrow.
      injection Hrow as <-. congruence.
Qed.

Lemma skipSomeAt_call (atMost : nat) (st st' : Block) (up up' : Upstream) :
  _done (eb st) = false -> skipSomeAt atMost st up st' up' ->
  skipSome atMost st up = skipSome atMost st' up' /\ _done (eb st') = false.
Proof.
  intros Hd H. induction H as [|st1 up1 st' up' _ [IH1 IH2] Hp]; [done|].
  destruct (skipSomePass_call _ _ _ _ _ IH2 Hp) as [H1 H2].
  split; [congruence|done].
Qed.

(** The row transition inside a block is the [reset] of the next row. *)
Lemma advanceRow_next_row (b : AqlItemBlock) (st : Block) :
  S (_pos (eb st)) < nrItems b -> advanceRow b st = reset (nextRowState st).
Proof.
  intros Hlt. unfold advanceRow.
  destruct (nrItems b <=? S (_pos (eb st))) eqn:Hle; [|done].
  apply Nat.leb_le in Hle. lia.
Qed.

(** The three places where a call runs [reset], at the head of the loops:
    after a fetch, and at the row transition of [getSome] and of [skipSome].
    An error raised there is the outcome of the loops. *)
Lemma getSome_raises_after_fetch (k : BlockKind) (atMost : nat) (st st1 : Block)
    (s : ExecutionState) (b : AqlItemBlock) (up : Upstream) (e : ErrorCode) :
  0 < atMost -> _done (eb st) = false -> _buffer (eb st) = [] -> s <> WAITING ->
  reset (fetchedState s b st) = (Throw e, st1) ->
  getSome k atMost st ((s, Some b) :: up) = Some (Throw e, st1, up).
Proof.
  intros Ha Hd Hb Hs Hr.
  rewrite (getSome_unfold _ _ _ _ Ha Hd), (fetchIfEmpty_block _ _ _ _ _ Hb Hs).
  by rewrite Hr.
Qed.

Lemma getSome_raises_at_row (k : BlockKind) (atMost : nat) (st st2 st1 : Block)
    (up up2 : Upstream) (b : AqlItemBlock) (bs : list AqlItemBlock) (e : ErrorCode) :
  0 < atMost -> _done (eb st) = false ->
  fetchIfEmpty atMost st up = FetchReady st2 up2 ->
  _buffer (eb st2) = b :: bs -> _hasMore (vb st2) = false ->
  S (_pos (eb st2)) < nrItems b ->
  reset (nextRowState (with_vb (set_hasMore true (vb st2)) st2)) = (Throw e, st1) ->
  getSome k atMost st up = Some (Throw e, st1, up2).
Proof.
  intros Ha Hd Hf Hb Hm Hlt Hr.
  rewrite (getSome_unfold _ _ _ _ Ha Hd), Hf. unfold getSome_row. rewrite Hb, Hm.
  cbn [negb]. rewrite advanceRow_next_row by done. by rewrite Hr.
Qed.

Lemma skipSome_raises_after_fetch (atMost : nat) (st st1 : Block)
    (s : ExecutionState) (b : AqlItemBlock) (up : Upstream) (e : ErrorCode) :
  _done (eb st) = false -> _inflight (vb st) < atMost -> _buffer (eb st) = [] ->
  s <> WAITING ->
  reset (fetchedState s b st) = (Throw e, st1) ->
  skipSome atMost st ((s, Some b) :: up) = Some (Throw e, st1, up).
Proof.
  intros Hd Hlt Hb Hs Hr. apply Nat.ltb_lt in Hlt.
  rewrite (skipSome_unfold _ _ _ Hd), Hlt, (fetchIfEmpty_block _ _ _ _ _ Hb Hs).
  by rewrite Hr.
Qed.

Lemma skipSome_raises_at_row (atMost : nat) (st st2 st3 st1 : Block)
    (up up2 : Upstream) (b : AqlItemBlock) (bs : list AqlItemBlock) (n : nat)
    (e : ErrorCode) :
  _done (eb st) = false -> _inflight (vb st) < atMost ->
  fetchIfEmpty atMost st up = FetchReady st2 up2 ->
  _buffer (eb st2) = b :: bs ->
  skip (atMost - _inflight (vb st2)) st2 = (n, st3) ->
  _inflight (vb st3) + n < atMost ->
  S (_pos (eb st3)) < nrItems b ->
  reset (nextRowState (with_vb (set_inflight (_inflight (vb st3) + n) (vb st3)) st3))
  = (Throw e, st1) ->
  skipSome atMost st up = Some (Throw e, st1, up2).
Proof.
  intros Hd Hlt Hf Hb Hskip Hlt' Hpos Hr. apply Nat.ltb_lt in Hlt, Hlt'.
  rewrite (skipSome_unfold _ _ _ Hd), Hlt, Hf. unfold skipSome_row. rewrite Hb, Hskip.
  cbn [vb with_vb set_inflight _inflight]. rewrite Hlt'.
  rewrite advanceRow_next_row by done. by rewrite Hr.
Qed.

(** C7 (amended): with a volatile filter, [reset] raises bad-parameter when
    the filter condition does not translate or, the sort being volatile too,
    a scorer does not compile, and leaves the compiled filter and the cursor
    as they were. The [getSome] or [skipSome] call in which a [reset] raises
    returns that error and no batch, the operator being left as [reset] left
    it: whichever pass of its loops the call is in, and whether it is the
    [reset] that follows a fetch or the [reset] of a row transition. The
    operator does not remember the error: later calls return no batch as long
    as the operator is dead, that is, translating keeps failing whatever the
    input row and the cursor has nothing left, as is the case from
    construction on when translating always fails. *)
Theorem reset_failure_propagates (k : BlockKind) (atMost : nat) (st : Block) (up : Upstream) :
  (_volatileFilter (vb st) = true ->
   resetFailsAt (vb st) (mkCtx (head (_buffer (eb st))) (_pos (eb st))) ->
   (reset st).1 = Throw TRI_ERROR_BAD_PARAMETER
   /\ (IResearchViewBlockBase_reset st).1 = Throw TRI_ERROR_BAD_PARAMETER
   /\ cur (reset st).2 = cur st
   /\ _filter (vb (reset st).2) = _filter (vb st))
  /\ (0 < atMost -> _done (eb st) = false ->
      forall st0 up0, getSomeAt k atMost st up st0 up0 ->
        (forall s b up1 e st1,
           _buffer (eb st0) = [] -> up0 = (s, Some b) :: up1 -> s <> WAITING ->
           reset (fetchedState s b st0) = (Throw e, st1) ->
           getSome k atMost st up = Some (Throw e, st1, up1))
        /\ (forall st2 up2 b bs e st1,
              fetchIfEmpty atMost st0 up0 = FetchReady st2 up2 ->
              _buffer (eb st2) = b :: bs -> _hasMore (vb st2) = false ->
              S (_pos (eb st2)) < nrItems b ->
              reset (nextRowState (with_vb (set_hasMore true (vb st2)) st2)) = (Throw e, st1) ->
              getSome k atMost st up = Some (Throw e, st1, up2)))
  /\ (_done (eb st) = false ->
      forall st0 up0, skipSomeAt atMost st up st0 up0 -> _inflight (vb st0) < atMost ->
        (forall s b up1 e st1,
           _buffer (eb st0) = [] -> up0 = (s, Some b) :: up1 -> s <> WAITING ->
           reset (fetchedState s b st0) = (Throw e, st1) ->
           skipSome atMost st up = Some (Throw e, st1, up1))
        /\ (forall st2 up2 b bs n st3 e st1,
              fetchIfEmpty atMost st0 up0 = FetchReady st2 up2 ->
              _buffer (eb st2) = b :: bs ->
              skip (atMost - _inflight (vb st2)) st2 = (n, st3) ->
              _inflight (vb st3) + n < atMost ->
              S (_pos (eb st3)) < nrItems b ->
              reset (nextRowState
                       (with_vb (set_inflight (_inflight (vb st3) + n) (vb st3)) st3))
              = (Throw e, st1) ->
              skipSome atMost st up = Some (Throw e, st1, up2)))
  /\ (dead st -> forall calls, batchesOf k calls st up = [])
  /\ ((forall c, resetFailsAt (vb (construct k)) c) ->
      forall calls, batchesOf k calls (construct k) up = []).
Proof.
  split; [|split; [|split; [|split]]].
  - intros Hvf Hfail.
    destruct (reset_throws st) as [H1 _]. destruct (base_reset_throws st) as [H2 _].
    cbv zeta in H1, H2. rewrite H1, H2 by done. done.
  - intros Ha Hd st0 up0 Hat.
    destruct (getSomeAt_call _ _ _ _ _ _ Ha Hd Hat) as [-> Hd0]. split.
    + intros s b up1 e st1 Hb -> Hs Hr. by apply getSome_raises_after_fetch.
    + intros st2 up2 b bs e st1 Hf Hb Hm Hlt Hr.
      by apply (getSome_raises_at_row k atMost st0 st2 st1 up0 up2 b bs e).
  - intros Hd st0 up0 Hat Hlt.
    destruct (skipSomeAt_call _ _ _ _ _ Hd Hat) as [-> Hd0]. split.
    + intros s b up1 e st1 Hb -> Hs Hr. by apply skipSome_raises_after_fetch.
    + intros st2 up2 b bs n st3 e st1 Hf Hb Hskip Hlt' Hpos Hr.
      by apply (skipSome_raises_at_row atMost st0 st2 st3 st1 up0 up2 b bs n e).
  - intros Hd calls. by apply batchesOf_dead.
  - intros Hf calls. by apply batchesOf_dead, construct_dead.
Qed.


(* ------------------------------------------------------------------------- *)
(** ** The matches ahead of the operator *)
(* ------------------------------------------------------------------------- *)

Lemma matchesFrom_ext (v v' : ViewBase) (seg n : nat) :
  _filter v = _filter v' -> _order v = _order v' -> _ctx v = _ctx v' ->
  matchesFrom v seg n = matchesFrom v' seg n.
Proof.
  intros Hf Ho Hc. revert seg. induction n as [|n IH]; intros seg; [done|].
  simpl. rewrite IH. unfold segmentIterator. by rewrite Hf, Ho, Hc.
Qed.

(** What [reset] compiles depends on the compiled predicate it finds and on
    the row it binds. *)
Lemma base_reset_compiled (st : Block) :
  let c := mkCtx (head (_buffer (eb st))) (_pos (eb st)) in
  compiledOf (vb (IResearchViewBlockBase_reset st).2) = recompile (compiledOf (vb st)) c
  /\ _ctx (vb (IResearchViewBlockBase_reset st).2) = c.
Proof.
  cbv zeta. unfold recompile, IResearchViewBlockBase_reset.
  cbn [vb eb with_vb set_ctx viewOf compiledOf _buffer _pos _volatileFilter _volatileSort
       _order c_volatileFilter c_volatileSort c_order c_filter ctx_data ctx_pos].
  assert (Hh : head (option_list (head (_buffer (eb st)))) = head (_buffer (eb st))).
  { by destruct (head (_buffer (eb st))). }
  rewrite Hh.
  destruct (_volatileFilter (vb st)); [|done].
  destruct (FilterFactory_filter _ _); [|done].
  destruct (if _volatileSort (vb st) then _ else _); done.
Qed.

Lemma reset_ok (st : Block) :
  alwaysCompiles ->
  let c := mkCtx (head (_buffer (eb st))) (_pos (eb st)) in
  exists st',
    reset st = (Ok tt, st')
    /\ eb st' = eb st
    /\ cur st' = mkCursor None 0 (_keys (cur st))
    /\ compiledOf (vb st') = recompile (compiledOf (vb st)) c
    /\ _ctx (vb st') = c
    /\ _hasMore (vb st') = _hasMore (vb st)
    /\ _inflight (vb st') = _inflight (vb st).
Proof.
  intros Hc. cbv zeta.
  destruct (base_reset_compiled st) as [Hp Hx]. cbv zeta in Hp, Hx.
  destruct (base_reset_frame st) as (He & Hcur & Hi & Hh).
  unfold reset.
  destruct (IResearchViewBlockBase_reset st) as [[[]|e] st0] eqn:Hr.
  - eexists. split; [done|]. simpl in *. rewrite Hcur. by repeat split.
  - apply base_reset_throws in Hr as (_ & _ & _ & Hfail). exfalso.
    destruct (Hc (mkCtx (head (_buffer (eb st))) (_pos (eb st)))) as [[root Hroot] [o Ho]].
    destruct Hfail as [Hf|(_ & Hs)]; [congruence|].
    apply (compileOrder_fails _ _ []) in Hs. congruence.
Qed.

(** Right after [reset] the whole index is ahead of the cursor. *)
Lemma remaining_fresh (st : Block) (keys : list DocumentPrimaryKey) :
  cur st = mkCursor None 0 keys ->
  remaining st = matchesOf (compiledOf (vb st)) (_ctx (vb st)).
Proof.
  intros Hc. unfold remaining, matchesOf. rewrite Hc. cbn [_readerOffset].
  rewrite Nat.sub_0_r, remainingIn_fresh. by apply matchesFrom_ext.
Qed.

Lemma cursorJoinable_fresh (v : ViewBase) (off : nat) (keys : list DocumentPrimaryKey) :
  allJoinable -> cursorJoinable v (mkCursor None off keys).
Proof. intros Hall. by apply segmentIterator_joinable. Qed.

Lemma rowsAfter_next (b : AqlItemBlock) (p : nat) :
  S p < nrItems b -> rowsAfter b p = mkCtx (Some b) (S p) :: rowsAfter b (S p).
Proof.
  intros Hlt. unfold rowsAfter.
  replace (nrItems b - S p) with (S (nrItems b - S (S p))) by lia. done.
Qed.

Lemma rowsAfter_last (b : AqlItemBlock) (p : nat) : nrItems b <= S p -> rowsAfter b p = [].
Proof. intros Hle. unfold rowsAfter. by replace (nrItems b - S p) with 0 by lia. Qed.

(** [skip] keeps the matches on the cursor joinable. *)
Lemma skipSegments_joinable (v : ViewBase) (n limit skipped : nat) (c : Cursor) :
  allJoinable -> cursorJoinable v c ->
  cursorJoinable v (skipSegments v n limit skipped c).2.
Proof.
  intros Hall. revert limit skipped c. induction n as [|n IH]; intros limit skipped c Hc;
    [done|].
  rewrite skipSegments_S, skipScan_count.
  destruct (_ =? 0).
  - unfold cursorJoinable in *. cbn [snd liveIterator _itr _readerOffset].
    rewrite <- (take_drop limit (liveIterator v c)) in Hc. by apply Forall_app in Hc as [_ ?].
  - apply IH. by apply cursorJoinable_fresh.
Qed.

Lemma skip_joinable (limit : nat) (st : Block) :
  allJoinable -> cursorJoinable (vb st) (cur st) ->
  cursorJoinable (vb (skip limit st).2) (cur (skip limit st).2).
Proof.
  intros Hall Hc. unfold skip.
  pose proof (skipSegments_joinable (vb st) (reader_size - _readerOffset (cur st)) limit 0
                (cur st) Hall Hc) as H.
  by destruct (skipSegments _ _ _ _ _).
Qed.


Lemma remaining_ext (st st' : Block) :
  _filter (vb st') = _filter (vb st) -> _order (vb st') = _order (vb st) ->
  _ctx (vb st') = _ctx (vb st) -> cur st' = cur st ->
  remaining st' = remaining st.
Proof.
  intros Hf Ho Hc Hcur. unfold remaining, remainingIn. rewrite Hcur.
  destruct (reader_size - _readerOffset (cur st)); [done|].
  rewrite (matchesFrom_ext (vb st') (vb st)) by done.
  unfold liveIterator, segmentIterator. by rewrite Hf, Ho, Hc.
Qed.

Lemma futureOf_ext (st st' : Block) (up : Upstream) :
  _buffer (eb st') = _buffer (eb st) -> _pos (eb st') = _pos (eb st) ->
  compiledOf (vb st') = compiledOf (vb st) ->
  futureOf st' up = futureOf st up.
Proof. intros Hb Hp Hc. unfold futureOf, pendingRows. by rewrite Hb, Hp, Hc. Qed.

Lemma compiledOf_fields (v v' : ViewBase) :
  compiledOf v' = compiledOf v ->
  _filter v' = _filter v /\ _order v' = _order v.
Proof. by intros [= ? ? ? ?]. Qed.

(** The row transition keeps every match to come ahead. *)
Lemma advanceRow_ahead (b : AqlItemBlock) (st : Block) (up : Upstream) :
  allJoinable -> alwaysCompiles ->
  _buffer (eb st) = [b] -> cursorJoinable (vb st) (cur st) ->
  exists st2,
    advanceRow b st = (Ok tt, st2)
    /\ scanInvariant st2
    /\ (if bool_decide (_buffer (eb st2) = []) then 0 else remaining st2) + futureOf st2 up
       = futureOf st up
    /\ _hasMore (vb st2) = _hasMore (vb st)
    /\ _inflight (vb st2) = _inflight (vb st)
    /\ _done (eb st2) = _done (eb st).
Proof.
  intros Hall Hcomp Hb Hj. unfold advanceRow.
  destruct (nrItems b <=? S (_pos (eb st))) eqn:Hle.
  - apply Nat.leb_le in Hle. eexists. split; [done|].
    unfold scanInvariant, futureOf, pendingRows. simpl. rewrite Hb. simpl.
    rewrite (rowsAfter_last b _ Hle). repeat split; try done. lia.
  - apply Nat.leb_gt in Hle.
    destruct (reset_ok (with_eb (set_pos (S (_pos (eb st))) (eb st)) st) Hcomp)
      as (st2 & Hr & He & Hcur & Hp & Hx & Hh & Hi).
    simpl in He, Hcur, Hp, Hx, Hh, Hi. rewrite Hb in Hp, Hx. simpl in Hp, Hx.
    exists st2. split; [done|]. split.
    { unfold scanInvariant. rewrite He, Hcur. simpl. rewrite Hb. simpl.
      split; [lia|]. by apply cursorJoinable_fresh. }
    split; [|by rewrite He].
    rewrite He. simpl. rewrite Hb. simpl.
    rewrite (remaining_fresh st2 _ Hcur), Hx.
    unfold futureOf, pendingRows. rewrite He. simpl. rewrite Hb, Hp.
    rewrite (rowsAfter_next b _ Hle). done.
Qed.

(** A block fetched and bound keeps every match to come ahead. *)
Lemma fetched_ahead (s : ExecutionState) (b : AqlItemBlock) (st : Block) (up : Upstream) :
  allJoinable -> alwaysCompiles -> s <> WAITING -> _buffer (eb st) = [] ->
  exists st1,
    reset (fetchedState s b st) = (Ok tt, st1)
    /\ _buffer (eb st1) = [b]
    /\ scanInvariant st1
    /\ remaining st1 + futureOf st1 up = futureOf st ((s, Some b) :: up)
    /\ _hasMore (vb st1) = _hasMore (vb st)
    /\ _inflight (vb st1) = _inflight (vb st)
    /\ _done (eb st1) = _done (eb st).
Proof.
  intros Hall Hcomp Hs Hb.
  destruct (reset_ok (fetchedState s b st) Hcomp)
    as (st1 & Hr & He & Hcur & Hp & Hx & Hh & Hi).
  simpl in He, Hcur, Hp, Hx, Hh, Hi.
  exists st1. split; [done|]. rewrite He. simpl. split; [done|]. split.
  { unfold scanInvariant. rewrite He, Hcur. simpl. split; [lia|].
    by apply cursorJoinable_fresh. }
  split; [|done].
  rewrite (remaining_fresh st1 _ Hcur), Hx.
  unfold futureOf, pendingRows. rewrite He, Hb, Hp. simpl.
  by destruct s.
Qed.


(* ------------------------------------------------------------------------- *)
(** ** skipSome reports every match ahead exactly once *)
(* ------------------------------------------------------------------------- *)

Lemma skipConserves_later (atMost : nat) (st st2 : Block) (up up2 : Upstream)
    (o : SkipSomeOutcome) :
  unreportedSkip st2 up2 = unreportedSkip st up -> length up2 <= length up ->
  skipConserves atMost st2 up2 o -> skipConserves atMost st up o.
Proof.
  intros Hu Hl (s & n & H1 & H2 & H3 & H4 & H5 & H6 & H7).
  exists s, n. split; [done|]. split; [done|]. split; [lia|]. split.
  { intros Hs. destruct (H4 Hs) as (? & ? & ?). split; [lia|done]. }
  split; [done|]. split; [done|]. lia.
Qed.

Lemma buffer_single (st : Block) :
  length (_buffer (eb st)) <= 1 -> _buffer (eb st) <> [] ->
  exists b, _buffer (eb st) = [b].
Proof.
  destruct (_buffer (eb st)) as [|b [|b' bs]]; simpl; [done| |lia]. by exists b.
Qed.

Lemma skipSome_row_conserves (again : Block -> Upstream -> option SkipSomeOutcome)
    (atMost : nat) (st : Block) (up : Upstream) (o : SkipSomeOutcome) :
  allJoinable -> alwaysCompiles ->
  scanInvariant st -> _done (eb st) = false -> _buffer (eb st) <> [] ->
  _inflight (vb st) < atMost ->
  (forall st2 o2, scanInvariant st2 -> _done (eb st2) = false ->
                  _inflight (vb st2) < atMost \/ _buffer (eb st2) <> [] ->
                  again st2 up = Some o2 -> skipConserves atMost st2 up o2) ->
  skipSome_row again atMost st up = Some o -> skipConserves atMost st up o.
Proof.
  intros Hall Hcomp [Hlen Hj] Hd Hne Hlt Hagain. unfold skipSome_row.
  destruct (buffer_single st Hlen Hne) as [b Hb]. rewrite Hb.
  pose proof (skip_frame (atMost - _inflight (vb st)) st) as [He Hv].
  pose proof (skip_count (atMost - _inflight (vb st)) st) as [Hn Hr].
  pose proof (skip_joinable (atMost - _inflight (vb st)) st Hall Hj) as Hj1.
  destruct (skip _ st) as [n st1]. simpl in He, Hv, Hn, Hr, Hj1. cbn [fst snd].
  set (st3 := with_vb (set_inflight (_inflight (vb st1) + n) (vb st1)) st1).
  assert (He3 : eb st3 = eb st) by done.
  assert (Hi3 : _inflight (vb st3) = _inflight (vb st) + n) by (simpl; by rewrite Hv).
  assert (Hr3 : remaining st3 = remaining st1) by (by apply remaining_ext).
  assert (Hf3 : futureOf st3 up = futureOf st up).
  { apply futureOf_ext; simpl; by rewrite ?He, ?Hv. }
  assert (Hj3 : cursorJoinable (vb st3) (cur st3)) by done.
  assert (Hu : unreportedSkip st up
               = remaining st + futureOf st up + _inflight (vb st)).
  { unfold unreportedSkip, aheadOfSkip. rewrite Hd. by rewrite bool_decide_eq_false_2. }
  clearbody st3. rewrite Hi3.
  destruct (_inflight (vb st) + n <? atMost) eqn:Hlt1.
  - apply Nat.ltb_lt in Hlt1.
    destruct (advanceRow_ahead b st3 up Hall Hcomp) as (st2 & -> & Hinv2 & Ha & Hh & Hi & Hd2);
      [by rewrite He3|done|].
    intros Ho.
    apply (skipConserves_later atMost st st2 up up); [|done|].
    + rewrite Hu. unfold unreportedSkip, aheadOfSkip. rewrite Hd2, He3, Hd, Ha, Hi, Hi3, Hf3.
      lia.
    + apply Hagain; try done.
      * by rewrite Hd2, He3.
      * left. lia.
  - apply Nat.ltb_ge in Hlt1. intros Ho.
    apply (skipConserves_later atMost st st3 up up); [|done|].
    + rewrite Hu. unfold unreportedSkip, aheadOfSkip. rewrite He3, Hd, Hi3, Hf3, Hr3, Hr.
      rewrite bool_decide_eq_false_2 by done. lia.
    + apply Hagain; try done.
      * split; [by rewrite He3|done].
      * by rewrite He3.
      * right. by rewrite He3.
Qed.

Lemma upstreamRows_waiting (x : option AqlItemBlock) (up : Upstream) :
  upstreamRows ((WAITING, x) :: up) = upstreamRows up.
Proof. done. Qed.

Lemma upstreamRows_no_block (s : ExecutionState) (up : Upstream) :
  s <> WAITING -> upstreamRows ((s, None) :: up) = [].
Proof. by destruct s. Qed.

(** The loop of [skipSome]: what it reports and what it leaves add up to what
    was not yet reported. *)
Lemma skipSome_loop_conserves (f : nat) (atMost : nat) (st : Block) (up : Upstream)
    (o : SkipSomeOutcome) :
  allJoinable -> alwaysCompiles ->
  scanInvariant st -> _done (eb st) = false ->
  _inflight (vb st) < atMost \/ _buffer (eb st) <> [] ->
  skipSome_loop f atMost st up = Some o -> skipConserves atMost st up o.
Proof.
  intros Hall Hcomp. revert st up o.
  induction f as [|f IH]; intros st up o Hinv Hd Hin; [done|].
  cbn [skipSome_loop].
  destruct (_inflight (vb st) <? atMost) eqn:Hlt.
  2:{ apply Nat.ltb_ge in Hlt. destruct Hin as [?|Hne]; [lia|].
      unfold reportInflight. cbn [fst snd].
      unfold getHasMoreState. cbn [eb with_eb with_vb set_scannedIndex _done _buffer].
      rewrite Hd. rewrite (bool_decide_eq_false_2 _ Hne). cbn [andb].
      intros [= <-]. exists HASMORE, (_inflight (vb st)). cbn [fst snd].
      split; [done|]. split; [by destruct Hinv|]. split; [done|]. split; [done|].
      split; [done|]. split; [done|].
      match goal with |- unreportedSkip ?s0 _ + _ = _ =>
        assert (Hr0 : remaining s0 = remaining st) by (by apply remaining_ext);
        assert (Hf0 : futureOf s0 up = futureOf st up) by (by apply futureOf_ext);
        unfold unreportedSkip, aheadOfSkip; rewrite Hr0, Hf0 end.
      simpl. rewrite Hd. lia. }
  apply Nat.ltb_lt in Hlt.
  assert (Hwait : forall x up1, _buffer (eb st) = [] -> up = (WAITING, x) :: up1 ->
            skipConserves atMost st up (Ok (WAITING, 0), st, up1)).
  { intros x up1 Hb ->. exists WAITING, 0. cbn [fst snd]. destruct Hinv.
    split; [done|]. split; [done|]. split; [simpl; lia|]. split; [simpl; by auto with lia|].
    split; [done|]. split; [done|].
    unfold unreportedSkip, aheadOfSkip, futureOf, pendingRows. rewrite Hd, Hb. simpl. lia. }
  assert (Hexh : forall s up1, _buffer (eb st) = [] -> upstreamRows up = [] ->
            length up1 <= length up ->
            skipConserves atMost st up
              (Ok (DONE, _inflight (vb st)), (reportInflight (exhaustedState s st)).2, up1)).
  { intros s up1 Hb Hup Hl. exists DONE, (_inflight (vb st)). cbn [fst snd]. destruct Hinv.
    split; [done|]. split; [done|]. split; [done|]. split; [done|].
    split; [done|]. split; [done|].
    unfold unreportedSkip, aheadOfSkip, futureOf, pendingRows. rewrite Hd, Hb, Hup. simpl.
    lia. }
  assert (Hrow : forall st1 up1, scanInvariant st1 -> _done (eb st1) = false ->
            _buffer (eb st1) <> [] -> _inflight (vb st1) < atMost ->
            unreportedSkip st1 up1 = unreportedSkip st up -> length up1 <= length up ->
            skipSome_row (skipSome_loop f atMost) atMost st1 up1 = Some o ->
            skipConserves atMost st up o).
  { intros st1 up1 Hinv1 Hd1 Hne1 Hlt1 Hu Hl Ho.
    apply (skipConserves_later atMost st st1 up up1 o Hu Hl).
    apply (skipSome_row_conserves (skipSome_loop f atMost)); try done.
    intros st2 o2 ? ? ? ?. by apply IH. }
  assert (Hblock : forall s b up1, s <> WAITING -> _buffer (eb st) = [] ->
            up = (s, Some b) :: up1 ->
            match reset (fetchedState s b st) with
            | (Throw e, st1) => Some (Throw e, st1, up1)
            | (Ok _, st1) => skipSome_row (skipSome_loop f atMost) atMost st1 up1
            end = Some o -> skipConserves atMost st up o).
  { intros s b up1 Hs Hb ->.
    destruct (fetched_ahead s b st up1 Hall Hcomp Hs Hb)
      as (st1 & -> & Hb1 & Hinv1 & Ha & Hh & Hi & Hd1).
    apply Hrow; try done.
    - congruence.
    - by rewrite Hb1.
    - lia.
    - unfold unreportedSkip, aheadOfSkip. rewrite Hd1, Hd, Hb1, Hb, Hi.
      rewrite bool_decide_eq_false_2 by done. rewrite bool_decide_eq_true_2 by done.
      lia.
    - simpl. lia. }
  fetch_cases st up Hbuf.
  - cbn [fst snd reportInflight]. intros [= <-]. by apply (Hexh DONE []).
  - match goal with |- context [fetchedState ?s ?b st] =>
      specialize (Hblock s b up); by destruct (reset (fetchedState s b st)) as [[[]|?] ?];
        apply Hblock end.
  - intros [= <-]. apply (Hexh DONE up); [done|done|simpl; lia].
  - match goal with |- context [fetchedState ?s ?b st] =>
      specialize (Hblock s b up); by destruct (reset (fetchedState s b st)) as [[[]|?] ?];
        apply Hblock end.
  - intros [= <-]. apply (Hexh HASMORE up); [done|done|simpl; lia].
  - intros [= <-]. by eapply Hwait.
  - intros [= <-]. by eapply Hwait.
  - apply Hrow; try done. by rewrite Hbuf.
Qed.


(* ------------------------------------------------------------------------- *)
(** ** getSome returns every match ahead exactly once *)
(* ------------------------------------------------------------------------- *)

Lemma getConserves_later (atMost : nat) (st st2 : Block) (up up2 : Upstream)
    (o : GetSomeOutcome) :
  unreturnedGet st2 up2 = unreturnedGet st up -> length up2 <= length up ->
  getConserves atMost st2 up2 o -> getConserves atMost st up o.
Proof.
  intros Hu Hl (s & batch & H1 & H2 & H3 & H4 & H5 & H6 & H7 & H8).
  exists s, batch. split; [done|]. split; [done|]. split; [done|]. split; [lia|]. split.
  { intros Hs. destruct (H5 Hs) as (? & ?). split; [lia|done]. }
  split; [done|]. split; [done|]. lia.
Qed.

Lemma getSome_finish_conserves (atMost : nat) (ctx : ReadContext) (st : Block)
    (up : Upstream) :
  _done (eb st) = false -> _buffer (eb st) <> [] ->
  nrItems (rc_res ctx) = atMost -> rc_pos ctx <= atMost ->
  exists b st',
    getSome_finish atMost ctx st up = (Ok (HASMORE, Some b), st', up)
    /\ nrItems b = rc_pos ctx
    /\ eb st' = set_scannedIndex (scannedIndex (eb st) + Z.of_nat (rc_pos ctx))%Z (eb st)
    /\ vb st' = vb st /\ cur st' = cur st.
Proof.
  intros Hd Hne Hn Hle. unfold getSome_finish, getHasMoreState.
  cbn [eb with_eb set_scannedIndex _done _buffer]. rewrite Hd.
  rewrite (bool_decide_eq_false_2 _ Hne). cbn [andb].
  eexists _, _. split; [done|]. split; [|done].
  simpl. destruct (rc_pos ctx <? atMost) eqn:Hlt; simpl; [done|].
  apply Nat.ltb_ge in Hlt. lia.
Qed.

Lemma getSome_row_conserves (again : Block -> Upstream -> option GetSomeOutcome)
    (k : BlockKind) (atMost : nat) (st : Block) (up : Upstream) (o : GetSomeOutcome) :
  allJoinable -> alwaysCompiles -> 0 < atMost ->
  scanInvariant st -> _done (eb st) = false -> _buffer (eb st) <> [] ->
  (forall st2 o2, scanInvariant st2 -> _done (eb st2) = false ->
                  (_buffer (eb st2) = [] -> _hasMore (vb st2) = true) ->
                  again st2 up = Some o2 -> getConserves atMost st2 up o2) ->
  getSome_row again k atMost st up = Some o -> getConserves atMost st up o.
Proof.
  intros Hall Hcomp Ha [Hlen Hj] Hd Hne Hagain. unfold getSome_row.
  destruct (buffer_single st Hlen Hne) as [b Hb]. rewrite Hb.
  destruct (_hasMore (vb st)) eqn:Hm; cbn [negb].
  - assert (Hu : unreturnedGet st up = remaining st + futureOf st up).
    { unfold unreturnedGet, aheadOfGet. rewrite Hd, Hm.
      by rewrite bool_decide_eq_false_2. }
    set (ctx0 := mkReadContext (nrInputRegisters node) 0
           (inheritRegisters b (requestBlock atMost (nrOutputRegisters node)) (_pos (eb st)))).
    pose proof (next_frame k ctx0 atMost st) as [He Hv].
    pose proof (next_nrItems k ctx0 atMost st) as Hn.
    pose proof (next_accounts k ctx0 atMost st) as (_ & _ & Hmore & Hex).
    cbv zeta in Hmore, Hex. destruct (Hex Hall Hj) as (Hpos & Hrem & Hj1). clear Hex.
    destruct (next k ctx0 atMost st) as [[more ctx'] st1].
    cbn [fst snd] in He, Hv, Hn, Hmore, Hpos, Hrem, Hj1. simpl in Hpos.
    set (st2 := with_vb (set_hasMore more (vb st1)) st1).
    assert (He2 : eb st2 = eb st) by done.
    assert (Hr2 : remaining st2 = remaining st1) by (by apply remaining_ext).
    assert (Hf2 : futureOf st2 up = futureOf st up).
    { apply futureOf_ext; simpl; by rewrite ?He, ?Hv. }
    assert (Hh2 : _hasMore (vb st2) = more) by done.
    assert (Hj2 : cursorJoinable (vb st2) (cur st2)) by done.
    clearbody st2.
    destruct (rc_pos ctx' =? 0) eqn:Hz.
    + apply Nat.eqb_eq in Hz. intros Ho.
      assert (more = false) as Hmf.
      { destruct more; [|done]. destruct Hmore as [Hmore _]. specialize (Hmore eq_refl).
        simpl in Hmore. lia. }
      apply (getConserves_later atMost st st2 up up); [|done|].
      * rewrite Hu. unfold unreturnedGet, aheadOfGet.
        rewrite He2, Hd, Hh2, Hmf, Hf2. rewrite bool_decide_eq_false_2 by done. lia.
      * apply Hagain; try done.
        -- split; [by rewrite He2|done].
        -- by rewrite He2.
        -- by rewrite He2.
    + apply Nat.eqb_neq in Hz.
      destruct (getSome_finish_conserves atMost ctx' st2 up)
        as (b' & st' & -> & Hnb & He' & Hv' & Hc'); [by rewrite He2|by rewrite He2| |lia|].
      { rewrite Hn. unfold ctx0, inheritRegisters. simpl. by rewrite copyRegs_nrItems. }
      intros [= <-]. exists HASMORE, (Some b'). cbn [fst snd batchRows].
      split; [done|]. split.
      { rewrite He', Hv', Hc'. simpl. rewrite He2. done. }
      split; [rewrite He'; simpl; by rewrite He2|]. split; [done|]. split; [done|].
      split; [done|]. split.
      { intros _. rewrite He'. simpl. rewrite He2. split; [done|lia]. }
      rewrite Hu, Hnb.
      assert (Hr' : remaining st' = remaining st2) by (apply remaining_ext; by rewrite ?Hv', ?Hc').
      assert (Hf' : futureOf st' up = futureOf st2 up).
      { apply futureOf_ext; by rewrite ?He', ?Hv'. }
      unfold unreturnedGet, aheadOfGet. rewrite Hr', Hf', Hv', Hh2, He'. simpl.
      rewrite He2, Hd, Hf2, Hr2, Hrem. rewrite bool_decide_eq_false_2 by done.
      destruct more.
      * destruct Hmore as [Hmore _]. specialize (Hmore eq_refl). simpl in Hmore. lia.
      * assert (rc_pos ctx' <> atMost).
        { intros Heq. destruct Hmore as [_ Hmore]. simpl in Hmore.
          by specialize (Hmore Heq). }
        lia.
  - assert (Hu : unreturnedGet st up = futureOf st up).
    { unfold unreturnedGet, aheadOfGet. rewrite Hd, Hm.
      by rewrite bool_decide_eq_false_2. }
    destruct (advanceRow_ahead b (with_vb (set_hasMore true (vb st)) st) up Hall Hcomp)
      as (st2 & -> & Hinv2 & Hah & Hh & Hi & Hd2); [done|done|].
    simpl in Hh, Hd2. intros Ho.
    apply (getConserves_later atMost st st2 up up); [|done|].
    + rewrite Hu. unfold unreturnedGet, aheadOfGet. rewrite Hd2, Hd, Hh.
      rewrite (futureOf_ext st (with_vb (set_hasMore true (vb st)) st) up) in Hah by done.
      rewrite <- Hah. by destruct (bool_decide _).
    + apply Hagain; try done. congruence.
Qed.

(** The loops of [getSome]: what they return and what they leave add up to
    what was not yet returned. *)
Lemma getSome_loop_conserves (f : nat) (k : BlockKind) (atMost : nat) (st : Block)
    (up : Upstream) (o : GetSomeOutcome) :
  allJoinable -> alwaysCompiles -> 0 < atMost ->
  scanInvariant st -> _done (eb st) = false ->
  (_buffer (eb st) = [] -> _hasMore (vb st) = true) ->
  getSome_loop f k atMost st up = Some o -> getConserves atMost st up o.
Proof.
  intros Hall Hcomp Ha. revert st up o.
  induction f as [|f IH]; intros st up o Hinv Hd Hhm; [done|].
  cbn [getSome_loop].
  assert (Hwait : forall x up1, _buffer (eb st) = [] -> up = (WAITING, x) :: up1 ->
            getConserves atMost st up (Ok (WAITING, None), st, up1)).
  { intros x up1 Hb ->. exists WAITING, None. cbn [fst snd batchRows]. destruct Hinv.
    split; [done|]. split; [done|]. split; [done|]. split; [simpl; lia|].
    split; [simpl; by auto with lia|]. split; [done|]. split; [done|].
    unfold unreturnedGet, aheadOfGet, futureOf, pendingRows. rewrite Hd, Hb. simpl. lia. }
  assert (Hexh : forall s up1, _buffer (eb st) = [] -> upstreamRows up = [] ->
            length up1 <= length up ->
            getConserves atMost st up (Ok (DONE, None), exhaustedState s st, up1)).
  { intros s up1 Hb Hup Hl. exists DONE, None. cbn [fst snd batchRows]. destruct Hinv.
    split; [done|]. split; [done|]. split; [by intros _; apply Hhm|]. split; [done|].
    split; [done|]. split; [done|]. split; [done|].
    unfold unreturnedGet, aheadOfGet, futureOf, pendingRows. rewrite Hd, Hb, Hup. simpl.
    lia. }
  assert (Hrow : forall st1 up1, scanInvariant st1 -> _done (eb st1) = false ->
            _buffer (eb st1) <> [] ->
            unreturnedGet st1 up1 = unreturnedGet st up -> length up1 <= length up ->
            getSome_row (getSome_loop f k atMost) k atMost st1 up1 = Some o ->
            getConserves atMost st up o).
  { intros st1 up1 Hinv1 Hd1 Hne1 Hu Hl Ho.
    apply (getConserves_later atMost st st1 up up1 o Hu Hl).
    apply (getSome_row_conserves (getSome_loop f k atMost) k); try done.
    intros st2 o2 ? ? ? ?. by apply IH. }
  assert (Hblock : forall s b up1, s <> WAITING -> _buffer (eb st) = [] ->
            up = (s, Some b) :: up1 ->
            match reset (fetchedState s b st) with
            | (Throw e, st1) => Some (Throw e, st1, up1)
            | (Ok _, st1) => getSome_row (getSome_loop f k atMost) k atMost st1 up1
            end = Some o -> getConserves atMost st up o).
  { intros s b up1 Hs Hb ->.
    destruct (fetched_ahead s b st up1 Hall Hcomp Hs Hb)
      as (st1 & -> & Hb1 & Hinv1 & Hah & Hh & Hi & Hd1).
    apply Hrow; try done.
    - congruence.
    - by rewrite Hb1.
    - unfold unreturnedGet, aheadOfGet. rewrite Hd1, Hd, Hb1, Hb, Hh, (Hhm Hb).
      rewrite bool_decide_eq_false_2 by done. rewrite bool_decide_eq_true_2 by done.
      lia.
    - simpl. lia. }
  fetch_cases st up Hbuf.
  - intros [= <-]. by apply (Hexh DONE []).
  - match goal with |- context [fetchedState ?s ?b st] =>
      specialize (Hblock s b up); by destruct (reset (fetchedState s b st)) as [[[]|?] ?];
        apply Hblock end.
  - intros [= <-]. apply (Hexh DONE up); [done|done|simpl; lia].
  - match goal with |- context [fetchedState ?s ?b st] =>
      specialize (Hblock s b up); by destruct (reset (fetchedState s b st)) as [[[]|?] ?];
        apply Hblock end.
  - intros [= <-]. apply (Hexh HASMORE up); [done|done|simpl; lia].
  - intros [= <-]. by eapply Hwait.
  - intros [= <-]. by eapply Hwait.
  - apply Hrow; try done. by rewrite Hbuf.
Qed.


(* ------------------------------------------------------------------------- *)
(** ** Calling until DONE *)
(* ------------------------------------------------------------------------- *)

Lemma getSome_conserves (k : BlockKind) (atMost : nat) (st : Block) (up : Upstream) :
  allJoinable -> alwaysCompiles -> 0 < atMost ->
  scanInvariant st -> (_buffer (eb st) = [] -> _hasMore (vb st) = true) ->
  exists o, getSome k atMost st up = Some o /\ getConserves atMost st up o.
Proof.
  intros Hall Hcomp Ha Hinv Hhm. unfold getSome. destruct (_done (eb st)) eqn:Hd.
  - eexists. split; [done|]. exists DONE, None. cbn [fst snd batchRows].
    destruct Hinv. unfold unreturnedGet. rewrite Hd. by repeat split.
  - destruct (getSome_loop_returns (2 * inputWeight st up + 2) k atMost st up Ha)
      as [o Ho].
    { unfold getSomeMeasure. destruct (_hasMore (vb st)); lia. }
    exists o. split; [done|].
    exact (getSome_loop_conserves _ k atMost st up o Hall Hcomp Ha Hinv Hd Hhm Ho).
Qed.

Lemma skipSome_conserves (atMost : nat) (st : Block) (up : Upstream) :
  allJoinable -> alwaysCompiles ->
  scanInvariant st -> _inflight (vb st) < atMost ->
  exists o, skipSome atMost st up = Some o /\ skipConserves atMost st up o.
Proof.
  intros Hall Hcomp Hinv Hlt. unfold skipSome. destruct (_done (eb st)) eqn:Hd.
  - eexists. split; [done|]. exists DONE, (_inflight (vb st)). cbn [fst snd].
    destruct Hinv. unfold unreportedSkip. simpl. rewrite Hd. repeat split; try done; lia.
  - destruct (skipSome_loop_returns (inputWeight st up + 2) atMost st up
                (skipSomeNeed_bound atMost st up)) as [o Ho].
    exists o. split; [done|].
    exact (skipSome_loop_conserves _ atMost st up o Hall Hcomp Hinv Hd (or_introl Hlt) Ho).
Qed.

(** Calling [getSome] until DONE returns every match ahead, once. *)
Lemma getSome_run_total (k : BlockKind) (atMost : nat) (m : nat) (st : Block)
    (up : Upstream) :
  allJoinable -> alwaysCompiles -> 0 < atMost ->
  unreturnedGet st up + length up < m ->
  scanInvariant st -> (_buffer (eb st) = [] -> _hasMore (vb st) = true) ->
  getSome_run m k atMost st up = Some (Ok (unreturnedGet st up)).
Proof.
  intros Hall Hcomp Ha. revert st up. induction m as [|m IH]; intros st up Hm Hinv Hhm; [lia|].
  destruct (getSome_conserves k atMost st up Hall Hcomp Ha Hinv Hhm)
    as ([[out st'] up'] & Hg & (s & batch & H1 & H2 & H3 & H4 & H5 & H6 & H7 & H8)).
  cbn [fst snd] in *. subst out. cbn [getSome_run]. rewrite Hg.
  destruct s.
  - specialize (H6 eq_refl). unfold unreturnedGet in H8 at 1. rewrite H6 in H8.
    do 2 f_equal. lia.
  - destruct (H7 eq_refl) as [_ Hrows].
    rewrite IH; [do 2 f_equal; lia|lia|done|done].
  - destruct (H5 eq_refl) as [Hlen _].
    rewrite IH; [do 2 f_equal; lia|lia|done|done].
Qed.

(** Calling [skipSome] until DONE reports every match ahead, once. *)
Lemma skipSome_run_total (atMost : nat) (m : nat) (st : Block) (up : Upstream) :
  allJoinable -> alwaysCompiles -> 0 < atMost ->
  unreportedSkip st up + length up < m ->
  scanInvariant st -> _inflight (vb st) < atMost ->
  skipSome_run m atMost st up = Some (Ok (unreportedSkip st up)).
Proof.
  intros Hall Hcomp Ha. revert st up. induction m as [|m IH]; intros st up Hm Hinv Hlt; [lia|].
  destruct (skipSome_conserves atMost st up Hall Hcomp Hinv Hlt)
    as ([[out st'] up'] & Hg & (s & n & H1 & H2 & H3 & H4 & H5 & H6 & H7)).
  cbn [fst snd] in *. subst out. cbn [skipSome_run]. rewrite Hg.
  destruct s.
  - specialize (H5 eq_refl). unfold unreportedSkip in H7 at 1. rewrite H5 in H7.
    pose proof (skipSome_reply _ _ _ _ Hg) as Hok. simpl in Hok.
    destruct Hok as (_ & Hz & _). do 2 f_equal. lia.
  - destruct (H6 eq_refl) as (_ & Hz & Hn).
    rewrite IH; [do 2 f_equal; lia|lia|done|lia].
  - destruct (H4 eq_refl) as (Hlen & Hi & _).
    rewrite IH; [do 2 f_equal; lia|lia|done|done].
Qed.

(** C3 (amended): when every match of the index joins and the predicate
    compiles for every row, calling [getSome(atMost)] until DONE returns as
    many rows in total as calling [skipSome(atMost')] until DONE reports, for
    any [atMost], [atMost'] > 0: the number of matches of the scans of all
    input rows. *)
Theorem getSome_rows_equal_skipSome_count (k : BlockKind) (atMost atMost' : nat)
    (up : Upstream) :
  allJoinable -> alwaysCompiles -> 0 < atMost -> 0 < atMost' ->
  exists total,
    total = scanTotal (compiledOf (vb (construct k))) (upstreamRows up)
    /\ forall n, total + length up < n ->
         getSome_run n k atMost (construct k) up = Some (Ok total)
         /\ skipSome_run n atMost' (construct k) up = Some (Ok total).
Proof.
  intros Hall Hcomp Ha Ha'. eexists. split; [done|]. intros n Hn.
  assert (Hinv : scanInvariant (construct k)).
  { split; [simpl; lia|]. by apply cursorJoinable_fresh. }
  assert (Hg : unreturnedGet (construct k) up
               = scanTotal (compiledOf (vb (construct k))) (upstreamRows up)) by done.
  assert (Hs : unreportedSkip (construct k) up
               = scanTotal (compiledOf (vb (construct k))) (upstreamRows up)).
  { unfold unreportedSkip, aheadOfSkip, futureOf, pendingRows. simpl. lia. }
  split.
  - rewrite <- Hg. apply getSome_run_total; try done; rewrite Hg; lia.
  - rewrite <- Hs. apply skipSome_run_total; try done; rewrite Hs; lia.
Qed.

(* ------------------------------------------------------------------------- *)
(** ** Key collection *)
(* ------------------------------------------------------------------------- *)

Lemma readPKs_loop_keys (seg slots : nat) (it : list (doc_id_t * bytes_ref)) :
  let r := readPKs_loop seg slots it in
  exists pre,
    it = pre ++ r.2
    /\ r.1 = omap (decodeKey seg) pre
    /\ (length r.1 < slots -> r.2 = [])
    /\ (length r.1 = slots -> forall pre0 x, pre = pre0 ++ [x] -> is_Some (decodeKey seg x)).
Proof.
  cbv zeta. revert slots. induction it as [|[docId scrVal] it IH]; intros slots.
  - exists []. destruct slots; simpl; repeat split; try done;
      intros _ pre0 x H; by destruct pre0.
  - destruct slots as [|slots'].
    + exists []. simpl. repeat split; try done; try lia.
      intros _ pre0 x H; by destruct pre0.
    + cbn [readPKs_loop].
      assert (Hskip : decodeKey seg (docId, scrVal) = None ->
        let r := readPKs_loop seg (S slots') it in
        exists pre,
          (docId, scrVal) :: it = pre ++ r.2
          /\ r.1 = omap (decodeKey seg) pre
          /\ (length r.1 < S slots' -> r.2 = [])
          /\ (length r.1 = S slots' ->
              forall pre0 x, pre = pre0 ++ [x] -> is_Some (decodeKey seg x))).
      { intros Hd. cbv zeta. destruct (IH (S slots')) as (pre & H1 & H2 & H3 & H4).
        exists ((docId, scrVal) :: pre). simpl. rewrite Hd.
        split; [by rewrite H1 at 1|]. split; [done|]. split; [done|].
        intros Hfull pre0 x Hp. destruct pre0 as [|y pre0].
        - simpl in Hp. injection Hp as <- Hpre. subst pre. simpl in H2. rewrite H2 in Hfull.
          simpl in Hfull. lia.
        - simpl in Hp. injection Hp as _ Hpre. by apply (H4 Hfull pre0). }
      unfold decodeKey in Hskip. simpl in Hskip.
      destruct (pkColumn seg docId) as [key|] eqn:Hk; [|by apply Hskip].
      destruct (DocumentPrimaryKey_read key) as [pk|] eqn:Hp; [|by apply Hskip].
      clear Hskip. destruct (IH slots') as (pre & H1 & H2 & H3 & H4).
      destruct (readPKs_loop seg slots' it) as [pks rest]. simpl in *.
      exists ((docId, scrVal) :: pre). simpl. unfold decodeKey at 1. simpl. rewrite Hk, Hp.
      split; [by rewrite H1 at 1|]. split; [by rewrite H2|]. split.
      * intros Hlt. apply H3. lia.
      * intros Hfull pre0 x Hpre. destruct pre0 as [|y pre0].
        -- simpl in Hpre. injection Hpre as <- _. unfold decodeKey. simpl. by rewrite Hk, Hp.
        -- simpl in Hpre. injection Hpre as _ Hpre. apply (H4 ltac:(lia) pre0 x Hpre).
Qed.

(** [readPKs] sizes the key buffer to [limit] and walks the iterator until
    the buffer is full or the iterator is exhausted: the buffer starts with
    the keys of the visited matches that have a stored, decodable key, in
    iteration order; fewer than [limit] keys means the iterator is exhausted,
    and a full buffer means the last visited match was the one that filled
    it. *)
Theorem readPKs_collects (seg : nat) (it : list (doc_id_t * bytes_ref)) (limit : nat) :
  let r := readPKs seg it limit in
  length r.1.1 = limit
  /\ r.1.2 <= limit
  /\ (r.1.2 < limit -> r.2 = [])
  /\ exists pre,
       it = pre ++ r.2
       /\ take r.1.2 r.1.1 = omap (decodeKey seg) pre
       /\ (r.1.2 = limit -> forall pre0 x, pre = pre0 ++ [x] -> is_Some (decodeKey seg x)).
Proof.
  cbv zeta.
  pose proof (readPKs_loop_length seg limit it) as Hlen.
  destruct (readPKs_loop_keys seg limit it) as (pre & H1 & H2 & H3 & H4).
  unfold readPKs. destruct (readPKs_loop seg limit it) as [pks rest]. simpl in *.
  split; [rewrite length_app, length_replicate; lia|].
  split; [done|]. split; [done|].
  exists pre. split; [done|]. split; [|done].
  by rewrite take_app_length.
Qed.

(* ------------------------------------------------------------------------- *)
(** ** Skipping: which matches are passed over *)
(* ------------------------------------------------------------------------- *)

Lemma matchesAheadIn_fresh (v : ViewBase) (off : nat) (keys : list DocumentPrimaryKey)
    (n : nat) :
  matchesAheadIn v (mkCursor None off keys) n = matchListFrom v off n.
Proof. by destruct n. Qed.

Lemma matchesAhead_length (st : Block) : length (matchesAhead st) = remaining st.
Proof.
  unfold matchesAhead, remaining.
  assert (Hfrom : forall seg n, length (matchListFrom (vb st) seg n) = matchesFrom (vb st) seg n).
  { intros seg n. revert seg. induction n as [|n IH]; intros seg; [done|].
    simpl. by rewrite length_app, length_map, IH. }
  destruct (reader_size - _readerOffset (cur st)) as [|n]; [done|].
  simpl. by rewrite length_app, length_map, Hfrom.
Qed.

Lemma skipSegments_passes (v : ViewBase) (n limit skipped : nat) (c : Cursor) :
  n = reader_size - _readerOffset c ->
  let r := skipSegments v n limit skipped c in
  matchesAheadIn v r.2 (reader_size - _readerOffset r.2) = drop limit (matchesAheadIn v c n)
  /\ _readerOffset c <= _readerOffset r.2 <= _readerOffset c + n.
Proof.
  revert limit skipped c. induction n as [|n IH]; intros limit skipped c Hn.
  - simpl. rewrite <- Hn. simpl. rewrite drop_nil. split; [done|lia].
  - cbv zeta. rewrite skipSegments_S, skipScan_count.
    destruct (limit - length (liveIterator v c) =? 0) eqn:Hz.
    + apply Nat.eqb_eq in Hz. cbn [fst snd _readerOffset]. rewrite <- Hn.
      cbn [matchesAheadIn liveIterator _itr _readerOffset].
      split; [|lia].
      rewrite drop_app_le by (rewrite length_map; lia). by rewrite skipn_map.
    + apply Nat.eqb_neq in Hz.
      destruct (IH (limit - length (liveIterator v c))
                   (skipped + Nat.min limit (length (liveIterator v c)))
                   (mkCursor None (S (_readerOffset c)) (_keys c))) as [H1 H2].
      { simpl. lia. }
      cbv zeta in H1, H2. rewrite H1. rewrite matchesAheadIn_fresh.
      cbn [matchesAheadIn _readerOffset] in *. split; [|lia].
      rewrite drop_app_ge by (rewrite length_map; lia). by rewrite length_map.
Qed.

(** [skip(limit)] (either class) passes over exactly the first [limit]
    matches ahead of the cursor, or over all of them if there are fewer, and
    reports how many these are; it consults neither the primary-key column nor
    storage, touches nothing but the cursor and never moves it back. *)
Theorem skip_passes_first_matches (limit : nat) (st : Block) :
  let r := skip limit st in
  r.1 = Nat.min limit (length (matchesAhead st))
  /\ matchesAhead r.2 = drop limit (matchesAhead st)
  /\ eb r.2 = eb st /\ vb r.2 = vb st
  /\ _readerOffset (cur st) <= _readerOffset (cur r.2)
  /\ (_readerOffset (cur st) <= reader_size -> _readerOffset (cur r.2) <= reader_size).
Proof.
  cbv zeta. rewrite matchesAhead_length.
  destruct (skip_count limit st) as [Hc _]. destruct (skip_frame limit st) as [He Hv].
  split; [done|]. split; [|split; [done|split; [done|]]].
  - unfold matchesAhead. rewrite Hv. clear Hc He Hv. unfold skip.
    pose proof (skipSegments_passes (vb st) (reader_size - _readerOffset (cur st)) limit 0
                  (cur st) eq_refl) as [H _].
    by destruct (skipSegments _ _ _ _ _) as [skipped c'].
  - unfold skip.
    pose proof (skipSegments_passes (vb st) (reader_size - _readerOffset (cur st)) limit 0
                  (cur st) eq_refl) as [_ H].
    destruct (skipSegments _ _ _ _ _) as [skipped c']. simpl in *. lia.
Qed.

(* ------------------------------------------------------------------------- *)
(** ** The rows a strategy writes *)
(* ------------------------------------------------------------------------- *)

Lemma getValueReference_setValue (b : AqlItemBlock) (i : nat) (r : RegisterId) (x : AqlValue)
    (i' : nat) (r' : RegisterId) :
  getValueReference (setValue b i r x) i' r'
  = if decide (i = i' /\ r = r') then x else getValueReference b i' r'.
Proof.
  unfold getValueReference, setValue. simpl. case_decide as H.
  - destruct H as [<- <-]. by rewrite lookup_insert_eq.
  - rewrite lookup_insert_ne; [done|]. intros [= <- <-]. by apply H.
Qed.

Ltac reg_cases :=
  repeat case_decide; simplify_eq; try done; try lia; try (f_equal; lia).

Lemma getValueReference_copyRegs (n : nat) (src : AqlItemBlock) (from : nat)
    (dst : AqlItemBlock) (to i : nat) (r : RegisterId) :
  getValueReference (copyRegs n src from dst to) i r
  = if decide (i = to /\ r < n) then getValueReference src from r
    else getValueReference dst i r.
Proof.
  induction n as [|n IH]; cbn [copyRegs].
  - reg_cases.
  - rewrite getValueReference_setValue, IH. reg_cases.
Qed.

Lemma getValueReference_copyScores (v : ViewBase) (scrVal : bytes_ref) (i0 n : nat)
    (regs : RegisterId) (row : nat) (res : AqlItemBlock) (i : nat) (r : RegisterId) :
  getValueReference (copyScores v scrVal i0 n regs row res) i r
  = if decide (i = row /\ regs < r <= regs + n)
    then order_to_string (_order v) scrVal (i0 + (r - S regs))
    else getValueReference res i r.
Proof.
  revert i0 regs res. induction n as [|n IH]; intros i0 regs res; cbn [copyScores].
  - reg_cases.
  - rewrite IH, getValueReference_setValue. reg_cases.
Qed.

Lemma getValueReference_acceptRow (ctx : ReadContext) (res : AqlItemBlock) (i : nat)
    (r : RegisterId) :
  getValueReference (rc_res (acceptRow ctx res)) i r
  = if decide (0 < rc_pos ctx /\ i = rc_pos ctx /\ r < curRegs ctx)
    then getValueReference res 0 r
    else getValueReference res i r.
Proof.
  unfold acceptRow. simpl. destruct (0 <? rc_pos ctx) eqn:Hp.
  - apply Nat.ltb_lt in Hp. unfold copyValuesFromFirstRow.
    rewrite getValueReference_copyRegs. reg_cases.
  - apply Nat.ltb_ge in Hp. reg_cases.
Qed.

Lemma rowsWritten_nil (v : ViewBase) (scored : bool) (ctx : ReadContext) :
  rowsWritten v scored ctx ctx [].
Proof. unfold rowsWritten. simpl. repeat split; try done; lia. Qed.

Lemma rowsWritten_app (v : ViewBase) (scored : bool) (ctx ctx1 ctx2 : ReadContext)
    (js1 js2 : list (VPackSlice * bytes_ref)) :
  rowsWritten v scored ctx ctx1 js1 -> rowsWritten v scored ctx1 ctx2 js2 ->
  rowsWritten v scored ctx ctx2 (js1 ++ js2).
Proof.
  intros (P1 & R1 & W1 & F1 & Z1) (P2 & R2 & W2 & F2 & Z2).
  unfold rowsWritten. rewrite length_app. split; [lia|]. split; [congruence|].
  split; [|split].
  - intros j x Hj. destruct (decide (j < length js1)) as [Hlt|Hge].
    + rewrite lookup_app_l in Hj by done. destruct (W1 j x Hj) as [[Hd Hp] Hs].
      split; [split|].
      * rewrite F2 by lia. done.
      * intros r Hr. rewrite F2 by lia. by apply Hp.
      * intros Hsc i Hi. rewrite F2 by lia. by apply Hs.
    + rewrite lookup_app_r in Hj by lia. destruct (W2 _ x Hj) as [[Hd Hp] Hs].
      replace (rc_pos ctx + j) with (rc_pos ctx1 + (j - length js1)) by lia.
      rewrite R1 in Hd, Hp, Hs. split; [split|]; [done| |done].
      intros r Hr. rewrite Hp by done. apply Z1. done.
  - intros i r Hi. rewrite F2 by lia. by apply F1.
  - intros r Hr. rewrite Z2 by (rewrite R1; done). by apply Z1.
Qed.

Ltac reg_rewrite :=
  rewrite ?getValueReference_acceptRow, ?getValueReference_copyScores,
    ?getValueReference_setValue.

(** One accepted document of the scored strategy. *)
Lemma rowsWritten_scored (v : ViewBase) (ctx : ReadContext) (doc : VPackSlice)
    (scrVal : bytes_ref) :
  let res := setValue (rc_res ctx) (rc_pos ctx) (curRegs ctx) (AqlValue_slice doc) in
  let res := copyScores v scrVal 0 (length (sortCondition node)) (curRegs ctx)
               (rc_pos ctx) res in
  rowsWritten v true ctx (acceptRow ctx res) [(doc, scrVal)].
Proof.
  cbv zeta. unfold rowsWritten. split; [simpl; lia|]. split; [done|]. split; [|split].
  - intros j x Hj. destruct j as [|j]; [|done]. injection Hj as <-. cbn [fst snd].
    rewrite Nat.add_0_r. split; [split|].
    + reg_rewrite. reg_cases.
    + intros r Hr.
      reg_rewrite. reg_cases.
    + intros _ i Hi.
      reg_rewrite. reg_cases.
  - intros i r Hi.
    reg_rewrite. reg_cases.
  - intros r Hr.
    reg_rewrite. reg_cases.
Qed.

(** One accepted document of the unordered strategy. *)
Lemma rowsWritten_unordered (v : ViewBase) (ctx : ReadContext) (doc : VPackSlice)
    (scrVal : bytes_ref) :
  let res := setValue (rc_res ctx) (rc_pos ctx) (curRegs ctx) (AqlValue_slice doc) in
  rowsWritten v false ctx (acceptRow ctx res) [(doc, scrVal)].
Proof.
  cbv zeta. unfold rowsWritten. split; [simpl; lia|]. split; [done|]. split; [|split].
  - intros j x Hj. destruct j as [|j]; [|done]. injection Hj as <-. cbn [fst snd].
    rewrite Nat.add_0_r. split; [split|done].
    + reg_rewrite. reg_cases.
    + intros r Hr.
      reg_rewrite. reg_cases.
  - intros i r Hi.
    reg_rewrite. reg_cases.
  - intros r Hr.
    reg_rewrite. reg_cases.
Qed.

Lemma omap_joinMatch_segment (seg : nat) (it : list (doc_id_t * bytes_ref)) :
  omap joinMatch (map (pair seg) it) = omap (λ x, joinMatch (seg, x)) it.
Proof.
  induction it as [|x it IH]; [done|]. cbn -[joinMatch]. by rewrite IH.
Qed.

Lemma scoredScan_rows (v : ViewBase) (seg limit : nat) (it : list (doc_id_t * bytes_ref))
    (ctx : ReadContext) :
  let r := scoredScan v seg limit it ctx in
  let js := omap (λ x, joinMatch (seg, x)) it in
  rowsWritten v true ctx r.2 (take limit js)
  /\ omap (λ x, joinMatch (seg, x)) r.1.2 = drop limit js
  /\ r.1.1 = limit - length (take limit js).
Proof.
  cbv zeta. revert limit ctx. induction it as [|[docId scrVal] it IH]; intros limit ctx.
  - destruct limit; simpl; (split; [apply rowsWritten_nil|split; [done|lia]]).
  - destruct limit as [|limit'].
    + simpl. split; [apply rowsWritten_nil|split; [done|lia]].
    + cbn [scoredScan]. cbn -[joinMatch scoredScan acceptRow copyScores setValue].
      assert (Hj : joinMatch (seg, (docId, scrVal))
                   = match readDocument seg docId with
                     | Some doc => Some (doc, scrVal)
                     | None => None
                     end) by done.
      rewrite Hj. clear Hj.
      destruct (readDocument seg docId) as [doc|] eqn:Hr.
      * destruct (IH limit' (acceptRow ctx
                   (copyScores v scrVal 0 (length (sortCondition node)) (curRegs ctx)
                      (rc_pos ctx)
                      (setValue (rc_res ctx) (rc_pos ctx) (curRegs ctx) (AqlValue_slice doc)))))
          as (H1 & H2 & H3).
        cbn [take drop length]. split; [|split; [done|simpl; lia]].
        apply (rowsWritten_app _ _ _ _ _ [(doc, scrVal)] _ (rowsWritten_scored v ctx doc scrVal) H1).
      * apply IH.
Qed.

Lemma scoredSegments_rows (v : ViewBase) (n limit : nat) (ctx : ReadContext) (c : Cursor) :
  n = reader_size - _readerOffset c ->
  let r := scoredSegments v n limit ctx c in
  let js := omap joinMatch (matchesAheadIn v c n) in
  rowsWritten v true ctx r.1.2 (take limit js)
  /\ omap joinMatch (matchesAheadIn v r.2 (reader_size - _readerOffset r.2)) = drop limit js.
Proof.
  cbv zeta. revert limit ctx c. induction n as [|n IH]; intros limit ctx c Hn.
  - simpl. rewrite <- Hn. simpl. rewrite take_nil, drop_nil.
    split; [apply rowsWritten_nil|done].
  - rewrite scoredSegments_S.
    destruct (scoredScan_rows v (_readerOffset c) limit (liveIterator v c) ctx)
      as (Hrows & Hrest & Hlim).
    pose proof (scoredScan_left v (_readerOffset c) limit (liveIterator v c) ctx)
      as (_ & _ & Hend & _ & _).
    cbv zeta in Hend.
    destruct (scoredScan v (_readerOffset c) limit (liveIterator v c) ctx)
      as [[limit' it'] ctx'].
    cbn [fst snd] in Hrows, Hrest, Hlim, Hend.
    cbn [matchesAheadIn]. rewrite omap_app, omap_joinMatch_segment.
    set (js := omap (λ x, joinMatch (_readerOffset c, x)) (liveIterator v c)) in *.
    set (later := omap joinMatch (matchListFrom v (S (_readerOffset c)) n)).
    rewrite length_take in Hlim.
    destruct (limit' =? 0) eqn:Hz.
    + apply Nat.eqb_eq in Hz. cbn [fst snd _readerOffset]. rewrite <- Hn.
      cbn [matchesAheadIn liveIterator _itr _readerOffset].
      rewrite omap_app, omap_joinMatch_segment, Hrest.
      rewrite take_app_le by lia. rewrite drop_app_le by lia. done.
    + apply Nat.eqb_neq in Hz. specialize (Hend Hz). subst it'.
      simpl in Hrest. symmetry in Hrest. apply drop_nil_inv in Hrest.
      rewrite take_ge in Hrows by done.
      destruct (IH limit' ctx' (mkCursor None (S (_readerOffset c)) (_keys c)))
        as [I1 I2]; [simpl; lia|].
      rewrite matchesAheadIn_fresh in I1, I2. fold later in I1, I2.
      split.
      * rewrite take_app_ge by done.
        replace (limit - length js) with limit' by lia.
        by apply (rowsWritten_app _ _ _ _ _ _ _ Hrows).
      * rewrite I2. rewrite drop_app_ge by done. f_equal. lia.
Qed.

(** [IResearchViewBlock::next] appends, in segment order and iteration order,
    one row for each of the first [limit] matches ahead of the cursor whose
    storage join succeeds: the document in the first output register, the
    scores in the registers after it, the pass-through registers as in row 0.
    Rows already in the batch are untouched. The matches left ahead are those
    that join to the documents after the first [limit], so successive calls
    return consecutive, non-overlapping runs; the answer is [true] exactly
    when [limit] documents were found. *)
Theorem scored_next_returns_first_joined (ctx : ReadContext) (limit : nat) (st : Block) :
  let r := IResearchViewBlock_next ctx limit st in
  let js := omap joinMatch (matchesAhead st) in
  rowsWritten (vb st) true ctx r.1.2 (take limit js)
  /\ omap joinMatch (matchesAhead r.2) = drop limit js
  /\ (r.1.1 = true <-> limit <= length js)
  /\ eb r.2 = eb st /\ vb r.2 = vb st.
Proof.
  cbv zeta.
  destruct (next_accounts Scored ctx limit st) as (_ & _ & Hflag & _).
  destruct (next_frame Scored ctx limit st) as [He Hv].
  cbn [next] in Hflag, He, Hv. unfold matchesAhead. rewrite Hv.
  unfold IResearchViewBlock_next in *.
  destruct (scoredSegments_rows (vb st) (reader_size - _readerOffset (cur st)) limit ctx
              (cur st) eq_refl) as [Hrows Hrest].
  destruct (scoredSegments _ _ _ _ _) as [[more ctx'] c']. cbn [fst snd cur] in *.
  split; [done|]. split; [done|]. split; [|done].
  rewrite Hflag. destruct Hrows as [Hpos _]. rewrite Hpos, length_take. lia.
Qed.

Lemma omap_readDocument_keys (seg : nat) (pre : list (doc_id_t * bytes_ref)) :
  omap readDocument_pk (omap (decodeKey seg) pre)
  = map fst (omap (λ x, joinMatch (seg, x)) pre).
Proof.
  induction pre as [|[docId scrVal] pre IH]; [done|].
  cbn -[joinMatch decodeKey readDocument_pk].
  unfold joinMatch at 1, decodeKey at 1, readDocument. cbn [fst snd].
  destruct (pkColumn seg docId) as [key|]; [|done].
  destruct (DocumentPrimaryKey_read key) as [pk|]; [|done].
  cbn -[joinMatch decodeKey readDocument_pk].
  destruct (readDocument_pk pk) as [doc|]; [|done].
  cbn -[joinMatch decodeKey readDocument_pk]. by rewrite IH.
Qed.

Lemma joinKeys_rows (v : ViewBase) (pks : list DocumentPrimaryKey) (limit : nat)
    (ctx : ReadContext) (js : list (VPackSlice * bytes_ref)) :
  map fst js = omap readDocument_pk pks ->
  rowsWritten v false ctx (joinKeys pks limit ctx).2 js
  /\ (joinKeys pks limit ctx).1 = limit - length js.
Proof.
  revert limit ctx js. induction pks as [|pk pks IH]; intros limit ctx js Hjs.
  - destruct js; [|done]. simpl. split; [apply rowsWritten_nil|lia].
  - cbn -[readDocument_pk] in Hjs. cbn [joinKeys].
    destruct (readDocument_pk pk) as [doc|].
    + destruct js as [|[d s] js]; [done|]. simpl in Hjs. injection Hjs as -> Hjs.
      destruct (IH (limit - 1)
                  (acceptRow ctx (setValue (rc_res ctx) (rc_pos ctx) (curRegs ctx)
                                    (AqlValue_slice doc))) js Hjs) as [H1 H2].
      split; [|simpl; lia].
      apply (rowsWritten_app _ _ _ _ _ [(doc, s)] _ (rowsWritten_unordered v ctx doc s) H1).
    + by apply IH.
Qed.

Lemma omap_cons_case {A B : Type} (f : A -> option B) (x : A) (l : list A) :
  omap f (x :: l) = match f x with Some y => y :: omap f l | None => omap f l end.
Proof. done. Qed.

Lemma omap_length_le {A B : Type} (f : A -> option B) (l : list A) :
  length (omap f l) <= length l.
Proof.
  induction l as [|x l IH]; [done|]. rewrite omap_cons_case.
  destruct (f x); simpl; lia.
Qed.

Lemma omap_length_all {A B : Type} (f : A -> option B) (l : list A) :
  Forall (λ x, is_Some (f x)) l -> length (omap f l) = length l.
Proof.
  induction 1 as [|x l [y Hy] _ IH]; [done|]. rewrite omap_cons_case, Hy. simpl.
  by rewrite IH.
Qed.

Lemma Forall_segment (P : SegMatch -> Prop) (seg : nat) (it : list (doc_id_t * bytes_ref)) :
  Forall P (map (pair seg) it) -> Forall (λ x, P (seg, x)) it.
Proof.
  induction it as [|x it IH]; [done|]. simpl. intros H.
  apply Forall_cons in H as [H1 H2]. apply Forall_cons. split; [done|by apply IH].
Qed.

Lemma unorderedSegments_rows (v : ViewBase) (n limit : nat) (ctx : ReadContext) (c : Cursor) :
  n = reader_size - _readerOffset c ->
  let r := unorderedSegments v n limit ctx c in
  let all := omap joinMatch (matchesAheadIn v c n) in
  exists js,
    rowsWritten v false ctx r.1.2 js
    /\ js `sublist_of` all
    /\ length js <= limit
    /\ (Forall (λ m, is_Some (joinMatch m)) (matchesAheadIn v c n) ->
        js = take limit all
        /\ omap joinMatch (matchesAheadIn v r.2 (reader_size - _readerOffset r.2))
           = drop limit all).
Proof.
  cbv zeta. revert limit ctx c. induction n as [|n IH]; intros limit ctx c Hn.
  - exists []. simpl. rewrite <- Hn. simpl. rewrite take_nil, drop_nil.
    split; [apply rowsWritten_nil|]. split; [done|]. split; [lia|done].
  - rewrite unorderedSegments_S.
    destruct (readPKs_accepted (_readerOffset c) (liveIterator v c) limit) as [Ht Hrest].
    pose proof (readPKs_loop_length (_readerOffset c) limit (liveIterator v c)) as Hlen.
    destruct (readPKs_loop_keys (_readerOffset c) limit (liveIterator v c))
      as (pre & Hsplit & Hpks & Hend & _).
    destruct (readPKs _ _ _) as [[keys accepted] it']. simpl in Ht, Hrest. rewrite Ht.
    destruct (readPKs_loop (_readerOffset c) limit (liveIterator v c)) as [pks rest].
    cbn [fst snd] in Hlen, Hsplit, Hpks, Hend, Hrest. subst it'. cbn [fst].
    set (js1 := omap (λ x, joinMatch (_readerOffset c, x)) pre).
    assert (Hfst : map fst js1 = omap readDocument_pk pks).
    { by rewrite Hpks, omap_readDocument_keys. }
    destruct (joinKeys_rows v pks limit ctx js1 Hfst) as [Hrows Hlim].
    assert (Hjl : length js1 <= length pks).
    { rewrite <- (length_map fst js1), Hfst. apply omap_length_le. }
    destruct (joinKeys pks limit ctx) as [limit' ctx']. cbn [fst snd] in Hrows, Hlim.
    cbn [matchesAheadIn]. rewrite omap_app, omap_joinMatch_segment, Hsplit, omap_app.
    fold js1.
    set (js1' := omap (λ x, joinMatch (_readerOffset c, x)) rest).
    set (later := omap joinMatch (matchListFrom v (S (_readerOffset c)) n)).
    destruct (limit' =? 0) eqn:Hz.
    + apply Nat.eqb_eq in Hz. exists js1. cbn [fst snd _readerOffset]. rewrite <- Hn.
      cbn [matchesAheadIn liveIterator _itr _readerOffset].
      rewrite omap_app, omap_joinMatch_segment. fold js1' later.
      split; [done|]. split; [by do 2 apply sublist_inserts_r|]. split; [lia|].
      intros _. rewrite <- app_assoc.
      rewrite take_app_length' by lia. rewrite drop_app_length' by lia. done.
    + apply Nat.eqb_neq in Hz.
      destruct (IH limit' ctx' (mkCursor None (S (_readerOffset c)) keys))
        as (js2 & I1 & I2 & I3 & I4); [simpl; lia|].
      rewrite matchesAheadIn_fresh in I2, I4. fold later in I2, I4.
      exists (js1 ++ js2).
      split; [by apply (rowsWritten_app _ _ _ _ _ _ _ Hrows)|].
      split; [apply sublist_app; [by apply sublist_inserts_r|done]|].
      split; [rewrite length_app; lia|].
      intros Hall. apply Forall_app in Hall as [Hlive Hlater].
      apply Forall_segment in Hlive.
      apply Forall_app in Hlive as [Hpre _].
      assert (Hj1 : length js1 = length pre) by (by apply omap_length_all).
      assert (Hpl : length pks <= length pre) by (rewrite Hpks; apply omap_length_le).
      assert (rest = []) as Hnil by (apply Hend; lia).
      subst js1'. rewrite Hnil. cbn [omap list_omap]. rewrite app_nil_r.
      destruct (I4 Hlater) as [J1 J2].
      split.
      * rewrite take_app_ge by lia. rewrite J1. do 2 f_equal. lia.
      * rewrite J2. rewrite drop_app_ge by lia. f_equal. lia.
Qed.

(** [IResearchViewUnorderedBlock::next], when every match ahead of the cursor
    can be joined, appends one row for each of the first [limit] matches
    ahead, in segment order and iteration order (document and pass-through
    registers, no scores), leaves the matches after them ahead, and answers
    [true] exactly when there were [limit] matches. *)
Theorem unordered_next_returns_first_joined (ctx : ReadContext) (limit : nat) (st : Block) :
  Forall (λ m, is_Some (joinMatch m)) (matchesAhead st) ->
  let r := IResearchViewUnorderedBlock_next ctx limit st in
  let js := omap joinMatch (matchesAhead st) in
  rowsWritten (vb st) false ctx r.1.2 (take limit js)
  /\ omap joinMatch (matchesAhead r.2) = drop limit js
  /\ length js = length (matchesAhead st)
  /\ (r.1.1 = true <-> limit <= length (matchesAhead st)).
Proof.
  intros Hall. cbv zeta.
  destruct (next_accounts Unordered ctx limit st) as (_ & _ & Hflag & _).
  destruct (next_frame Unordered ctx limit st) as [_ Hv].
  cbn [next] in Hflag, Hv. rewrite <- (omap_length_all joinMatch _ Hall).
  unfold matchesAhead in *. rewrite Hv.
  unfold IResearchViewUnorderedBlock_next in *.
  destruct (unorderedSegments_rows (vb st) (reader_size - _readerOffset (cur st)) limit ctx
              (cur st) eq_refl) as (js & Hrows & _ & _ & Hex).
  destruct (Hex Hall) as [-> Hrest].
  destruct (unorderedSegments _ _ _ _ _) as [[more ctx'] c']. cbn [fst snd cur] in *.
  split; [done|]. split; [done|]. split; [done|].
  rewrite Hflag. destruct Hrows as [Hpos _]. rewrite Hpos, length_take. lia.
Qed.

(** The rows of [next], for either strategy. *)
Lemma next_rows_joined (k : BlockKind) (ctx : ReadContext) (limit : nat)
    (st : Block) :
  let r := next k ctx limit st in
  exists js,
    rowsWritten (vb st) (match k with Scored => true | Unordered => false end) ctx r.1.2 js
    /\ js `sublist_of` omap joinMatch (matchesAhead st)
    /\ length js <= limit
    /\ (r.1.1 = true <-> length js = limit)
    /\ nrItems (rc_res r.1.2) = nrItems (rc_res ctx)
    /\ eb r.2 = eb st /\ vb r.2 = vb st.
Proof.
  cbv zeta.
  destruct (next_accounts k ctx limit st) as (_ & _ & Hflag & _).
  destruct (next_frame k ctx limit st) as [He Hv].
  pose proof (next_nrItems k ctx limit st) as Hn.
  assert (exists js,
    rowsWritten (vb st) (match k with Scored => true | Unordered => false end) ctx
      (next k ctx limit st).1.2 js
    /\ js `sublist_of` omap joinMatch (matchesAhead st)
    /\ length js <= limit) as (js & Hrows & Hsub & Hlen).
  { destruct k; cbn [next].
    - unfold IResearchViewBlock_next, matchesAhead.
      destruct (scoredSegments_rows (vb st) (reader_size - _readerOffset (cur st)) limit
                  ctx (cur st) eq_refl) as (Hrows & _).
      exists (take limit (omap joinMatch (matchesAheadIn (vb st) (cur st)
                                           (reader_size - _readerOffset (cur st))))).
      split; [|split; [apply sublist_take|rewrite length_take; lia]].
      by destruct (scoredSegments _ _ _ _ _) as [[more ctx'] c'].
    - unfold IResearchViewUnorderedBlock_next, matchesAhead.
      destruct (unorderedSegments_rows (vb st) (reader_size - _readerOffset (cur st)) limit
                  ctx (cur st) eq_refl) as (js & Hrows & Hsub & Hlen & _).
      exists js. by destruct (unorderedSegments _ _ _ _ _) as [[more ctx'] c']. }
  exists js. split; [done|]. split; [done|]. split; [done|].
  split; [|done]. rewrite Hflag. destruct Hrows as [Hpos _]. rewrite Hpos. lia.
Qed.

(** Whatever the storage holds, the rows [next] appends (either strategy) are
    joined matches ahead of the cursor, each at most once and in the order of
    the index: no row without a stored document, none twice, none out of
    order, at most [limit] of them; the answer is [true] exactly when there
    are [limit]. [next] touches the read cursor and the batch only and does
    not resize the batch. *)
Theorem next_rows_are_joined_matches (k : BlockKind) (ctx : ReadContext) (limit : nat)
    (st : Block) :
  let r := next k ctx limit st in
  exists js,
    rowsWritten (vb st) (match k with Scored => true | Unordered => false end) ctx r.1.2 js
    /\ js `sublist_of` omap joinMatch (matchesAhead st)
    /\ length js <= limit
    /\ (r.1.1 = true <-> length js = limit)
    /\ nrItems (rc_res r.1.2) = nrItems (rc_res ctx)
    /\ eb r.2 = eb st /\ vb r.2 = vb st.
Proof. apply next_rows_joined. Qed.

(* ------------------------------------------------------------------------- *)
(** ** What a completed reset compiles *)
(* ------------------------------------------------------------------------- *)

Lemma compileOrder_declared (c : ViewExpressionContext) (sorts : list SortElement)
    (acc order : irs_order) :
  compileOrder c sorts acc = Some order ->
  exists new,
    order = acc ++ new
    /\ Forall2 (λ s o, o.1 = sort_asc s /\ OrderFactory_scorer (sort_node s) c = Some o.2)
         sorts new.
Proof.
  revert acc. induction sorts as [|s sorts IH]; intros acc; simpl.
  - intros [= <-]. exists []. by rewrite app_nil_r.
  - destruct (OrderFactory_scorer (sort_node s) c) as [scorer|] eqn:Hs; [|done].
    intros H. apply IH in H as (new & -> & Hall).
    exists ((sort_asc s, scorer) :: new). rewrite <- app_assoc. split; [done|].
    by apply Forall2_cons.
Qed.

(** A completed [IResearchViewBlockBase::reset] with a volatile filter binds
    the row context to the current input row, translates the filter
    condition for it and, when the sort is volatile, replaces the order by one
    scorer per sort element, in declared order and with the declared
    direction, each compiled for that row; otherwise the order is kept. The
    filter is prepared with the resulting order. The flags become those of the
    plan node. Nothing else changes. *)
Theorem reset_compiles_in_declared_order (st st' : Block) :
  _volatileFilter (vb st) = true ->
  IResearchViewBlockBase_reset st = (Ok tt, st') ->
  let c := mkCtx (head (_buffer (eb st))) (_pos (eb st)) in
  _ctx (vb st') = c
  /\ (exists root, FilterFactory_filter c (filterCondition node) = Some root
                   /\ _filter (vb st') = prepared_filter root (_order (vb st')))
  /\ (if _volatileSort (vb st)
      then Forall2 (λ s o, o.1 = sort_asc s
                           /\ OrderFactory_scorer (sort_node s) c = Some o.2)
             (sortCondition node) (_order (vb st'))
      else _order (vb st') = _order (vb st))
  /\ _volatileSort (vb st') = (volatility node).2
  /\ _volatileFilter (vb st') = (volatility node).2 || (volatility node).1
  /\ eb st' = eb st /\ cur st' = cur st
  /\ _inflight (vb st') = _inflight (vb st) /\ _hasMore (vb st') = _hasMore (vb st).
Proof.
  intros Hvf. cbv zeta. unfold IResearchViewBlockBase_reset.
  cbn [vb with_vb set_ctx _volatileFilter _volatileSort _order]. rewrite Hvf.
  destruct (FilterFactory_filter _ _) as [root|] eqn:Hf; [|done].
  destruct (_volatileSort (vb st)) eqn:Hvs.
  - destruct (compileOrder _ _ []) as [order|] eqn:Ho; [|done].
    intros [= <-]. simpl. apply compileOrder_declared in Ho as (new & -> & Hall).
    split; [done|]. split; [by exists root|]. by repeat split.
  - intros [= <-]. simpl. split; [done|]. split; [by exists root|]. by repeat split.
Qed.

(** The first [IResearchViewBlockBase::reset] of an operator, on the first row
    of the first input block. The scored class compiles the filter and every
    scorer and fails if any of them fails. The unordered class starts with the
    sort flag cleared: its first [reset] succeeds as soon as the filter
    translates, compiles no scorer and leaves the order empty. Either class
    then takes the flags of the plan node, so with a plan whose sort is
    volatile the unordered class does compile the scorers at its later resets
    and fails when one of them does not compile. *)
Theorem first_reset_by_class (s : ExecutionState) (b : AqlItemBlock) :
  let c := mkCtx (Some b) 0 in
  let first k := IResearchViewBlockBase_reset (fetchedState s b (construct k)) in
  ((first Scored).1 = Ok tt
   <-> is_Some (FilterFactory_filter c (filterCondition node))
       /\ is_Some (compileOrder c (sortCondition node) []))
  /\ ((first Unordered).1 = Ok tt
      <-> is_Some (FilterFactory_filter c (filterCondition node)))
  /\ ((first Unordered).1 = Ok tt -> _order (vb (first Unordered).2) = [])
  /\ (forall k, (first k).1 = Ok tt ->
        _volatileSort (vb (first k).2) = (volatility node).2
        /\ _volatileFilter (vb (first k).2) = (volatility node).2 || (volatility node).1)
  /\ (forall st2 x,
        vb st2 = vb (first Unordered).2 -> (first Unordered).1 = Ok tt ->
        (volatility node).2 = true ->
        x ∈ sortCondition node ->
        OrderFactory_scorer (sort_node x)
          (mkCtx (head (_buffer (eb st2))) (_pos (eb st2))) = None ->
        (IResearchViewBlockBase_reset st2).1 = Throw TRI_ERROR_BAD_PARAMETER).
Proof.
  cbv zeta. split; [|split; [|split; [|split]]].
  5:{ intros st2 x Hvb Hok Hvol Hin Hfail.
      destruct (base_reset_throws st2) as [Hthrow _]. cbv zeta in Hthrow.
      rewrite Hthrow; [done|]. rewrite Hvb. clear Hthrow.
      revert Hok. unfold fetchedState, construct, IResearchViewBlockBase_reset.
      cbn [vb eb with_vb with_eb set_ctx _volatileFilter _volatileSort _order _buffer _pos
           head].
      destruct (FilterFactory_filter _ _) as [root|]; [|done].
      simpl. rewrite Hvol. intros _. split; [done|].
      right. split; [done|]. by exists x. }
  all: unfold fetchedState, construct, IResearchViewBlockBase_reset;
    cbn [vb eb with_vb with_eb set_ctx _volatileFilter _volatileSort _order _buffer _pos head].
  - destruct (FilterFactory_filter _ _) as [root|]; [|split; [done|by intros [[? ?] _]]].
    destruct (compileOrder _ _ []) as [order|].
    + simpl. split; [by split|done].
    + simpl. split; [done|]. by intros [_ [? ?]].
  - destruct (FilterFactory_filter _ _) as [root|]; simpl; [done|].
    split; [done|by intros [? ?]].
  - by destruct (FilterFactory_filter _ _) as [root|].
  - intros k. destruct k; cbn [vb eb with_vb set_ctx _volatileFilter _volatileSort _order];
      destruct (FilterFactory_filter _ _) as [root|]; try done.
    by destruct (compileOrder _ _ []) as [order|].
Qed.

(* ------------------------------------------------------------------------- *)
(** ** What the calls keep *)
(* ------------------------------------------------------------------------- *)

Lemma reset_keeps (st : Block) :
  eb (reset st).2 = eb st
  /\ _inflight (vb (reset st).2) = _inflight (vb st)
  /\ _hasMore (vb (reset st).2) = _hasMore (vb st)
  /\ (_volatileFilter (vb st) = false ->
      (reset st).1 = Ok tt /\ compiledOf (vb (reset st).2) = compiledOf (vb st)).
Proof.
  destruct (reset_frame st) as (He & Hi & Hh). split; [done|]. split; [done|].
  split; [done|]. intros Hvf.
  unfold reset, IResearchViewBlockBase_reset.
  cbn [vb with_vb set_ctx _volatileFilter]. by rewrite Hvf.
Qed.

Lemma advanceRow_keeps (b : AqlItemBlock) (st : Block) :
  scannedIndex (eb (advanceRow b st).2) = scannedIndex (eb st)
  /\ _inflight (vb (advanceRow b st).2) = _inflight (vb st)
  /\ length (_buffer (eb (advanceRow b st).2)) <= length (_buffer (eb st))
  /\ (_volatileFilter (vb st) = false ->
      (advanceRow b st).1 = Ok tt
      /\ compiledOf (vb (advanceRow b st).2) = compiledOf (vb st))
  /\ _hasMore (vb (advanceRow b st).2) = _hasMore (vb st).
Proof.
  destruct (advanceRow_stats b st) as (Hs & _ & _ & Hi). split; [done|]. split; [done|].
  unfold advanceRow. destruct (nrItems b <=? S (_pos (eb st))).
  - simpl. split; [|done]. destruct (_buffer (eb st)); simpl; lia.
  - match goal with |- context [reset ?s] =>
      destruct (reset_keeps s) as (He & _ & Hh & Hnv) end.
    rewrite He. simpl. split; [done|]. done.
Qed.

Lemma getSomeKeeps_later (st st1 : Block) (up up1 : Upstream) (o : GetSomeOutcome) :
  (exists used, up = used ++ up1) ->
  scannedIndex (eb st1) = scannedIndex (eb st) ->
  _inflight (vb st1) = _inflight (vb st) ->
  (length (_buffer (eb st)) <= 1 -> length (_buffer (eb st1)) <= 1) ->
  (_volatileFilter (vb st) = false -> compiledOf (vb st1) = compiledOf (vb st)) ->
  getSomeKeeps st1 up1 o -> getSomeKeeps st up o.
Proof.
  intros (used & ->) Hs Hi Hb Hc ((used1 & ->) & K2 & K3 & K4 & K5).
  split; [exists (used ++ used1); by rewrite app_assoc|].
  split; [by rewrite K2, Hs|]. split; [by rewrite K3|]. split; [auto|].
  intros Hvf. specialize (Hc Hvf).
  assert (_volatileFilter (vb st1) = false) as Hvf1.
  { change (c_volatileFilter (compiledOf (vb st1)) = false). by rewrite Hc. }
  destruct (K5 Hvf1) as [K6 K7]. split; [by rewrite K6|done].
Qed.

Lemma getSome_row_keeps (again : Block -> Upstream -> option GetSomeOutcome)
    (k : BlockKind) (atMost : nat) (st : Block) (up : Upstream) (o : GetSomeOutcome) :
  (forall st1 up1 o1, again st1 up1 = Some o1 -> getSomeKeeps st1 up1 o1) ->
  getSome_row again k atMost st up = Some o -> getSomeKeeps st up o.
Proof.
  intros Hagain. unfold getSome_row.
  destruct (_buffer (eb st)) as [|b bs] eqn:Hb; [done|].
  destruct (_hasMore (vb st)) eqn:Hm; cbn [negb].
  - match goal with |- context [next k ?c atMost st] =>
      pose proof (next_frame k c atMost st) as [He Hv];
      pose proof (next_nrItems k c atMost st) as Hn;
      destruct (next_rows_joined k c atMost st) as (js & (Hpos & _) & _ & Hlen & _);
      destruct (next k c atMost st) as [[more ctx'] st1] end.
    cbn [fst snd] in He, Hv, Hn, Hpos, Hlen. cbn [rc_pos rc_res] in Hpos, Hn.
    destruct (rc_pos ctx' =? 0) eqn:Hz.
    + intros H. apply Hagain in H. revert H. apply getSomeKeeps_later.
      * by exists [].
      * simpl. by rewrite He.
      * simpl. by rewrite Hv.
      * simpl. by rewrite He.
      * intros _. simpl. by rewrite Hv.
    + intros [= <-]. unfold getSome_finish.
      match goal with |- context [getHasMoreState ?s] =>
        destruct (getHasMoreState_cases s) as (_ & Gv & _ & Gs & Gb);
        destruct (getHasMoreState s) as [state st2] end.
      cbn [fst snd] in *. unfold getSomeKeeps. cbn [fst snd replyRows batchRows].
      split; [by exists []|]. rewrite Gs, Gv, Gb. simpl. rewrite He, Hv.
      split.
      * f_equal. f_equal. unfold clearRegisters. simpl.
        destruct (rc_pos ctx' <? atMost) eqn:Hlt; simpl; [done|].
        apply Nat.ltb_ge in Hlt. rewrite Hn. unfold inheritRegisters.
        rewrite copyRegs_nrItems. simpl. lia.
      * split; [done|]. split; [done|]. intros _. split; [done|]. by eexists.
  - match goal with |- context [advanceRow b ?s] =>
      destruct (advanceRow_keeps b s) as (As & Ai & Ab & Anv & _);
      destruct (advanceRow b s) as [[[]|e] st1] end; cbn [fst snd] in *.
    + intros H. apply Hagain in H. revert H. apply getSomeKeeps_later; try done.
      * by exists [].
      * simpl in Ab. lia.
      * intros Hvf. by destruct (Anv Hvf).
    + intros [= <-]. unfold getSomeKeeps. cbn [fst snd replyRows].
      split; [by exists []|]. split; [rewrite As; simpl; lia|]. split; [done|].
      split; [simpl in Ab; lia|]. intros Hvf. by destruct (Anv Hvf).
Qed.

Lemma fetchIfEmpty_keeps (atMost : nat) (st : Block) (up : Upstream) :
  fetchKeeps st up (fetchIfEmpty atMost st up).
Proof.
  assert (Hex : forall s up1 used, _buffer (eb st) = [] -> up = used ++ up1 ->
            fetchKeeps st up (FetchExhausted (exhaustedState s st) up1)).
  { intros s up1 used Hb ->. unfold fetchKeeps, exhaustedState. simpl. rewrite Hb.
    repeat split; try done. by exists used. }
  assert (Hbl : forall s b up1, _buffer (eb st) = [] -> up = (s, Some b) :: up1 ->
            fetchKeeps st up
              match reset (fetchedState s b st) with
              | (Throw e, st') => FetchThrow e st' up1
              | (Ok _, st') => FetchReady st' up1
              end).
  { intros s b up1 Hb ->.
    destruct (reset_keeps (fetchedState s b st)) as (He & Hi & Hh & Hnv).
    pose proof (reset_throws (fetchedState s b st)) as [_ Hth]. cbv zeta in Hth.
    destruct (reset (fetchedState s b st)) as [[[]|e] st1]; cbn [fst snd] in *.
    - unfold fetchKeeps. rewrite He. simpl.
      split; [|done]. split; [by exists [(s, Some b)]|]. split; [done|].
      split; [done|]. split; [done|]. split; [lia|]. intros Hvf. by destruct (Hnv Hvf).
    - unfold fetchKeeps. rewrite He. simpl.
      destruct (Hth e st1 eq_refl) as (_ & _ & Hvf & _).
      split; [|done]. split; [by exists [(s, Some b)]|]. split; [done|].
      split; [done|]. split; [done|]. split; [lia|]. intros Hvf'. simpl in Hvf. congruence. }
  fetch_cases st up Hbuf.
  - by apply (Hex DONE [] []).
  - by apply Hbl.
  - by apply (Hex _ _ [(DONE, None)]).
  - by apply Hbl.
  - by apply (Hex _ _ [(HASMORE, None)]).
  - unfold fetchKeeps. repeat split; try done. by eexists.
  - unfold fetchKeeps. repeat split; try done. by eexists.
  - unfold fetchKeeps. rewrite Hbuf. repeat split; try done. by exists [].
Qed.

Lemma getSome_loop_keeps (f : nat) (k : BlockKind) (atMost : nat) (st : Block)
    (up : Upstream) (o : GetSomeOutcome) :
  getSome_loop f k atMost st up = Some o -> getSomeKeeps st up o.
Proof.
  revert st up o. induction f as [|f IH]; intros st up o; [done|].
  cbn [getSome_loop]. pose proof (fetchIfEmpty_keeps atMost st up) as Hf.
  destruct (fetchIfEmpty atMost st up) as [s st1 up1|st1 up1|e st1 up1|st1 up1];
    unfold fetchKeeps in Hf.
  - destruct Hf as (-> & -> & _ & x & ->). intros [= <-]. unfold getSomeKeeps. simpl.
    split; [by exists [(WAITING, x)]|]. split; [lia|]. split; [done|]. split; [done|].
    intros _. split; [done|]. by eexists.
  - destruct Hf as ((Hu & Hs & Hi & _ & Hb & Hc) & _). intros [= <-].
    unfold getSomeKeeps. simpl. split; [done|]. split; [lia|]. split; [done|].
    split; [done|]. intros Hvf. split; [auto|]. by eexists.
  - destruct Hf as ((Hu & Hs & Hi & _ & Hb & Hc) & Hvf). intros [= <-].
    unfold getSomeKeeps. simpl. split; [done|]. split; [lia|]. split; [done|].
    split; [done|]. intros Hvf'. congruence.
  - destruct Hf as ((Hu & Hs & Hi & _ & Hb & Hc) & _). intros H.
    apply (getSome_row_keeps _ _ _ _ _ _ (IH)) in H. revert H.
    by apply getSomeKeeps_later.
Qed.

(** A [getSome] call consumes upstream replies in order from the front of the
    script, adds exactly the number of rows it returns to the scanned-index
    statistic (nothing when it returns no batch or raises), never touches the
    in-flight skip counter, and never holds more than one input block. *)
Theorem getSome_counts_returned_rows (k : BlockKind) (atMost : nat) (st st' : Block)
    (up up' : Upstream) (r : Result (ExecutionState * option AqlItemBlock)) :
  getSome k atMost st up = Some (r, st', up') ->
  (exists used, up = used ++ up')
  /\ scannedIndex (eb st') = (scannedIndex (eb st) + Z.of_nat (replyRows r))%Z
  /\ _inflight (vb st') = _inflight (vb st)
  /\ (length (_buffer (eb st)) <= 1 -> length (_buffer (eb st')) <= 1).
Proof.
  unfold getSome. destruct (_done (eb st)).
  - intros [= <- <- <-]. simpl. split; [by exists []|]. split; [lia|done].
  - intros H. apply getSome_loop_keeps in H as (H1 & H2 & H3 & H4 & _). done.
Qed.

Lemma skipSomeKeeps_later (atMost : nat) (st st1 : Block) (up up1 : Upstream)
    (o : SkipSomeOutcome) :
  (exists used, up = used ++ up1) ->
  _hasMore (vb st1) = _hasMore (vb st) ->
  (length (_buffer (eb st)) <= 1 -> length (_buffer (eb st1)) <= 1) ->
  (_inflight (vb st) <= atMost -> _inflight (vb st1) <= atMost) ->
  (_volatileFilter (vb st) = false -> compiledOf (vb st1) = compiledOf (vb st)) ->
  skipSomeKeeps atMost st1 up1 o -> skipSomeKeeps atMost st up o.
Proof.
  intros (used & ->) Hh Hb Hi Hc ((used1 & ->) & K2 & K3 & K4 & K5).
  split; [exists (used ++ used1); by rewrite app_assoc|].
  split; [by rewrite K2|]. split; [auto|]. split; [auto|].
  intros Hvf. specialize (Hc Hvf).
  assert (_volatileFilter (vb st1) = false) as Hvf1.
  { change (c_volatileFilter (compiledOf (vb st1)) = false). by rewrite Hc. }
  destruct (K5 Hvf1) as [K6 K7]. split; [by rewrite K6|done].
Qed.

Lemma skipSome_row_keeps (again : Block -> Upstream -> option SkipSomeOutcome)
    (atMost : nat) (st : Block) (up : Upstream) (o : SkipSomeOutcome) :
  (forall st1 up1 o1, again st1 up1 = Some o1 -> skipSomeKeeps atMost st1 up1 o1) ->
  skipSome_row again atMost st up = Some o -> skipSomeKeeps atMost st up o.
Proof.
  intros Hagain. unfold skipSome_row.
  destruct (_buffer (eb st)) as [|b bs] eqn:Hb; [done|].
  pose proof (skip_frame (atMost - _inflight (vb st)) st) as [He Hv].
  destruct (skip_count (atMost - _inflight (vb st)) st) as [Hn _].
  destruct (skip _ st) as [n st1]. cbn [fst snd] in He, Hv, Hn.
  cbn [vb with_vb set_inflight _inflight]. rewrite Hv.
  destruct (_inflight (vb st) + n <? atMost) eqn:Hlt.
  - apply Nat.ltb_lt in Hlt.
    match goal with |- context [advanceRow b ?s] =>
      destruct (advanceRow_keeps b s) as (As & Ai & Ab & Anv & Ah);
      destruct (advanceRow b s) as [[[]|e] st2] end;
      cbn [fst snd] in *; simpl in As, Ai, Ab, Anv, Ah; rewrite He in Ab.
    + intros H. apply Hagain in H. revert H. apply skipSomeKeeps_later.
      * by exists [].
      * done.
      * lia.
      * intros Hle. lia.
      * intros Hvf. by destruct (Anv Hvf).
    + intros [= <-]. unfold skipSomeKeeps. cbn [fst snd].
      split; [by exists []|]. split; [done|]. split; [lia|].
      split; [split; [lia|done]|]. intros Hvf. by destruct (Anv Hvf).
  - intros H. apply Hagain in H. revert H. apply skipSomeKeeps_later.
    + by exists [].
    + done.
    + simpl. by rewrite He.
    + simpl. lia.
    + done.
Qed.

Lemma skipSome_loop_keeps (f : nat) (atMost : nat) (st : Block) (up : Upstream)
    (o : SkipSomeOutcome) :
  skipSome_loop f atMost st up = Some o -> skipSomeKeeps atMost st up o.
Proof.
  revert st up o. induction f as [|f IH]; intros st up o; [done|].
  cbn [skipSome_loop]. destruct (_inflight (vb st) <? atMost) eqn:Hlt.
  - apply Nat.ltb_lt in Hlt. pose proof (fetchIfEmpty_keeps atMost st up) as Hf.
    destruct (fetchIfEmpty atMost st up) as [s st1 up1|st1 up1|e st1 up1|st1 up1];
      unfold fetchKeeps in Hf.
    + destruct Hf as (-> & -> & _ & x & ->). intros [= <-]. unfold skipSomeKeeps. simpl.
      split; [by exists [(WAITING, x)]|]. split; [done|]. split; [done|].
      split; [|intros _; split; [done|by eexists]].
      intros _. split; [lia|]. intros s n [= <- <-]. split; [lia|done].
    + destruct Hf as ((Hu & Hs & Hi & Hh & Hb & Hc) & _). intros [= <-].
      unfold skipSomeKeeps. simpl. split; [done|]. split; [done|]. split; [done|].
      split; [|intros Hvf; split; [auto|by eexists]].
      intros _. split; [lia|]. intros s n [= <- <-]. split; [lia|done].
    + destruct Hf as ((Hu & Hs & Hi & Hh & Hb & Hc) & Hvf). intros [= <-].
      unfold skipSomeKeeps. simpl. split; [done|]. split; [done|]. split; [done|].
      split; [|intros Hvf'; congruence]. intros _. split; [lia|done].
    + destruct Hf as ((Hu & Hs & Hi & Hh & Hb & Hc) & _). intros H.
      apply (skipSome_row_keeps _ _ _ _ _ (IH)) in H. revert H.
      apply skipSomeKeeps_later; try done. lia.
  - apply Nat.ltb_ge in Hlt. unfold reportInflight.
    match goal with |- context [getHasMoreState ?s] =>
      destruct (getHasMoreState_cases s) as (_ & Gv & _ & _ & Gb);
      destruct (getHasMoreState s) as [state st2] end.
    cbn [fst snd] in *. intros [= <-]. unfold skipSomeKeeps. cbn [fst snd].
    rewrite Gv, Gb. simpl.
    split; [by exists []|]. split; [done|]. split; [done|].
    split; [|intros _; split; [done|by eexists]].
    intros Hle. split; [lia|]. intros s n [= <- <-]. split; [lia|]. intros _. lia.
Qed.

Lemma skipSome_keeps (atMost : nat) (st : Block) (up : Upstream) (o : SkipSomeOutcome) :
  skipSome atMost st up = Some o -> skipSomeKeeps atMost st up o.
Proof.
  unfold skipSome. destruct (_done (eb st)); [|apply skipSome_loop_keeps].
  intros [= <-]. unfold skipSomeKeeps. simpl.
  split; [by exists []|]. split; [done|]. split; [done|].
  split; [|intros _; split; [done|by eexists]].
  intros Hle. split; [lia|]. intros s n [= <- <-]. split; [lia|done].
Qed.

(** With the in-flight counter within [atMost] on entry (it is zero after
    every reported count), [skipSome(atMost)] never reports more than
    [atMost]: WAITING reports 0, HASMORE reports exactly [atMost], DONE reports
    what was skipped, at most [atMost]; the counter stays within [atMost]. The
    call consumes upstream replies in order from the front of the script,
    leaves [_hasMore] alone and never holds more than one input block. *)
Theorem skipSome_never_overshoots (atMost : nat) (st st' : Block) (up up' : Upstream)
    (r : Result (ExecutionState * nat)) :
  _inflight (vb st) <= atMost ->
  skipSome atMost st up = Some (r, st', up') ->
  _inflight (vb st') <= atMost
  /\ (forall s n, r = Ok (s, n) ->
        n <= atMost /\ (s = HASMORE -> n = atMost) /\ (s = WAITING -> n = 0))
  /\ (exists used, up = used ++ up')
  /\ _hasMore (vb st') = _hasMore (vb st)
  /\ (length (_buffer (eb st)) <= 1 -> length (_buffer (eb st')) <= 1).
Proof.
  intros Hle H.
  assert (Hw : forall s n, r = Ok (s, n) -> s = WAITING -> n = 0).
  { intros s n -> ->. apply skipSome_reply in H. simpl in H. by destruct H. }
  revert H. unfold skipSome. destruct (_done (eb st)).
  - intros [= <- <- <-]. simpl. split; [lia|]. split.
    + intros s n [= <- <-]. split; [lia|]. by split.
    + split; [by exists []|done].
  - intros H. apply skipSome_loop_keeps in H as (H1 & H2 & H3 & H4 & _).
    destruct (H4 Hle) as [H5 H6]. cbn [fst snd] in *.
    split; [done|]. split; [|done].
    intros s n Hr. destruct (H6 s n Hr). split; [done|]. split; [done|]. by apply Hw.
Qed.

(** An operator whose filter is not volatile (the plan node declared neither
    the filter nor the sort row-dependent, and a [reset] has completed) never
    compiles again: [reset] only rebinds the row context, and every [getSome]
    and [skipSome] call with [atMost > 0] ends with the compiled filter, the
    order and the flags as they were on entry, whatever rows upstream
    delivers and whether or not the condition would translate for them. *)
Theorem nonvolatile_filter_compiled_once (k : BlockKind) (atMost : nat) (st : Block)
    (up : Upstream) :
  _volatileFilter (vb st) = false -> 0 < atMost ->
  IResearchViewBlockBase_reset st
  = (Ok tt, with_vb (set_ctx (mkCtx (head (_buffer (eb st))) (_pos (eb st))) (vb st)) st)
  /\ (exists o, getSome k atMost st up = Some o
                /\ compiledOf (vb o.1.2) = compiledOf (vb st))
  /\ (exists o, skipSome atMost st up = Some o
                /\ compiledOf (vb o.1.2) = compiledOf (vb st)).
Proof.
  intros Hvf Ha. split; [|split].
  - unfold IResearchViewBlockBase_reset. cbn [vb with_vb set_ctx _volatileFilter].
    by rewrite Hvf.
  - unfold getSome. destruct (_done (eb st)); [by eexists|].
    destruct (getSome_loop_returns (2 * inputWeight st up + 2) k atMost st up Ha)
      as [o Ho].
    { unfold getSomeMeasure. destruct (_hasMore (vb st)); lia. }
    exists o. split; [done|].
    apply getSome_loop_keeps in Ho as (_ & _ & _ & _ & H). by destruct (H Hvf).
  - destruct (skipSome_returns atMost st up) as [o Ho]. exists o. split; [done|].
    apply skipSome_keeps in Ho as (_ & _ & _ & _ & H). by destruct (H Hvf).
Qed.

(* ------------------------------------------------------------------------- *)
(** ** End of input, and skipping before fetching *)
(* ------------------------------------------------------------------------- *)

(** An upstream reply without a block, whatever state it carries other than
    WAITING, ends the scan for good, and so does the end of the script: the
    call answers DONE without a batch ([skipSome]: with what it had counted in
    flight), the operator is marked done, and every later [getSome] answers
    DONE without a batch and without asking upstream. *)
Theorem reply_without_block_ends_scan (k : BlockKind) (atMost : nat) (st : Block)
    (s : ExecutionState) (up : Upstream) :
  _done (eb st) = false -> _buffer (eb st) = [] -> s <> WAITING ->
  getSome k atMost st ((s, None) :: up) = Some (Ok (DONE, None), exhaustedState s st, up)
  /\ getSome k atMost st [] = Some (Ok (DONE, None), exhaustedState DONE st, [])
  /\ (_inflight (vb st) < atMost ->
      skipSome atMost st ((s, None) :: up)
      = Some (Ok (DONE, _inflight (vb st)), (reportInflight (exhaustedState s st)).2, up))
  /\ _done (eb (exhaustedState s st)) = true
  /\ (forall atMost' up2,
        getSome k atMost' (exhaustedState s st) up2
        = Some (Ok (DONE, None), exhaustedState s st, up2)).
Proof.
  intros Hd Hb Hs. split; [|split; [|split; [|split]]].
  - unfold getSome. rewrite Hd.
    replace (2 * inputWeight st ((s, None) :: up) + 2)
      with (S (2 * inputWeight st ((s, None) :: up) + 1)) by lia.
    cbn [getSome_loop]. by rewrite (fetchIfEmpty_no_block _ _ _ _ Hb Hs).
  - unfold getSome. rewrite Hd.
    replace (2 * inputWeight st [] + 2) with (S (2 * inputWeight st [] + 1)) by lia.
    cbn [getSome_loop]. by rewrite (fetchIfEmpty_script_end _ _ Hb).
  - intros Hlt. unfold skipSome. rewrite Hd.
    replace (inputWeight st ((s, None) :: up) + 2)
      with (S (inputWeight st ((s, None) :: up) + 1)) by lia.
    cbn [skipSome_loop]. apply Nat.ltb_lt in Hlt. rewrite Hlt.
    by rewrite (fetchIfEmpty_no_block _ _ _ _ Hb Hs).
  - done.
  - intros atMost' up2. by unfold getSome.
Qed.

(** Skipping first and fetching afterwards: when every match joins and the
    predicate compiles for every row, a [skipSome(atMost)] on a fresh operator
    that reports [n] matches leaves exactly the other matches to [getSome]:
    calling [getSome(atMost')] until DONE then returns the total number of
    matches less [n] rows. *)
Theorem skipSome_then_getSome_returns_the_rest (k : BlockKind) (atMost atMost' : nat)
    (up up' : Upstream) (s : ExecutionState) (n : nat) (st' : Block) :
  allJoinable -> alwaysCompiles -> 0 < atMost -> 0 < atMost' ->
  skipSome atMost (construct k) up = Some (Ok (s, n), st', up') -> s <> WAITING ->
  n <= scanTotal (compiledOf (vb (construct k))) (upstreamRows up)
  /\ forall m, scanTotal (compiledOf (vb (construct k))) (upstreamRows up) + length up < m ->
       getSome_run m k atMost' st' up'
       = Some (Ok (scanTotal (compiledOf (vb (construct k))) (upstreamRows up) - n)).
Proof.
  intros Hall Hcomp Ha Ha' Hskip Hs.
  assert (Hinv : scanInvariant (construct k)).
  { split; [simpl; lia|]. by apply cursorJoinable_fresh. }
  assert (Htot : unreportedSkip (construct k) up
                 = scanTotal (compiledOf (vb (construct k))) (upstreamRows up)).
  { unfold unreportedSkip, aheadOfSkip, futureOf, pendingRows. simpl. lia. }
  set (total := scanTotal (compiledOf (vb (construct k))) (upstreamRows up)) in *.
  destruct (skipSome_conserves atMost (construct k) up Hall Hcomp Hinv Ha)
    as (o & Ho & (s0 & n0 & H1 & H2 & H3 & H4 & H5 & H6 & H7)).
  rewrite Hskip in Ho. injection Ho as <-. cbn [fst snd] in *. injection H1 as <- <-.
  pose proof (skipSome_reply _ _ _ _ Hskip) as Hok. simpl in Hok.
  apply skipSome_keeps in Hskip as (_ & Hh & _). cbn [fst snd] in Hh.
  rewrite Htot in H7. split; [lia|]. intros m Hm.
  destruct s; [| |done].
  - specialize (H5 eq_refl). destruct Hok as (_ & Hz & _).
    unfold unreportedSkip in H7. rewrite H5, Hz in H7.
    destruct m as [|m]; [lia|]. cbn [getSome_run]. unfold getSome. rewrite H5.
    simpl. do 2 f_equal. lia.
  - destruct (H6 eq_refl) as (Hd & Hz & _).
    unfold unreportedSkip in H7. rewrite Hd, Hz in H7.
    assert (Hsame : unreturnedGet st' up' = aheadOfSkip st' up').
    { unfold unreturnedGet, aheadOfGet, aheadOfSkip. rewrite Hd, Hh. done. }
    rewrite (getSome_run_total k atMost' m st' up' Hall Hcomp Ha'); try done.
    all: try (intros _; by rewrite Hh). all: try lia. do 2 f_equal. lia.
Qed.

(* ------------------------------------------------------------------------- *)
(** ** skipSome counts matches, joined or not *)
(* ------------------------------------------------------------------------- *)

Lemma advanceRow_counts (b : AqlItemBlock) (st : Block) (up : Upstream) :
  alwaysCompiles -> _buffer (eb st) = [b] ->
  exists st2,
    advanceRow b st = (Ok tt, st2)
    /\ length (_buffer (eb st2)) <= 1
    /\ (if bool_decide (_buffer (eb st2) = []) then 0 else remaining st2) + futureOf st2 up
       = futureOf st up
    /\ _hasMore (vb st2) = _hasMore (vb st)
    /\ _inflight (vb st2) = _inflight (vb st)
    /\ _done (eb st2) = _done (eb st).
Proof.
  intros Hcomp Hb. unfold advanceRow.
  destruct (nrItems b <=? S (_pos (eb st))) eqn:Hle.
  - apply Nat.leb_le in Hle. eexists. split; [done|].
    unfold futureOf, pendingRows. simpl. rewrite Hb. simpl.
    rewrite (rowsAfter_last b _ Hle). repeat split; try done. lia.
  - apply Nat.leb_gt in Hle.
    destruct (reset_ok (with_eb (set_pos (S (_pos (eb st))) (eb st)) st) Hcomp)
      as (st2 & Hr & He & Hcur & Hp & Hx & Hh & Hi).
    simpl in He, Hcur, Hp, Hx, Hh, Hi. rewrite Hb in Hp, Hx. simpl in Hp, Hx.
    exists st2. split; [done|]. split.
    { rewrite He. simpl. rewrite Hb. simpl. lia. }
    split; [|by rewrite He].
    rewrite He. simpl. rewrite Hb. simpl.
    rewrite (remaining_fresh st2 _ Hcur), Hx.
    unfold futureOf, pendingRows. rewrite He. simpl. rewrite Hb, Hp.
    rewrite (rowsAfter_next b _ Hle). done.
Qed.

Lemma fetched_counts (s : ExecutionState) (b : AqlItemBlock) (st : Block) (up : Upstream) :
  alwaysCompiles -> s <> WAITING -> _buffer (eb st) = [] ->
  exists st1,
    reset (fetchedState s b st) = (Ok tt, st1)
    /\ _buffer (eb st1) = [b]
    /\ remaining st1 + futureOf st1 up = futureOf st ((s, Some b) :: up)
    /\ _hasMore (vb st1) = _hasMore (vb st)
    /\ _inflight (vb st1) = _inflight (vb st)
    /\ _done (eb st1) = _done (eb st).
Proof.
  intros Hcomp Hs Hb.
  destruct (reset_ok (fetchedState s b st) Hcomp)
    as (st1 & Hr & He & Hcur & Hp & Hx & Hh & Hi).
  simpl in He, Hcur, Hp, Hx, Hh, Hi.
  exists st1. split; [done|]. rewrite He. simpl. split; [done|].
  split; [|done].
  rewrite (remaining_fresh st1 _ Hcur), Hx.
  unfold futureOf, pendingRows. rewrite He, Hb, Hp. simpl.
  by destruct s.
Qed.

Lemma skipCounts_later (atMost : nat) (st st2 : Block) (up up2 : Upstream)
    (o : SkipSomeOutcome) :
  unreportedSkip st2 up2 = unreportedSkip st up -> length up2 <= length up ->
  skipCounts atMost st2 up2 o -> skipCounts atMost st up o.
Proof.
  intros Hu Hl (s & n & H1 & H2 & H3 & H4 & H5 & H6 & H7).
  exists s, n. split; [done|]. split; [done|]. split; [lia|]. split.
  { intros Hs. destruct (H4 Hs) as (? & ? & ?). split; [lia|done]. }
  split; [done|]. split; [done|]. lia.
Qed.

Lemma skipSome_row_counts (again : Block -> Upstream -> option SkipSomeOutcome)
    (atMost : nat) (st : Block) (up : Upstream) (o : SkipSomeOutcome) :
  alwaysCompiles ->
  length (_buffer (eb st)) <= 1 -> _done (eb st) = false -> _buffer (eb st) <> [] ->
  _inflight (vb st) < atMost ->
  (forall st2 o2, length (_buffer (eb st2)) <= 1 -> _done (eb st2) = false ->
                  _inflight (vb st2) < atMost \/ _buffer (eb st2) <> [] ->
                  again st2 up = Some o2 -> skipCounts atMost st2 up o2) ->
  skipSome_row again atMost st up = Some o -> skipCounts atMost st up o.
Proof.
  intros Hcomp Hlen Hd Hne Hlt Hagain. unfold skipSome_row.
  destruct (buffer_single st Hlen Hne) as [b Hb]. rewrite Hb.
  pose proof (skip_frame (atMost - _inflight (vb st)) st) as [He Hv].
  pose proof (skip_count (atMost - _inflight (vb st)) st) as [Hn Hr].
  destruct (skip _ st) as [n st1]. simpl in He, Hv, Hn, Hr. cbn [fst snd].
  set (st3 := with_vb (set_inflight (_inflight (vb st1) + n) (vb st1)) st1).
  assert (He3 : eb st3 = eb st) by done.
  assert (Hi3 : _inflight (vb st3) = _inflight (vb st) + n) by (simpl; by rewrite Hv).
  assert (Hr3 : remaining st3 = remaining st1) by (by apply remaining_ext).
  assert (Hf3 : futureOf st3 up = futureOf st up).
  { apply futureOf_ext; simpl; by rewrite ?He, ?Hv. }
  assert (Hu : unreportedSkip st up
               = remaining st + futureOf st up + _inflight (vb st)).
  { unfold unreportedSkip, aheadOfSkip. rewrite Hd. by rewrite bool_decide_eq_false_2. }
  clearbody st3. rewrite Hi3.
  destruct (_inflight (vb st) + n <? atMost) eqn:Hlt1.
  - apply Nat.ltb_lt in Hlt1.
    destruct (advanceRow_counts b st3 up Hcomp) as (st2 & -> & Hinv2 & Ha & Hh & Hi & Hd2);
      [by rewrite He3|].
    intros Ho.
    apply (skipCounts_later atMost st st2 up up); [|done|].
    + rewrite Hu. unfold unreportedSkip, aheadOfSkip. rewrite Hd2, He3, Hd, Ha, Hi, Hi3, Hf3.
      lia.
    + apply Hagain; try done.
      * by rewrite Hd2, He3.
      * left. lia.
  - apply Nat.ltb_ge in Hlt1. intros Ho.
    apply (skipCounts_later atMost st st3 up up); [|done|].
    + rewrite Hu. unfold unreportedSkip, aheadOfSkip. rewrite He3, Hd, Hi3, Hf3, Hr3, Hr.
      rewrite bool_decide_eq_false_2 by done. lia.
    + apply Hagain; try done.
      * by rewrite He3.
      * by rewrite He3.
      * right. by rewrite He3.
Qed.

Lemma skipSome_loop_counts (f : nat) (atMost : nat) (st : Block) (up : Upstream)
    (o : SkipSomeOutcome) :
  alwaysCompiles ->
  length (_buffer (eb st)) <= 1 -> _done (eb st) = false ->
  _inflight (vb st) < atMost \/ _buffer (eb st) <> [] ->
  skipSome_loop f atMost st up = Some o -> skipCounts atMost st up o.
Proof.
  intros Hcomp. revert st up o.
  induction f as [|f IH]; intros st up o Hinv Hd Hin; [done|].
  cbn [skipSome_loop].
  destruct (_inflight (vb st) <? atMost) eqn:Hlt.
  2:{ apply Nat.ltb_ge in Hlt. destruct Hin as [?|Hne]; [lia|].
      unfold reportInflight. cbn [fst snd].
      unfold getHasMoreState. cbn [eb with_eb with_vb set_scannedIndex _done _buffer].
      rewrite Hd. rewrite (bool_decide_eq_false_2 _ Hne). cbn [andb].
      intros [= <-]. exists HASMORE, (_inflight (vb st)). cbn [fst snd].
      split; [done|]. split; [done|]. split; [done|]. split; [done|].
      split; [done|]. split; [done|].
      match goal with |- unreportedSkip ?s0 _ + _ = _ =>
        assert (Hr0 : remaining s0 = remaining st) by (by apply remaining_ext);
        assert (Hf0 : futureOf s0 up = futureOf st up) by (by apply futureOf_ext);
        unfold unreportedSkip, aheadOfSkip; rewrite Hr0, Hf0 end.
      simpl. rewrite Hd. lia. }
  apply Nat.ltb_lt in Hlt.
  assert (Hwait : forall x up1, _buffer (eb st) = [] -> up = (WAITING, x) :: up1 ->
            skipCounts atMost st up (Ok (WAITING, 0), st, up1)).
  { intros x up1 Hb ->. exists WAITING, 0. cbn [fst snd].
    split; [done|]. split; [done|]. split; [simpl; lia|]. split; [simpl; by auto with lia|].
    split; [done|]. split; [done|].
    unfold unreportedSkip, aheadOfSkip, futureOf, pendingRows. rewrite Hd, Hb. simpl. lia. }
  assert (Hexh : forall s up1, _buffer (eb st) = [] -> upstreamRows up = [] ->
            length up1 <= length up ->
            skipCounts atMost st up
              (Ok (DONE, _inflight (vb st)), (reportInflight (exhaustedState s st)).2, up1)).
  { intros s up1 Hb Hup Hl. exists DONE, (_inflight (vb st)). cbn [fst snd].
    split; [done|]. split; [done|]. split; [done|]. split; [done|].
    split; [done|]. split; [done|].
    unfold unreportedSkip, aheadOfSkip, futureOf, pendingRows. rewrite Hd, Hb, Hup. simpl.
    lia. }
  assert (Hrow : forall st1 up1, length (_buffer (eb st1)) <= 1 -> _done (eb st1) = false ->
            _buffer (eb st1) <> [] -> _inflight (vb st1) < atMost ->
            unreportedSkip st1 up1 = unreportedSkip st up -> length up1 <= length up ->
            skipSome_row (skipSome_loop f atMost) atMost st1 up1 = Some o ->
            skipCounts atMost st up o).
  { intros st1 up1 Hinv1 Hd1 Hne1 Hlt1 Hu Hl Ho.
    apply (skipCounts_later atMost st st1 up up1 o Hu Hl).
    apply (skipSome_row_counts (skipSome_loop f atMost)); try done.
    intros st2 o2 ? ? ? ?. by apply IH. }
  assert (Hblock : forall s b up1, s <> WAITING -> _buffer (eb st) = [] ->
            up = (s, Some b) :: up1 ->
            match reset (fetchedState s b st) with
            | (Throw e, st1) => Some (Throw e, st1, up1)
            | (Ok _, st1) => skipSome_row (skipSome_loop f atMost) atMost st1 up1
            end = Some o -> skipCounts atMost st up o).
  { intros s b up1 Hs Hb ->.
    destruct (fetched_counts s b st up1 Hcomp Hs Hb)
      as (st1 & -> & Hb1 & Ha & Hh & Hi & Hd1).
    apply Hrow; try done.
    - rewrite Hb1. simpl. lia.
    - congruence.
    - by rewrite Hb1.
    - lia.
    - unfold unreportedSkip, aheadOfSkip. rewrite Hd1, Hd, Hb1, Hb, Hi.
      rewrite bool_decide_eq_false_2 by done. rewrite bool_decide_eq_true_2 by done.
      lia.
    - simpl. lia. }
  fetch_cases st up Hbuf.
  - cbn [fst snd reportInflight]. intros [= <-]. by apply (Hexh DONE []).
  - match goal with |- context [fetchedState ?s ?b st] =>
      specialize (Hblock s b up); by destruct (reset (fetchedState s b st)) as [[[]|?] ?];
        apply Hblock end.
  - intros [= <-]. apply (Hexh DONE up); [done|done|simpl; lia].
  - match goal with |- context [fetchedState ?s ?b st] =>
      specialize (Hblock s b up); by destruct (reset (fetchedState s b st)) as [[[]|?] ?];
        apply Hblock end.
  - intros [= <-]. apply (Hexh HASMORE up); [done|done|simpl; lia].
  - intros [= <-]. by eapply Hwait.
  - intros [= <-]. by eapply Hwait.
  - apply Hrow; try done; by rewrite Hbuf.
Qed.

Lemma skipSome_counts (atMost : nat) (st : Block) (up : Upstream) :
  alwaysCompiles ->
  length (_buffer (eb st)) <= 1 -> _inflight (vb st) < atMost ->
  exists o, skipSome atMost st up = Some o /\ skipCounts atMost st up o.
Proof.
  intros Hcomp Hinv Hlt. unfold skipSome. destruct (_done (eb st)) eqn:Hd.
  - eexists. split; [done|]. exists DONE, (_inflight (vb st)). cbn [fst snd].
    unfold unreportedSkip. simpl. rewrite Hd. repeat split; try done; lia.
  - destruct (skipSome_loop_returns (inputWeight st up + 2) atMost st up
                (skipSomeNeed_bound atMost st up)) as [o Ho].
    exists o. split; [done|].
    exact (skipSome_loop_counts _ atMost st up o Hcomp Hinv Hd (or_introl Hlt) Ho).
Qed.

Lemma skipSome_run_counts (atMost : nat) (m : nat) (st : Block) (up : Upstream) :
  alwaysCompiles -> 0 < atMost ->
  unreportedSkip st up + length up < m ->
  length (_buffer (eb st)) <= 1 -> _inflight (vb st) < atMost ->
  skipSome_run m atMost st up = Some (Ok (unreportedSkip st up)).
Proof.
  intros Hcomp Ha. revert st up. induction m as [|m IH]; intros st up Hm Hinv Hlt; [lia|].
  destruct (skipSome_counts atMost st up Hcomp Hinv Hlt)
    as ([[out st'] up'] & Hg & (s & n & H1 & H2 & H3 & H4 & H5 & H6 & H7)).
  cbn [fst snd] in *. subst out. cbn [skipSome_run]. rewrite Hg.
  destruct s.
  - specialize (H5 eq_refl). unfold unreportedSkip in H7 at 1. rewrite H5 in H7.
    pose proof (skipSome_reply _ _ _ _ Hg) as Hok. simpl in Hok.
    destruct Hok as (_ & Hz & _). do 2 f_equal. lia.
  - destruct (H6 eq_refl) as (_ & Hz & Hn).
    rewrite IH; [do 2 f_equal; lia|lia|done|lia].
  - destruct (H4 eq_refl) as (Hlen & Hi & _).
    rewrite IH; [do 2 f_equal; lia|lia|done|done].
Qed.

(** Calling [skipSome(atMost)] on a fresh operator until DONE reports, in
    total, exactly the number of index matches of the scans of all input
    rows, whatever [atMost] > 0 and whether or not the matched documents can
    still be joined with storage, provided the predicate compiles for every
    row. *)
Theorem skipSome_reports_every_match (k : BlockKind) (atMost m : nat) (up : Upstream) :
  alwaysCompiles -> 0 < atMost ->
  scanTotal (compiledOf (vb (construct k))) (upstreamRows up) + length up < m ->
  skipSome_run m atMost (construct k) up
  = Some (Ok (scanTotal (compiledOf (vb (construct k))) (upstreamRows up))).
Proof.
  intros Hcomp Ha Hm.
  assert (Hs : unreportedSkip (construct k) up
               = scanTotal (compiledOf (vb (construct k))) (upstreamRows up)).
  { unfold unreportedSkip, aheadOfSkip, futureOf, pendingRows. simpl. lia. }
  rewrite <- Hs. apply skipSome_run_counts; try done; [rewrite Hs; lia|simpl; lia].
Qed.

(* ------------------------------------------------------------------------- *)
(** ** The scored operator returns every joinable match once *)
(* ------------------------------------------------------------------------- *)

Lemma matchListFrom_ext (v v' : ViewBase) (seg n : nat) :
  _filter v = _filter v' -> _order v = _order v' -> _ctx v = _ctx v' ->
  matchListFrom v seg n = matchListFrom v' seg n.
Proof.
  intros Hf Ho Hc. revert seg. induction n as [|n IH]; intros seg; [done|].
  simpl. rewrite IH. unfold segmentIterator. by rewrite Hf, Ho, Hc.
Qed.

Lemma matchesAhead_ext (st st' : Block) :
  _filter (vb st') = _filter (vb st) -> _order (vb st') = _order (vb st) ->
  _ctx (vb st') = _ctx (vb st) -> cur st' = cur st ->
  matchesAhead st' = matchesAhead st.
Proof.
  intros Hf Ho Hc Hcur. unfold matchesAhead, matchesAheadIn. rewrite Hcur.
  destruct (reader_size - _readerOffset (cur st)); [done|].
  rewrite (matchListFrom_ext (vb st') (vb st)) by done.
  unfold liveIterator, segmentIterator. by rewrite Hf, Ho, Hc.
Qed.

Lemma joinedRemaining_ext (st st' : Block) :
  _filter (vb st') = _filter (vb st) -> _order (vb st') = _order (vb st) ->
  _ctx (vb st') = _ctx (vb st) -> cur st' = cur st ->
  joinedRemaining st' = joinedRemaining st.
Proof. intros. unfold joinedRemaining. by rewrite (matchesAhead_ext st st'). Qed.

Lemma futureJoined_ext (st st' : Block) (up : Upstream) :
  _buffer (eb st') = _buffer (eb st) -> _pos (eb st') = _pos (eb st) ->
  compiledOf (vb st') = compiledOf (vb st) ->
  futureJoined st' up = futureJoined st up.
Proof. intros Hb Hp Hc. unfold futureJoined, pendingRows. by rewrite Hb, Hp, Hc. Qed.

Lemma joinedRemaining_fresh (st : Block) (keys : list DocumentPrimaryKey) :
  cur st = mkCursor None 0 keys ->
  joinedRemaining st = joinedOf (compiledOf (vb st)) (_ctx (vb st)).
Proof.
  intros Hc. unfold joinedRemaining, joinedOf, matchesAhead. rewrite Hc. cbn [_readerOffset].
  rewrite Nat.sub_0_r, matchesAheadIn_fresh. f_equal. f_equal. by apply matchListFrom_ext.
Qed.

(** The accounting of the scored [next] in joinable matches. *)
Lemma scored_next_joined (ctx : ReadContext) (limit : nat) (st : Block) :
  let r := next Scored ctx limit st in
  rc_pos r.1.2 = rc_pos ctx + Nat.min limit (joinedRemaining st)
  /\ joinedRemaining r.2 = joinedRemaining st - Nat.min limit (joinedRemaining st).
Proof.
  cbv zeta. cbn [next]. destruct (next_frame Scored ctx limit st) as [_ Hv].
  cbn [next] in Hv. unfold joinedRemaining, matchesAhead. rewrite Hv.
  unfold IResearchViewBlock_next.
  destruct (scoredSegments_rows (vb st) (reader_size - _readerOffset (cur st)) limit ctx
              (cur st) eq_refl) as [[Hpos _] Hrest].
  destruct (scoredSegments _ _ _ _ _) as [[more ctx'] c']. cbn [fst snd cur with_cur] in *.
  rewrite Hrest, Hpos, length_take, length_drop. lia.
Qed.


Lemma advanceRow_joined (b : AqlItemBlock) (st : Block) (up : Upstream) :
  alwaysCompiles -> _buffer (eb st) = [b] ->
  exists st2,
    advanceRow b st = (Ok tt, st2)
    /\ length (_buffer (eb st2)) <= 1
    /\ (if bool_decide (_buffer (eb st2) = []) then 0 else joinedRemaining st2)
       + futureJoined st2 up
       = futureJoined st up
    /\ _hasMore (vb st2) = _hasMore (vb st)
    /\ _inflight (vb st2) = _inflight (vb st)
    /\ _done (eb st2) = _done (eb st).
Proof.
  intros Hcomp Hb. unfold advanceRow.
  destruct (nrItems b <=? S (_pos (eb st))) eqn:Hle.
  - apply Nat.leb_le in Hle. eexists. split; [done|].
    unfold futureJoined, pendingRows. simpl. rewrite Hb. simpl.
    rewrite (rowsAfter_last b _ Hle). repeat split; try done. lia.
  - apply Nat.leb_gt in Hle.
    destruct (reset_ok (with_eb (set_pos (S (_pos (eb st))) (eb st)) st) Hcomp)
      as (st2 & Hr & He & Hcur & Hp & Hx & Hh & Hi).
    simpl in He, Hcur, Hp, Hx, Hh, Hi. rewrite Hb in Hp, Hx. simpl in Hp, Hx.
    exists st2. split; [done|]. split.
    { rewrite He. simpl. rewrite Hb. simpl. lia. }
    split; [|by rewrite He].
    rewrite He. simpl. rewrite Hb. simpl.
    rewrite (joinedRemaining_fresh st2 _ Hcur), Hx.
    unfold futureJoined, pendingRows. rewrite He. simpl. rewrite Hb, Hp.
    rewrite (rowsAfter_next b _ Hle). done.
Qed.

Lemma fetched_joined (s : ExecutionState) (b : AqlItemBlock) (st : Block) (up : Upstream) :
  alwaysCompiles -> s <> WAITING -> _buffer (eb st) = [] ->
  exists st1,
    reset (fetchedState s b st) = (Ok tt, st1)
    /\ _buffer (eb st1) = [b]
    /\ joinedRemaining st1 + futureJoined st1 up = futureJoined st ((s, Some b) :: up)
    /\ _hasMore (vb st1) = _hasMore (vb st)
    /\ _inflight (vb st1) = _inflight (vb st)
    /\ _done (eb st1) = _done (eb st).
Proof.
  intros Hcomp Hs Hb.
  destruct (reset_ok (fetchedState s b st) Hcomp)
    as (st1 & Hr & He & Hcur & Hp & Hx & Hh & Hi).
  simpl in He, Hcur, Hp, Hx, Hh, Hi.
  exists st1. split; [done|]. rewrite He. simpl. split; [done|].
  split; [|done].
  rewrite (joinedRemaining_fresh st1 _ Hcur), Hx.
  unfold futureJoined, pendingRows. rewrite He, Hb, Hp. simpl.
  by destruct s.
Qed.

Lemma getReturnsJoined_later (atMost : nat) (st st2 : Block) (up up2 : Upstream)
    (o : GetSomeOutcome) :
  unreturnedJoined st2 up2 = unreturnedJoined st up -> length up2 <= length up ->
  getReturnsJoined atMost st2 up2 o -> getReturnsJoined atMost st up o.
Proof.
  intros Hu Hl (s & batch & H1 & H2 & H3 & H4 & H5 & H6 & H7 & H8).
  exists s, batch. split; [done|]. split; [done|]. split; [done|]. split; [lia|]. split.
  { intros Hs. destruct (H5 Hs) as (? & ?). split; [lia|done]. }
  split; [done|]. split; [done|]. lia.
Qed.

Lemma getSome_row_joined (again : Block -> Upstream -> option GetSomeOutcome)
    (atMost : nat) (st : Block) (up : Upstream) (o : GetSomeOutcome) :
  alwaysCompiles -> 0 < atMost ->
  length (_buffer (eb st)) <= 1 -> _done (eb st) = false -> _buffer (eb st) <> [] ->
  (forall st2 o2, length (_buffer (eb st2)) <= 1 -> _done (eb st2) = false ->
                  (_buffer (eb st2) = [] -> _hasMore (vb st2) = true) ->
                  again st2 up = Some o2 -> getReturnsJoined atMost st2 up o2) ->
  getSome_row again Scored atMost st up = Some o -> getReturnsJoined atMost st up o.
Proof.
  intros Hcomp Ha Hlen Hd Hne Hagain. unfold getSome_row.
  destruct (buffer_single st Hlen Hne) as [b Hb]. rewrite Hb.
  destruct (_hasMore (vb st)) eqn:Hm; cbn [negb].
  - assert (Hu : unreturnedJoined st up = joinedRemaining st + futureJoined st up).
    { unfold unreturnedJoined. rewrite Hd, Hm.
      by rewrite bool_decide_eq_false_2. }
    set (ctx0 := mkReadContext (nrInputRegisters node) 0
           (inheritRegisters b (requestBlock atMost (nrOutputRegisters node)) (_pos (eb st)))).
    pose proof (next_frame Scored ctx0 atMost st) as [He Hv].
    pose proof (next_nrItems Scored ctx0 atMost st) as Hn.
    pose proof (next_accounts Scored ctx0 atMost st) as (_ & _ & Hmore & _).
    cbv zeta in Hmore. destruct (scored_next_joined ctx0 atMost st) as (Hpos & Hrem).
    destruct (next Scored ctx0 atMost st) as [[more ctx'] st1].
    cbn [fst snd] in He, Hv, Hn, Hmore, Hpos, Hrem. simpl in Hpos.
    set (st2 := with_vb (set_hasMore more (vb st1)) st1).
    assert (He2 : eb st2 = eb st) by done.
    assert (Hr2 : joinedRemaining st2 = joinedRemaining st1) by (by apply joinedRemaining_ext).
    assert (Hf2 : futureJoined st2 up = futureJoined st up).
    { apply futureJoined_ext; simpl; by rewrite ?He, ?Hv. }
    assert (Hh2 : _hasMore (vb st2) = more) by done.
    clearbody st2.
    destruct (rc_pos ctx' =? 0) eqn:Hz.
    + apply Nat.eqb_eq in Hz. intros Ho.
      assert (more = false) as Hmf.
      { destruct more; [|done]. destruct Hmore as [Hmore _]. specialize (Hmore eq_refl).
        simpl in Hmore. lia. }
      apply (getReturnsJoined_later atMost st st2 up up); [|done|].
      * rewrite Hu. unfold unreturnedJoined.
        rewrite He2, Hd, Hh2, Hmf, Hf2. rewrite bool_decide_eq_false_2 by done. lia.
      * apply Hagain; try done.
        -- by rewrite He2.
        -- by rewrite He2.
        -- by rewrite He2.
    + apply Nat.eqb_neq in Hz.
      destruct (getSome_finish_conserves atMost ctx' st2 up)
        as (b' & st' & -> & Hnb & He' & Hv' & Hc'); [by rewrite He2|by rewrite He2| |lia|].
      { rewrite Hn. unfold ctx0, inheritRegisters. simpl. by rewrite copyRegs_nrItems. }
      intros [= <-]. exists HASMORE, (Some b'). cbn [fst snd batchRows].
      split; [done|]. split.
      { rewrite He'. simpl. by rewrite He2. }
      split; [rewrite He'; simpl; by rewrite He2|]. split; [done|]. split; [done|].
      split; [done|]. split.
      { intros _. rewrite He'. simpl. rewrite He2. split; [done|lia]. }
      rewrite Hu, Hnb.
      assert (Hr' : joinedRemaining st' = joinedRemaining st2)
        by (apply joinedRemaining_ext; by rewrite ?Hv', ?Hc').
      assert (Hf' : futureJoined st' up = futureJoined st2 up).
      { apply futureJoined_ext; by rewrite ?He', ?Hv'. }
      unfold unreturnedJoined. rewrite Hr', Hf', Hv', Hh2, He'. simpl.
      rewrite He2, Hd, Hf2, Hr2, Hrem. rewrite bool_decide_eq_false_2 by done.
      destruct more.
      * destruct Hmore as [Hmore _]. specialize (Hmore eq_refl). simpl in Hmore. lia.
      * assert (rc_pos ctx' <> atMost).
        { intros Heq. destruct Hmore as [_ Hmore]. simpl in Hmore.
          by specialize (Hmore Heq). }
        lia.
  - assert (Hu : unreturnedJoined st up = futureJoined st up).
    { unfold unreturnedJoined. rewrite Hd, Hm.
      by rewrite bool_decide_eq_false_2. }
    destruct (advanceRow_joined b (with_vb (set_hasMore true (vb st)) st) up Hcomp)
      as (st2 & -> & Hinv2 & Hah & Hh & Hi & Hd2); [done|].
    simpl in Hh, Hd2. intros Ho.
    apply (getReturnsJoined_later atMost st st2 up up); [|done|].
    + rewrite Hu. unfold unreturnedJoined. rewrite Hd2, Hd, Hh.
      rewrite (futureJoined_ext st (with_vb (set_hasMore true (vb st)) st) up) in Hah by done.
      rewrite <- Hah. by destruct (bool_decide _).
    + apply Hagain; try done. congruence.
Qed.

Lemma getSome_loop_joined (f : nat) (atMost : nat) (st : Block)
    (up : Upstream) (o : GetSomeOutcome) :
  alwaysCompiles -> 0 < atMost ->
  length (_buffer (eb st)) <= 1 -> _done (eb st) = false ->
  (_buffer (eb st) = [] -> _hasMore (vb st) = true) ->
  getSome_loop f Scored atMost st up = Some o -> getReturnsJoined atMost st up o.
Proof.
  intros Hcomp Ha. revert st up o.
  induction f as [|f IH]; intros st up o Hinv Hd Hhm; [done|].
  cbn [getSome_loop].
  assert (Hwait : forall x up1, _buffer (eb st) = [] -> up = (WAITING, x) :: up1 ->
            getReturnsJoined atMost st up (Ok (WAITING, None), st, up1)).
  { intros x up1 Hb ->. exists WAITING, None. cbn [fst snd batchRows].
    split; [done|]. split; [done|]. split; [done|]. split; [simpl; lia|].
    split; [simpl; by auto with lia|]. split; [done|]. split; [done|].
    unfold unreturnedJoined, futureJoined, pendingRows. rewrite Hd, Hb. simpl. lia. }
  assert (Hexh : forall s up1, _buffer (eb st) = [] -> upstreamRows up = [] ->
            length up1 <= length up ->
            getReturnsJoined atMost st up (Ok (DONE, None), exhaustedState s st, up1)).
  { intros s up1 Hb Hup Hl. exists DONE, None. cbn [fst snd batchRows].
    split; [done|]. split; [done|]. split; [by intros _; apply Hhm|]. split; [done|].
    split; [done|]. split; [done|]. split; [done|].
    unfold unreturnedJoined, futureJoined, pendingRows. rewrite Hd, Hb, Hup. simpl.
    lia. }
  assert (Hrow : forall st1 up1, length (_buffer (eb st1)) <= 1 -> _done (eb st1) = false ->
            _buffer (eb st1) <> [] ->
            unreturnedJoined st1 up1 = unreturnedJoined st up -> length up1 <= length up ->
            getSome_row (getSome_loop f Scored atMost) Scored atMost st1 up1 = Some o ->
            getReturnsJoined atMost st up o).
  { intros st1 up1 Hinv1 Hd1 Hne1 Hu Hl Ho.
    apply (getReturnsJoined_later atMost st st1 up up1 o Hu Hl).
    apply (getSome_row_joined (getSome_loop f Scored atMost)); try done.
    intros st2 o2 ? ? ? ?. by apply IH. }
  assert (Hblock : forall s b up1, s <> WAITING -> _buffer (eb st) = [] ->
            up = (s, Some b) :: up1 ->
            match reset (fetchedState s b st) with
            | (Throw e, st1) => Some (Throw e, st1, up1)
            | (Ok _, st1) => getSome_row (getSome_loop f Scored atMost) Scored atMost st1 up1
            end = Some o -> getReturnsJoined atMost st up o).
  { intros s b up1 Hs Hb ->.
    destruct (fetched_joined s b st up1 Hcomp Hs Hb)
      as (st1 & -> & Hb1 & Hah & Hh & Hi & Hd1).
    apply Hrow; try done.
    - rewrite Hb1. simpl. lia.
    - congruence.
    - by rewrite Hb1.
    - unfold unreturnedJoined. rewrite Hd1, Hd, Hb1, Hb, Hh, (Hhm Hb).
      rewrite bool_decide_eq_false_2 by done. rewrite bool_decide_eq_true_2 by done.
      lia.
    - simpl. lia. }
  fetch_cases st up Hbuf.
  - intros [= <-]. by apply (Hexh DONE []).
  - match goal with |- context [fetchedState ?s ?b st] =>
      specialize (Hblock s b up); by destruct (reset (fetchedState s b st)) as [[[]|?] ?];
        apply Hblock end.
  - intros [= <-]. apply (Hexh DONE up); [done|done|simpl; lia].
  - match goal with |- context [fetchedState ?s ?b st] =>
      specialize (Hblock s b up); by destruct (reset (fetchedState s b st)) as [[[]|?] ?];
        apply Hblock end.
  - intros [= <-]. apply (Hexh HASMORE up); [done|done|simpl; lia].
  - intros [= <-]. by eapply Hwait.
  - intros [= <-]. by eapply Hwait.
  - apply Hrow; try done; by rewrite Hbuf.
Qed.

Lemma getSome_joined (atMost : nat) (st : Block) (up : Upstream) :
  alwaysCompiles -> 0 < atMost ->
  length (_buffer (eb st)) <= 1 -> (_buffer (eb st) = [] -> _hasMore (vb st) = true) ->
  exists o, getSome Scored atMost st up = Some o /\ getReturnsJoined atMost st up o.
Proof.
  intros Hcomp Ha Hinv Hhm. unfold getSome. destruct (_done (eb st)) eqn:Hd.
  - eexists. split; [done|]. exists DONE, None. cbn [fst snd batchRows].
    unfold unreturnedJoined. rewrite Hd. by repeat split.
  - destruct (getSome_loop_returns (2 * inputWeight st up + 2) Scored atMost st up Ha)
      as [o Ho].
    { unfold getSomeMeasure. destruct (_hasMore (vb st)); lia. }
    exists o. split; [done|].
    exact (getSome_loop_joined _ atMost st up o Hcomp Ha Hinv Hd Hhm Ho).
Qed.

Lemma getSome_run_joined (atMost : nat) (m : nat) (st : Block)
    (up : Upstream) :
  alwaysCompiles -> 0 < atMost ->
  unreturnedJoined st up + length up < m ->
  length (_buffer (eb st)) <= 1 -> (_buffer (eb st) = [] -> _hasMore (vb st) = true) ->
  getSome_run m Scored atMost st up = Some (Ok (unreturnedJoined st up)).
Proof.
  intros Hcomp Ha. revert st up. induction m as [|m IH]; intros st up Hm Hinv Hhm; [lia|].
  destruct (getSome_joined atMost st up Hcomp Ha Hinv Hhm)
    as ([[out st'] up'] & Hg & (s & batch & H1 & H2 & H3 & H4 & H5 & H6 & H7 & H8)).
  cbn [fst snd] in *. subst out. cbn [getSome_run]. rewrite Hg.
  destruct s.
  - specialize (H6 eq_refl). unfold unreturnedJoined in H8 at 1. rewrite H6 in H8.
    do 2 f_equal. lia.
  - destruct (H7 eq_refl) as [_ Hrows].
    rewrite IH; [do 2 f_equal; lia|lia|done|done].
  - destruct (H5 eq_refl) as [Hlen _].
    rewrite IH; [do 2 f_equal; lia|lia|done|done].
Qed.

Lemma joinedAhead_length (st : Block) : length (joinedAhead st) = joinedRemaining st.
Proof. unfold joinedAhead, joinedRemaining. by rewrite length_fmap. Qed.

Lemma scanDocs_length (p : Compiled) (rows : list ViewExpressionContext) :
  length (scanDocs p rows) = scanTotalJoined p rows.
Proof.
  revert p. induction rows as [|c rows IH]; intros p; [done|].
  cbn [scanDocs scanTotalJoined]. rewrite length_app, IH.
  unfold joinedDocsOf, joinedOf. by rewrite length_fmap.
Qed.

Lemma batchDocs_length (batch : option AqlItemBlock) :
  length (batchDocs batch) = batchRows batch.
Proof. destruct batch as [b|]; [|done]. simpl. by rewrite length_fmap, length_seq. Qed.

Lemma getValueReference_shrink (b : AqlItemBlock) (n i : nat) (r : RegisterId) :
  i < n -> getValueReference (shrink b n) i r = getValueReference b i r.
Proof.
  intros Hlt. unfold getValueReference, shrink. cbn [data].
  destruct (data b !! (i, r)) as [x|] eqn:Hx.
  - by rewrite (map_lookup_filter_Some_2 _ _ _ _ Hx).
  - rewrite map_lookup_filter_None_2; [done|by left].
Qed.

Lemma getValueReference_clearRegisters (b : AqlItemBlock) (i : nat) (r : RegisterId) :
  r ∉ regsToClear node ->
  getValueReference (clearRegisters b) i r = getValueReference b i r.
Proof.
  intros Hr. unfold getValueReference, clearRegisters. cbn [data].
  destruct (data b !! (i, r)) as [x|] eqn:Hx.
  - by rewrite (map_lookup_filter_Some_2 _ _ _ _ Hx).
  - rewrite map_lookup_filter_None_2; [done|by left].
Qed.

(** The batch [getSome] hands out after a scan that appended the rows [js] to
    an empty batch holds their documents, in order. *)
Lemma getSome_finish_docs (v : ViewBase) (atMost : nat) (ctx0 ctx : ReadContext) (st : Block)
    (up : Upstream) (js : list (VPackSlice * bytes_ref)) :
  nrInputRegisters node ∉ regsToClear node ->
  _done (eb st) = false -> _buffer (eb st) <> [] ->
  rc_pos ctx0 = 0 -> curRegs ctx0 = nrInputRegisters node ->
  rowsWritten v true ctx0 ctx js ->
  nrItems (rc_res ctx) = atMost -> rc_pos ctx <= atMost ->
  exists b st',
    getSome_finish atMost ctx st up = (Ok (HASMORE, Some b), st', up)
    /\ nrItems b = rc_pos ctx
    /\ batchDocs (Some b) = AqlValue_slice <$> js.*1
    /\ eb st' = set_scannedIndex (scannedIndex (eb st) + Z.of_nat (rc_pos ctx))%Z (eb st)
    /\ vb st' = vb st /\ cur st' = cur st.
Proof.
  intros Hreg Hd Hne Hp0 Hr0 (Hpos & _ & Hrows & _) Hn Hle.
  unfold getSome_finish, getHasMoreState.
  cbn [eb with_eb set_scannedIndex _done _buffer]. rewrite Hd.
  rewrite (bool_decide_eq_false_2 _ Hne). cbn [andb].
  eexists _, _. split; [done|].
  assert (Hitems : nrItems (clearRegisters
                     (if rc_pos ctx <? atMost then shrink (rc_res ctx) (rc_pos ctx)
                      else rc_res ctx)) = rc_pos ctx).
  { simpl. destruct (rc_pos ctx <? atMost) eqn:Hlt; simpl; [done|].
    apply Nat.ltb_ge in Hlt. lia. }
  split; [done|]. split; [|done].
  unfold batchDocs. rewrite Hitems. apply list_eq. intros i.
  rewrite !list_lookup_fmap.
  destruct (decide (i < rc_pos ctx)) as [Hi|Hi].
  - rewrite lookup_seq_lt by done. cbn [fmap option_fmap option_map plus].
    destruct (js !! i) as [x|] eqn:Hx.
    2:{ apply lookup_ge_None in Hx. lia. }
    cbn [fmap option_fmap option_map]. f_equal.
    rewrite getValueReference_clearRegisters by done.
    destruct (Hrows i x Hx) as [[Hdoc _] _]. rewrite Hp0, Hr0 in Hdoc. cbn [plus] in Hdoc.
    destruct (rc_pos ctx <? atMost); [rewrite getValueReference_shrink by done|]; done.
  - rewrite lookup_seq_ge by lia. rewrite lookup_ge_None_2 by lia. done.
Qed.

Lemma joinedAhead_ext (st st' : Block) :
  _filter (vb st') = _filter (vb st) -> _order (vb st') = _order (vb st) ->
  _ctx (vb st') = _ctx (vb st) -> cur st' = cur st ->
  joinedAhead st' = joinedAhead st.
Proof. intros. unfold joinedAhead. by rewrite (matchesAhead_ext st st'). Qed.

Lemma futureDocs_ext (st st' : Block) (up : Upstream) :
  _buffer (eb st') = _buffer (eb st) -> _pos (eb st') = _pos (eb st) ->
  compiledOf (vb st') = compiledOf (vb st) ->
  futureDocs st' up = futureDocs st up.
Proof. intros Hb Hp Hc. unfold futureDocs, pendingRows. by rewrite Hb, Hp, Hc. Qed.

Lemma joinedAhead_fresh (st : Block) (keys : list DocumentPrimaryKey) :
  cur st = mkCursor None 0 keys ->
  joinedAhead st = joinedDocsOf (compiledOf (vb st)) (_ctx (vb st)).
Proof.
  intros Hc. unfold joinedAhead, joinedDocsOf, matchesAhead. rewrite Hc. cbn [_readerOffset].
  rewrite Nat.sub_0_r, matchesAheadIn_fresh. f_equal. f_equal. by apply matchListFrom_ext.
Qed.

(** The scored [next] in documents: it appends the first [limit] joinable
    documents ahead and leaves the rest ahead. *)
Lemma scored_next_docs (ctx : ReadContext) (limit : nat) (st : Block) :
  let r := next Scored ctx limit st in
  rowsWritten (vb st) true ctx r.1.2 (take limit (omap joinMatch (matchesAhead st)))
  /\ joinedAhead r.2 = drop limit (joinedAhead st).
Proof.
  cbv zeta. cbn [next]. destruct (next_frame Scored ctx limit st) as [_ Hv].
  cbn [next] in Hv. unfold joinedAhead, matchesAhead. rewrite Hv.
  unfold IResearchViewBlock_next.
  destruct (scoredSegments_rows (vb st) (reader_size - _readerOffset (cur st)) limit ctx
              (cur st) eq_refl) as [Hrows Hrest].
  destruct (scoredSegments _ _ _ _ _) as [[more ctx'] c']. cbn [fst snd cur with_cur] in *.
  split; [done|]. by rewrite Hrest, fmap_drop.
Qed.

Lemma advanceRow_docs (b : AqlItemBlock) (st : Block) (up : Upstream) :
  alwaysCompiles -> _buffer (eb st) = [b] ->
  exists st2,
    advanceRow b st = (Ok tt, st2)
    /\ length (_buffer (eb st2)) <= 1
    /\ (if bool_decide (_buffer (eb st2) = []) then [] else joinedAhead st2)
       ++ futureDocs st2 up
       = futureDocs st up
    /\ _hasMore (vb st2) = _hasMore (vb st)
    /\ _inflight (vb st2) = _inflight (vb st)
    /\ _done (eb st2) = _done (eb st).
Proof.
  intros Hcomp Hb. unfold advanceRow.
  destruct (nrItems b <=? S (_pos (eb st))) eqn:Hle.
  - apply Nat.leb_le in Hle. eexists. split; [done|].
    unfold futureDocs, pendingRows. simpl. rewrite Hb. simpl.
    rewrite (rowsAfter_last b _ Hle). repeat split; try done. lia.
  - apply Nat.leb_gt in Hle.
    destruct (reset_ok (with_eb (set_pos (S (_pos (eb st))) (eb st)) st) Hcomp)
      as (st2 & Hr & He & Hcur & Hp & Hx & Hh & Hi).
    simpl in He, Hcur, Hp, Hx, Hh, Hi. rewrite Hb in Hp, Hx. simpl in Hp, Hx.
    exists st2. split; [done|]. split.
    { rewrite He. simpl. rewrite Hb. simpl. lia. }
    split; [|by rewrite He].
    rewrite He. simpl. rewrite Hb. simpl.
    rewrite (joinedAhead_fresh st2 _ Hcur), Hx.
    unfold futureDocs, pendingRows. rewrite He. simpl. rewrite Hb, Hp.
    rewrite (rowsAfter_next b _ Hle). done.
Qed.

Lemma fetched_docs (s : ExecutionState) (b : AqlItemBlock) (st : Block) (up : Upstream) :
  alwaysCompiles -> s <> WAITING -> _buffer (eb st) = [] ->
  exists st1,
    reset (fetchedState s b st) = (Ok tt, st1)
    /\ _buffer (eb st1) = [b]
    /\ joinedAhead st1 ++ futureDocs st1 up = futureDocs st ((s, Some b) :: up)
    /\ _hasMore (vb st1) = _hasMore (vb st)
    /\ _inflight (vb st1) = _inflight (vb st)
    /\ _done (eb st1) = _done (eb st).
Proof.
  intros Hcomp Hs Hb.
  destruct (reset_ok (fetchedState s b st) Hcomp)
    as (st1 & Hr & He & Hcur & Hp & Hx & Hh & Hi).
  simpl in He, Hcur, Hp, Hx, Hh, Hi.
  exists st1. split; [done|]. rewrite He. simpl. split; [done|].
  split; [|done].
  rewrite (joinedAhead_fresh st1 _ Hcur), Hx.
  unfold futureDocs, pendingRows. rewrite He, Hb, Hp. simpl.
  by destruct s.
Qed.

Lemma getReturnsDocs_later (atMost : nat) (st st2 : Block) (up up2 : Upstream)
    (o : GetSomeOutcome) :
  unreturnedDocs st2 up2 = unreturnedDocs st up -> length up2 <= length up ->
  getReturnsDocs atMost st2 up2 o -> getReturnsDocs atMost st up o.
Proof.
  intros Hu Hl (s & batch & H1 & H2 & H3 & H4 & H5 & H6 & H7 & H8).
  exists s, batch. split; [done|]. split; [done|]. split; [done|]. split; [lia|]. split.
  { intros Hs. destruct (H5 Hs) as (? & ?). split; [lia|done]. }
  split; [done|]. split; [done|]. by rewrite <- Hu.
Qed.

Lemma getSome_row_docs (again : Block -> Upstream -> option GetSomeOutcome)
    (atMost : nat) (st : Block) (up : Upstream) (o : GetSomeOutcome) :
  alwaysCompiles -> 0 < atMost -> nrInputRegisters node ∉ regsToClear node ->
  length (_buffer (eb st)) <= 1 -> _done (eb st) = false -> _buffer (eb st) <> [] ->
  (forall st2 o2, length (_buffer (eb st2)) <= 1 -> _done (eb st2) = false ->
                  (_buffer (eb st2) = [] -> _hasMore (vb st2) = true) ->
                  again st2 up = Some o2 -> getReturnsDocs atMost st2 up o2) ->
  getSome_row again Scored atMost st up = Some o -> getReturnsDocs atMost st up o.
Proof.
  intros Hcomp Ha Hreg Hlen Hd Hne Hagain. unfold getSome_row.
  destruct (buffer_single st Hlen Hne) as [b Hb]. rewrite Hb.
  destruct (_hasMore (vb st)) eqn:Hm; cbn [negb].
  - assert (Hu : unreturnedDocs st up = joinedAhead st ++ futureDocs st up).
    { unfold unreturnedDocs. rewrite Hd, Hm.
      by rewrite bool_decide_eq_false_2. }
    set (ctx0 := mkReadContext (nrInputRegisters node) 0
           (inheritRegisters b (requestBlock atMost (nrOutputRegisters node)) (_pos (eb st)))).
    pose proof (next_frame Scored ctx0 atMost st) as [He Hv].
    pose proof (next_nrItems Scored ctx0 atMost st) as Hn.
    pose proof (next_accounts Scored ctx0 atMost st) as (_ & _ & Hmore & _).
    cbv zeta in Hmore. destruct (scored_next_docs ctx0 atMost st) as (Hrows & Hrem).
    set (js := omap joinMatch (matchesAhead st)) in *.
    assert (Hjs : joinedAhead st = js.*1) by done.
    destruct (next Scored ctx0 atMost st) as [[more ctx'] st1].
    cbn [fst snd] in He, Hv, Hn, Hmore, Hrows, Hrem.
    pose proof Hrows as (Hpos & _). cbn [rc_pos ctx0] in Hpos, Hmore.
    rewrite length_take in Hpos.
    set (st2 := with_vb (set_hasMore more (vb st1)) st1).
    assert (He2 : eb st2 = eb st) by done.
    assert (Hr2 : joinedAhead st2 = joinedAhead st1) by (by apply joinedAhead_ext).
    assert (Hf2 : futureDocs st2 up = futureDocs st up).
    { apply futureDocs_ext; simpl; by rewrite ?He, ?Hv. }
    assert (Hh2 : _hasMore (vb st2) = more) by done.
    clearbody st2.
    destruct (rc_pos ctx' =? 0) eqn:Hz.
    + apply Nat.eqb_eq in Hz. intros Ho.
      assert (more = false) as Hmf.
      { destruct more; [|done]. destruct Hmore as [Hmore _]. specialize (Hmore eq_refl).
        lia. }
      assert (js = []) as Hnil.
      { apply length_zero_iff_nil. lia. }
      apply (getReturnsDocs_later atMost st st2 up up); [|done|].
      * rewrite Hu. unfold unreturnedDocs.
        rewrite He2, Hd, Hh2, Hmf, Hf2. rewrite bool_decide_eq_false_2 by done.
        by rewrite Hjs, Hnil.
      * apply Hagain; try done.
        -- by rewrite He2.
        -- by rewrite He2.
        -- by rewrite He2.
    + apply Nat.eqb_neq in Hz.
      destruct (getSome_finish_docs (vb st) atMost ctx0 ctx' st2 up (take atMost js))
        as (b' & st' & -> & Hnb & Hdocs & He' & Hv' & Hc'); try done.
      { by rewrite He2. }
      { by rewrite He2. }
      { rewrite Hn. unfold ctx0, inheritRegisters. simpl. by rewrite copyRegs_nrItems. }
      { lia. }
      intros [= <-]. exists HASMORE, (Some b'). cbn [fst snd batchRows].
      split; [done|]. split.
      { rewrite He'. simpl. by rewrite He2. }
      split; [rewrite He'; simpl; by rewrite He2|]. split; [done|]. split; [done|].
      split; [done|]. split.
      { intros _. rewrite He'. simpl. rewrite He2. split; [done|lia]. }
      rewrite Hu, Hdocs.
      assert (Hr' : joinedAhead st' = joinedAhead st2)
        by (apply joinedAhead_ext; by rewrite ?Hv', ?Hc').
      assert (Hf' : futureDocs st' up = futureDocs st2 up).
      { apply futureDocs_ext; by rewrite ?He', ?Hv'. }
      unfold unreturnedDocs. rewrite Hr', Hf', Hv', Hh2, He'. simpl.
      rewrite He2, Hd, Hf2, Hr2, Hrem, Hjs. rewrite bool_decide_eq_false_2 by done.
      rewrite <- fmap_app, fmap_take.
      destruct more.
      * by rewrite app_assoc, take_drop.
      * assert (rc_pos ctx' <> atMost).
        { intros Heq. destruct Hmore as [_ Hmore]. by specialize (Hmore Heq). }
        rewrite take_ge by (rewrite length_fmap; lia). done.
  - assert (Hu : unreturnedDocs st up = futureDocs st up).
    { unfold unreturnedDocs. rewrite Hd, Hm.
      by rewrite bool_decide_eq_false_2. }
    destruct (advanceRow_docs b (with_vb (set_hasMore true (vb st)) st) up Hcomp)
      as (st2 & -> & Hinv2 & Hah & Hh & Hi & Hd2); [done|].
    simpl in Hh, Hd2. intros Ho.
    apply (getReturnsDocs_later atMost st st2 up up); [|done|].
    + rewrite Hu. unfold unreturnedDocs. rewrite Hd2, Hd, Hh.
      rewrite (futureDocs_ext st (with_vb (set_hasMore true (vb st)) st) up) in Hah by done.
      rewrite <- Hah. by destruct (bool_decide _).
    + apply Hagain; try done. congruence.
Qed.

Lemma getSome_loop_docs (f : nat) (atMost : nat) (st : Block)
    (up : Upstream) (o : GetSomeOutcome) :
  alwaysCompiles -> 0 < atMost -> nrInputRegisters node ∉ regsToClear node ->
  length (_buffer (eb st)) <= 1 -> _done (eb st) = false ->
  (_buffer (eb st) = [] -> _hasMore (vb st) = true) ->
  getSome_loop f Scored atMost st up = Some o -> getReturnsDocs atMost st up o.
Proof.
  intros Hcomp Ha Hreg. revert st up o.
  induction f as [|f IH]; intros st up o Hinv Hd Hhm; [done|].
  cbn [getSome_loop].
  assert (Hwait : forall x up1, _buffer (eb st) = [] -> up = (WAITING, x) :: up1 ->
            getReturnsDocs atMost st up (Ok (WAITING, None), st, up1)).
  { intros x up1 Hb ->. exists WAITING, None. cbn [fst snd batchRows batchDocs].
    split; [done|]. split; [done|]. split; [done|]. split; [simpl; lia|].
    split; [simpl; by auto with lia|]. split; [done|]. split; [done|].
    unfold unreturnedDocs, futureDocs, pendingRows. rewrite Hd, Hb. done. }
  assert (Hexh : forall s up1, _buffer (eb st) = [] -> upstreamRows up = [] ->
            length up1 <= length up ->
            getReturnsDocs atMost st up (Ok (DONE, None), exhaustedState s st, up1)).
  { intros s up1 Hb Hup Hl. exists DONE, None. cbn [fst snd batchRows batchDocs].
    split; [done|]. split; [done|]. split; [by intros _; apply Hhm|]. split; [done|].
    split; [done|]. split; [done|]. split; [done|].
    unfold unreturnedDocs, futureDocs, pendingRows. rewrite Hd, Hb, Hup. done. }
  assert (Hrow : forall st1 up1, length (_buffer (eb st1)) <= 1 -> _done (eb st1) = false ->
            _buffer (eb st1) <> [] ->
            unreturnedDocs st1 up1 = unreturnedDocs st up -> length up1 <= length up ->
            getSome_row (getSome_loop f Scored atMost) Scored atMost st1 up1 = Some o ->
            getReturnsDocs atMost st up o).
  { intros st1 up1 Hinv1 Hd1 Hne1 Hu Hl Ho.
    apply (getReturnsDocs_later atMost st st1 up up1 o Hu Hl).
    apply (getSome_row_docs (getSome_loop f Scored atMost)); try done.
    intros st2 o2 ? ? ? ?. by apply IH. }
  assert (Hblock : forall s b up1, s <> WAITING -> _buffer (eb st) = [] ->
            up = (s, Some b) :: up1 ->
            match reset (fetchedState s b st) with
            | (Throw e, st1) => Some (Throw e, st1, up1)
            | (Ok _, st1) => getSome_row (getSome_loop f Scored atMost) Scored atMost st1 up1
            end = Some o -> getReturnsDocs atMost st up o).
  { intros s b up1 Hs Hb ->.
    destruct (fetched_docs s b st up1 Hcomp Hs Hb)
      as (st1 & -> & Hb1 & Hah & Hh & Hi & Hd1).
    apply Hrow; try done.
    - rewrite Hb1. simpl. lia.
    - congruence.
    - by rewrite Hb1.
    - unfold unreturnedDocs. rewrite Hd1, Hd, Hb1, Hb, Hh, (Hhm Hb).
      rewrite bool_decide_eq_false_2 by done. rewrite bool_decide_eq_true_2 by done.
      done.
    - simpl. lia. }
  fetch_cases st up Hbuf.
  - intros [= <-]. by apply (Hexh DONE []).
  - match goal with |- context [fetchedState ?s ?b st] =>
      specialize (Hblock s b up); by destruct (reset (fetchedState s b st)) as [[[]|?] ?];
        apply Hblock end.
  - intros [= <-]. apply (Hexh DONE up); [done|done|simpl; lia].
  - match goal with |- context [fetchedState ?s ?b st] =>
      specialize (Hblock s b up); by destruct (reset (fetchedState s b st)) as [[[]|?] ?];
        apply Hblock end.
  - intros [= <-]. apply (Hexh HASMORE up); [done|done|simpl; lia].
  - intros [= <-]. by eapply Hwait.
  - intros [= <-]. by eapply Hwait.
  - apply Hrow; try done; by rewrite Hbuf.
Qed.

Lemma getSome_docs (atMost : nat) (st : Block) (up : Upstream) :
  alwaysCompiles -> 0 < atMost -> nrInputRegisters node ∉ regsToClear node ->
  length (_buffer (eb st)) <= 1 -> (_buffer (eb st) = [] -> _hasMore (vb st) = true) ->
  exists o, getSome Scored atMost st up = Some o /\ getReturnsDocs atMost st up o.
Proof.
  intros Hcomp Ha Hreg Hinv Hhm. unfold getSome. destruct (_done (eb st)) eqn:Hd.
  - eexists. split; [done|]. exists DONE, None. cbn [fst snd batchRows batchDocs].
    unfold unreturnedDocs. rewrite Hd. by repeat split.
  - destruct (getSome_loop_returns (2 * inputWeight st up + 2) Scored atMost st up Ha)
      as [o Ho].
    { unfold getSomeMeasure. destruct (_hasMore (vb st)); lia. }
    exists o. split; [done|].
    exact (getSome_loop_docs _ atMost st up o Hcomp Ha Hreg Hinv Hd Hhm Ho).
Qed.

Lemma getSome_collect_docs (atMost : nat) (m : nat) (st : Block) (up : Upstream) :
  alwaysCompiles -> 0 < atMost -> nrInputRegisters node ∉ regsToClear node ->
  length (unreturnedDocs st up) + length up < m ->
  length (_buffer (eb st)) <= 1 -> (_buffer (eb st) = [] -> _hasMore (vb st) = true) ->
  getSome_collect m Scored atMost st up = Some (Ok (AqlValue_slice <$> unreturnedDocs st up)).
Proof.
  intros Hcomp Ha Hreg. revert st up. induction m as [|m IH]; intros st up Hm Hinv Hhm; [lia|].
  destruct (getSome_docs atMost st up Hcomp Ha Hreg Hinv Hhm)
    as ([[out st'] up'] & Hg & (s & batch & H1 & H2 & H3 & H4 & H5 & H6 & H7 & H8)).
  cbn [fst snd] in *. subst out. cbn [getSome_collect]. rewrite Hg.
  pose proof (f_equal length H8) as Hl.
  rewrite length_app, !length_fmap, batchDocs_length in Hl.
  destruct s.
  - specialize (H6 eq_refl). rewrite <- H8. unfold unreturnedDocs at 1. rewrite H6.
    by rewrite app_nil_r.
  - destruct (H7 eq_refl) as [_ Hrows].
    rewrite IH; [by rewrite H8|lia|done|done].
  - destruct (H5 eq_refl) as [Hlen _].
    rewrite IH; [by rewrite H8|lia|done|done].
Qed.

(** Calling [getSome(atMost)] on a fresh scored operator until DONE returns
    one row for every index match that can be joined with storage, over the
    scans of all input rows, whatever [atMost] > 0 and whichever documents are
    missing from storage, provided the predicate compiles for every row: the
    number of rows returned is the number of joinable matches, and, the
    register of the output variable not being among the registers cleared for
    downstream, the rows returned hold in this register exactly the documents
    of the joinable matches, each once, in the order of the scans. *)
Theorem scored_getSome_returns_every_joined_match (atMost m : nat) (up : Upstream) :
  alwaysCompiles -> 0 < atMost ->
  scanTotalJoined (compiledOf (vb (construct Scored))) (upstreamRows up) + length up < m ->
  getSome_run m Scored atMost (construct Scored) up
  = Some (Ok (scanTotalJoined (compiledOf (vb (construct Scored))) (upstreamRows up)))
  /\ (nrInputRegisters node ∉ regsToClear node ->
      getSome_collect m Scored atMost (construct Scored) up
      = Some (Ok (AqlValue_slice
                    <$> scanDocs (compiledOf (vb (construct Scored))) (upstreamRows up)))).
Proof.
  intros Hcomp Ha Hm. split.
  - assert (Hs : unreturnedJoined (construct Scored) up
                 = scanTotalJoined (compiledOf (vb (construct Scored))) (upstreamRows up))
      by done.
    rewrite <- Hs. apply getSome_run_joined; try done; try (rewrite Hs; lia).
    simpl. lia.
  - intros Hreg.
    assert (Hs : unreturnedDocs (construct Scored) up
                 = scanDocs (compiledOf (vb (construct Scored))) (upstreamRows up))
      by done.
    rewrite <- Hs. apply getSome_collect_docs; try done.
    + rewrite Hs, scanDocs_length. lia.
    + simpl. lia.
Qed.

(* ------------------------------------------------------------------------- *)
(** ** Re-initialising the cursor *)
(* ------------------------------------------------------------------------- *)

(** [initializeCursor] hands on the answer of the base class. When that
    answer is WAITING or an error, the members of the view block are left as
    they were. Otherwise the in-flight skip counter is dropped and the
    row-exhausted flag is cleared, while the compiled predicate and the read
    cursor stay; if the base class left the input buffer empty and the
    operator not done, the operator then works through the new input from its
    first row on, whatever state the previous scan had left: [skipSome] until
    DONE counts every match, and [getSome] of the scored class until DONE
    returns every joinable match. *)
Theorem initializeCursor_restarts_scan (res : ExecutionState * Result unit)
    (e : ExecutionBlock) (st : Block) (atMost m : nat) (up : Upstream) :
  alwaysCompiles -> 0 < atMost ->
  (initializeCursor res e st).1 = res
  /\ eb (initializeCursor res e st).2 = e
  /\ cur (initializeCursor res e st).2 = cur st
  /\ compiledOf (vb (initializeCursor res e st).2) = compiledOf (vb st)
  /\ (res.1 = WAITING \/ (exists err, res.2 = Throw err) ->
      vb (initializeCursor res e st).2 = vb st)
  /\ (res.1 <> WAITING -> res.2 = Ok tt ->
      _inflight (vb (initializeCursor res e st).2) = 0
      /\ _hasMore (vb (initializeCursor res e st).2) = true
      /\ (_buffer e = [] -> _done e = false ->
          (scanTotal (compiledOf (vb st)) (upstreamRows up) + length up < m ->
           skipSome_run m atMost (initializeCursor res e st).2 up
           = Some (Ok (scanTotal (compiledOf (vb st)) (upstreamRows up))))
          /\ (scanTotalJoined (compiledOf (vb st)) (upstreamRows up) + length up < m ->
              getSome_run m Scored atMost (initializeCursor res e st).2 up
              = Some (Ok (scanTotalJoined (compiledOf (vb st)) (upstreamRows up)))))).
Proof.
  intros Hcomp Ha. unfold initializeCursor. cbv zeta.
  destruct (bool_decide (res.1 = WAITING)) eqn:Hw; cbn [orb].
  { apply bool_decide_eq_true in Hw. repeat split; try done. }
  apply bool_decide_eq_false in Hw.
  destruct res as [s [[]|err]]; cbn [fst snd negb] in *.
  2:{ repeat split; try done. }
  split; [done|]. split; [done|]. split; [done|]. split; [done|]. split.
  { intros [?|[err ?]]; done. }
  intros _ _. split; [done|]. split; [done|]. intros Hb Hd.
  set (st' := with_vb (set_inflight 0 (set_hasMore true (vb (with_eb e st)))) (with_eb e st)).
  assert (Hc : compiledOf (vb st') = compiledOf (vb st)) by done.
  assert (He : eb st' = e) by done.
  assert (Hi : _inflight (vb st') = 0) by done.
  assert (Hh : _hasMore (vb st') = true) by done.
  clearbody st'.
  split; intros Hm.
  - assert (Hs : unreportedSkip st' up = scanTotal (compiledOf (vb st)) (upstreamRows up)).
    { unfold unreportedSkip, aheadOfSkip, futureOf, pendingRows.
      rewrite Hc, He, Hd, Hb, Hi. rewrite bool_decide_eq_true_2 by done. lia. }
    rewrite <- Hs. apply skipSome_run_counts; try done; try (rewrite Hs; lia).
    + rewrite He, Hb. simpl. lia.
    + lia.
  - assert (Hs : unreturnedJoined st' up
                 = scanTotalJoined (compiledOf (vb st)) (upstreamRows up)).
    { unfold unreturnedJoined, futureJoined, pendingRows.
      rewrite Hc, He, Hd, Hb. rewrite bool_decide_eq_true_2 by done. lia. }
    rewrite <- Hs. apply getSome_run_joined; try done; try (rewrite Hs; lia).
    rewrite He, Hb. simpl. lia.
Qed.

End ViewBlock.

Arguments eb {E} _.
Arguments vb {E} _.
Arguments cur {E} _.
Arguments mkBlock {E} _ _ _.
Arguments mkVB {E} _ _ _ _ _ _ _.
Arguments _ctx {E} _.
Arguments _filter {E} _.
Arguments _order {E} _.
Arguments _inflight {E} _.
Arguments _hasMore {E} _.
Arguments _volatileSort {E} _.
Arguments _volatileFilter {E} _.
Arguments prepared_empty {E}.
Arguments prepared_filter {E} _ _.
Arguments with_eb {E} _ _.
Arguments with_vb {E} _ _.
Arguments with_cur {E} _ _.
Arguments outcomeState {E A} _ _.
Arguments outcomeBatch {E} _.

(* ------------------------------------------------------------------------- *)
(** ** A concrete snapshot *)
(* ------------------------------------------------------------------------- *)

(** Two segments; segment 0 matches documents 2, 1, 3 and segment 1 matches
    document 4. The primary key of document [d] is (collection 1, revision
    [d]). Document 2 is in the index but no longer in storage. The input
    variables 1 and 2 live in registers 0 and 1, the output variable is 7. *)
Definition exampleNode : IResearchViewNode :=
  mkNode 7 {[1 := 0; 2 := 1]} 100 [mkSort true 200] (true, true) 2 4 [].

Definition exampleExecute (root : nat) (po ord : list (bool * nat))
    (c : ViewExpressionContext) (seg : nat) : list (doc_id_t * bytes_ref) :=
  match seg with
  | 0 => [(2, [x02]); (1, [x01]); (3, [x03])]
  | 1 => [(4, [x04])]
  | _ => []
  end.

Definition exampleTrx : TransactionState :=
  {[1 := {[1 := [x0a]; 3 := [x0c]; 4 := [x0d]]}]}.

Definition exampleEnv : Env :=
  mkEnv 1000 1000 nat nat
    (fun c _ => Some (ctx_pos c))
    (fun n _ => Some n)
    exampleExecute
    (fun _ scr _ => AqlValue_slice scr)
    (fun key => Some (mkPK 1 (length key)))
    exampleNode
    2
    (fun _ d => Some (replicate d x00))
    exampleTrx.

(** An input block of one row and one of two rows. *)
Definition exampleInput : AqlItemBlock :=
  mkAqlItemBlock 1 2 {[(0, 0) := AqlValue_slice [x41]]}.

Definition exampleInput2 : AqlItemBlock :=
  mkAqlItemBlock 2 2 {[(0, 0) := AqlValue_slice [x41]; (1, 0) := AqlValue_slice [x42]]}.

(** The operator bound to [exampleInput], its cursor on segment 0. *)
Definition exampleBound : Block exampleEnv :=
  mkBlock (mkEB [exampleInput] 0 false HASMORE 0%Z)
          (mkVB (mkCtx (Some exampleInput) 0) (prepared_filter (0 : env_irs_Or exampleEnv) [])
                [] 0 true false false)
          (mkCursor None 0 []).

Definition exampleCtx : ReadContext := mkReadContext 2 0 (requestBlock 2 4).

(** The same snapshot with a filter condition that refers to the input row
    and translates for every row but the first of a block. *)
Definition exampleEnvRow : Env :=
  mkEnv 1000 1000 nat nat
    (fun c _ => if ctx_pos c =? 0 then None else Some (ctx_pos c))
    (fun n _ => Some n)
    exampleExecute
    (fun _ scr _ => AqlValue_slice scr)
    (fun key => Some (mkPK 1 (length key)))
    exampleNode
    2
    (fun _ d => Some (replicate d x00))
    exampleTrx.

(** The same snapshot with a filter condition that never translates. *)
Definition exampleEnvUntranslatable : Env :=
  mkEnv 1000 1000 nat nat
    (fun _ _ => None)
    (fun n _ => Some n)
    exampleExecute
    (fun _ scr _ => AqlValue_slice scr)
    (fun key => Some (mkPK 1 (length key)))
    exampleNode
    2
    (fun _ d => Some (replicate d x00))
    exampleTrx.

(** The operator of [exampleBound] with the scan of its row used up. *)
Definition exampleDrained : Block exampleEnv :=
  with_cur (mkCursor None 2 []) exampleBound.

(** The same snapshot before document 2 was removed from storage. *)
Definition exampleEnvJoined : Env :=
  mkEnv 1000 1000 nat nat
    (fun c _ => Some (ctx_pos c))
    (fun n _ => Some n)
    exampleExecute
    (fun _ scr _ => AqlValue_slice scr)
    (fun key => Some (mkPK 1 (length key)))
    exampleNode
    2
    (fun _ d => Some (replicate d x00))
    {[1 := {[1 := [x0a]; 2 := [x0b]; 3 := [x0c]; 4 := [x0d]]}]}.

(** The operator of [exampleBound] over the snapshot in which every document
    is still in storage. *)
Definition exampleBoundJoined : Block exampleEnvJoined :=
  mkBlock (mkEB [exampleInput] 0 false HASMORE 0%Z)
          (mkVB (mkCtx (Some exampleInput) 0)
                (prepared_filter (0 : env_irs_Or exampleEnvJoined) [])
                [] 0 true false false)
          (mkCursor None 0 []).

(** A scored operator that has just fetched [exampleInput]. *)
Definition exampleFetched : Block exampleEnv :=
  fetchedState exampleEnv HASMORE exampleInput (construct exampleEnv Scored).

(** The same snapshot with a filter condition that refers to the input row
    and translates for every row of a block but row [p]. *)
Definition exampleEnvRowFails (p : nat) : Env :=
  mkEnv 1000 1000 nat nat
    (fun c _ => if ctx_pos c =? p then None else Some (ctx_pos c))
    (fun n _ => Some n)
    exampleExecute
    (fun _ scr _ => AqlValue_slice scr)
    (fun key => Some (mkPK 1 (length key)))
    exampleNode
    2
    (fun _ d => Some (replicate d x00))
    exampleTrx.

(** An input block of three rows. *)
Definition exampleInput3 : AqlItemBlock :=
  mkAqlItemBlock 3 2
    {[(0, 0) := AqlValue_slice [x41]; (1, 0) := AqlValue_slice [x42];
      (2, 0) := AqlValue_slice [x43]]}.

(** A scored operator whose filter does not translate for row 1, after the
    [getSome(4)] call that returned the three documents of input row 0. *)
Definition exampleRowReturned : Block (exampleEnvRowFails 1) :=
  outcomeState
    (getSome (exampleEnvRowFails 1) Scored 4 (construct (exampleEnvRowFails 1) Scored)
       [(HASMORE, Some exampleInput2)])
    (construct (exampleEnvRowFails 1) Scored).

(** An operator over the snapshot whose filter does not translate for row 1,
    bound to row 0 of a two-row block with a compiled filter that is not
    volatile. *)
Definition exampleBoundKept : Block (exampleEnvRowFails 1) :=
  mkBlock (mkEB [exampleInput2] 0 false HASMORE 0%Z)
          (mkVB (mkCtx (Some exampleInput2) 0)
                (prepared_filter (0 : env_irs_Or (exampleEnvRowFails 1)) [])
                [] 0 true false false)
          (mkCursor None 0 []).

(** The snapshot of [exampleEnv] under a plan that has input register 0 and
    the score register cleared for downstream. *)
Definition exampleEnvClears : Env :=
  mkEnv 1000 1000 nat nat
    (fun c _ => Some (ctx_pos c))
    (fun n _ => Some n)
    exampleExecute
    (fun _ scr _ => AqlValue_slice scr)
    (fun key => Some (mkPK 1 (length key)))
    (mkNode 7 {[1 := 0; 2 := 1]} 100 [mkSort true 200] (true, true) 2 4 [0; 3])
    2
    (fun _ d => Some (replicate d x00))
    exampleTrx.

(** Evaluate the left-hand side of an equation and read the right-hand side
    off the value. *)
Ltac by_evaluation :=
  match goal with
  | |- ?l = _ =>
      let v := eval vm_compute in l in
      transitivity v; [vm_compute; reflexivity | reflexivity]
  end.

(* ------------------------------------------------------------------------- *)
(** ** The claims on the concrete snapshot *)
(* ------------------------------------------------------------------------- *)

Lemma getVariableValue_contract_witness :
  getVariableValue exampleEnv (mkCtx (Some exampleInput) 0) 1 true
  = Ok (AqlValue_slice [x41], true)
  /\ getVariableValue exampleEnv (mkCtx (Some exampleInput) 0) 7 true
     = Throw TRI_ERROR_INTERNAL.
Proof.
  assert (Hwf : planWellFormed exampleEnv).
  { unfold planWellFormed. apply map_Forall_to_list. vm_compute.
    repeat constructor; discriminate. }
  split.
  - destruct (getVariableValue_contract exampleEnv (mkCtx (Some exampleInput) 0) exampleInput
                1 true Hwf eq_refl) as [_ H].
    destruct (H 0) as [Hv _]; [discriminate | reflexivity | exact Hv].
  - apply (getVariableValue_contract exampleEnv (mkCtx (Some exampleInput) 0) exampleInput
             7 true Hwf eq_refl).
    left. reflexivity.
Defined.

(** C6, as stated, fails: entered with volatile-sort set and volatile-filter
    clear, [reset] completes and leaves both flags as they were. *)
Lemma reset_leaves_unguarded_flags :
  let st : Block exampleEnv :=
    mkBlock (mkEB [exampleInput] 0 false HASMORE 0%Z)
            (mkVB (mkCtx None 0) prepared_empty [] 0 true true false)
            (mkCursor None 0 []) in
  (IResearchViewBlockBase_reset exampleEnv st).1 = Ok tt
  /\ (reset exampleEnv st).1 = Ok tt
  /\ _volatileSort (vb (reset exampleEnv st).2) = true
  /\ _volatileFilter (vb (reset exampleEnv st).2) = false
  /\ _volatileSort (vb (IResearchViewBlockBase_reset exampleEnv st).2) = true
  /\ _volatileFilter (vb (IResearchViewBlockBase_reset exampleEnv st).2) = false.
Proof. vm_compute. repeat split. Qed.

Lemma reset_keeps_sort_implies_filter_witness :
  sortImpliesFilter exampleEnv
    (vb (IResearchViewBlockBase_reset exampleEnv
           (with_eb (mkEB [exampleInput] 0 false HASMORE 0%Z) (construct exampleEnv Scored))).2)
  = true
  /\ sortImpliesFilter exampleEnv
       (vb (reset exampleEnv
              (with_eb (mkEB [exampleInput] 0 false HASMORE 0%Z)
                       (construct exampleEnv Scored))).2)
     = true.
Proof.
  apply (reset_keeps_sort_implies_filter exampleEnv); reflexivity.
Defined.

Lemma scored_next_skips_failed_join_witness :
  IResearchViewBlock_next exampleEnv exampleCtx 2 exampleBound
  = IResearchViewBlock_next exampleEnv exampleCtx 2
      (with_cur (mkCursor (Some [(1, [x01]); (3, [x03])]) 0 []) exampleBound)
  /\ scoredScan exampleEnv (vb exampleBound) 0 2 [(2, [x02]); (1, [x01]); (3, [x03])] exampleCtx
     = scoredScan exampleEnv (vb exampleBound) 0 2 [(1, [x01]); (3, [x03])] exampleCtx.
Proof.
  apply (scored_next_skips_failed_join exampleEnv exampleBound exampleCtx 2 2 [x02]
           [(1, [x01]); (3, [x03])]).
  - simpl. lia.
  - reflexivity.
  - lia.
  - reflexivity.
Defined.

Lemma skipSome_when_done_witness :
  exists st',
    skipSome exampleEnv 5
      (mkBlock (mkEB [] 0 true DONE 0%Z)
               (mkVB (mkCtx None 0) prepared_empty [] 3 true false true)
               (mkCursor None 0 [])) []
    = Some (Ok (DONE, 3), st', [])
    /\ scannedIndex (eb st') = 3%Z
    /\ _inflight (vb st') = 0
    /\ _done (eb st') = true
    /\ exists st'',
         skipSome exampleEnv 5 st' [] = Some (Ok (DONE, 0), st'', [])
         /\ scannedIndex (eb st'') = scannedIndex (eb st')
         /\ _inflight (vb st'') = 0.
Proof.
  apply (skipSome_when_done exampleEnv 5 5
           (mkBlock (mkEB [] 0 true DONE 0%Z)
                    (mkVB (mkCtx None 0) prepared_empty [] 3 true false true)
                    (mkCursor None 0 [])) []).
  reflexivity.
Defined.

Lemma getSome_never_empty_hasmore_witness :
  exists r st' up',
    getSome exampleEnv Scored 2 (construct exampleEnv Scored) [(HASMORE, Some exampleInput)]
    = Some (r, st', up')
    /\ replyWellFormed 2 r
    /\ forall s batch, r = Ok (s, batch) ->
         (s = HASMORE -> 1 <= batchRows batch)
         /\ (batchRows batch = 0 -> s = WAITING \/ s = DONE).
Proof.
  apply (getSome_never_empty_hasmore exampleEnv Scored 2). lia.
Defined.


(** C4 on the concrete snapshot (limit 2, cursor on segment 0 whose matches are
    2, 1, 3): the unordered strategy collects keys 2 and 1, the join of 2
    fails, and with one unit of limit left it leaves segment 0 although match
    3 was not visited; the unit is then spent on document 4 of segment 1. The
    scored strategy stays on segment 0 and returns documents 1 and 3. Pulled
    until DONE, the unordered operator so returns two of the three documents
    that can be joined with batches of 2 and one of them with batches of 1,
    where the scored operator returns all three. *)
Theorem unordered_next_abandons_segment :
  let '(more, ctx, st) :=
    IResearchViewUnorderedBlock_next exampleEnv exampleCtx 2 exampleBound in
  let '(more', ctx', st') := IResearchViewBlock_next exampleEnv exampleCtx 2 exampleBound in
  (more, rc_pos ctx, _readerOffset (cur st), _itr (cur st),
   getValueReference (rc_res ctx) 0 2, getValueReference (rc_res ctx) 1 2)
  = (true, 2, 1, Some [], AqlValue_slice [x0a], AqlValue_slice [x0d])
  /\ (more', rc_pos ctx', _readerOffset (cur st'), _itr (cur st'),
      getValueReference (rc_res ctx') 0 2, getValueReference (rc_res ctx') 1 2)
     = (true, 2, 0, Some [], AqlValue_slice [x0a], AqlValue_slice [x0c])
  /\ getSome_run exampleEnv 6 Unordered 2 (construct exampleEnv Unordered)
       [(HASMORE, Some exampleInput)] = Some (Ok 2)
  /\ getSome_run exampleEnv 6 Unordered 1 (construct exampleEnv Unordered)
       [(HASMORE, Some exampleInput)] = Some (Ok 1)
  /\ getSome_run exampleEnv 6 Scored 2 (construct exampleEnv Scored)
       [(HASMORE, Some exampleInput)] = Some (Ok 3).
Proof. vm_compute. repeat split. Qed.

(** C7, as stated, fails: the first call raises bad-parameter because the
    filter does not translate for row 0; the operator keeps no record of it,
    and the next call moves on to row 1, whose filter translates, and returns
    a batch of two rows. *)
Lemma later_call_returns_rows_after_failed_reset :
  exists st1 b st2,
    getSome exampleEnvRow Scored 2 (construct exampleEnvRow Scored)
      [(HASMORE, Some exampleInput2)]
    = Some (Throw TRI_ERROR_BAD_PARAMETER, st1, [])
    /\ getSome exampleEnvRow Scored 2 st1 [] = Some (Ok (HASMORE, Some b), st2, [])
    /\ nrItems b = 2.
Proof.
  pose (o1 := getSome exampleEnvRow Scored 2 (construct exampleEnvRow Scored)
                [(HASMORE, Some exampleInput2)]).
  pose (st1 := outcomeState o1 (construct exampleEnvRow Scored)).
  pose (o2 := getSome exampleEnvRow Scored 2 st1 []).
  exists st1, (outcomeBatch o2), (outcomeState o2 st1).
  vm_compute. repeat split.
Qed.

Lemma reset_failure_propagates_witness :
  getSome exampleEnvUntranslatable Scored 2 (construct exampleEnvUntranslatable Scored)
    [(HASMORE, Some exampleInput2)]
  = Some (Throw TRI_ERROR_BAD_PARAMETER,
          (reset exampleEnvUntranslatable
             (fetchedState exampleEnvUntranslatable HASMORE exampleInput2
                (construct exampleEnvUntranslatable Scored))).2,
          [])
  /\ (_buffer (eb exampleRowReturned), _pos (eb exampleRowReturned),
      _hasMore (vb exampleRowReturned)) = ([exampleInput2], 0, false)
  /\ (exists st1,
        getSome (exampleEnvRowFails 1) Scored 4 exampleRowReturned []
        = Some (Throw TRI_ERROR_BAD_PARAMETER, st1, [])
        /\ (_pos (eb st1), ctx_pos (_ctx (vb st1))) = (1, 1))
  /\ (exists st1,
        skipSome (exampleEnvRowFails 2) 10 (construct (exampleEnvRowFails 2) Scored)
          [(HASMORE, Some exampleInput3)]
        = Some (Throw TRI_ERROR_BAD_PARAMETER, st1, [])
        /\ (_pos (eb st1), _inflight (vb st1)) = (2, 8))
  /\ batchesOf exampleEnvUntranslatable Scored
       [CallGetSome 2; CallSkipSome 3; CallGetSome 2; CallGetSome 1]
       (construct exampleEnvUntranslatable Scored) [(HASMORE, Some exampleInput2)]
     = [].
Proof.
  split; [|split; [|split; [|split]]].
  - destruct (reset_failure_propagates exampleEnvUntranslatable Scored 2
                (construct exampleEnvUntranslatable Scored) [(HASMORE, Some exampleInput2)])
      as (_ & Hget & _).
    destruct (Hget ltac:(lia) eq_refl _ _ (getSomeAt_entry _ _ _ _ _)) as [Hfetch _].
    apply (Hfetch HASMORE exampleInput2 []);
      [reflexivity|reflexivity|discriminate|reflexivity].
  - vm_compute. reflexivity.
  - destruct (reset_failure_propagates (exampleEnvRowFails 1) Scored 4 exampleRowReturned [])
      as (_ & Hget & _).
    destruct (Hget ltac:(lia) ltac:(vm_compute; reflexivity) _ _ (getSomeAt_entry _ _ _ _ _))
      as [_ Hrow].
    eexists. split.
    + eapply Hrow.
      * by_evaluation.
      * by_evaluation.
      * vm_compute. reflexivity.
      * vm_compute. lia.
      * by_evaluation.
    + vm_compute. reflexivity.
  - set (E2 := exampleEnvRowFails 2).
    destruct (reset_failure_propagates E2 Scored 10 (construct E2 Scored)
                [(HASMORE, Some exampleInput3)])
      as (_ & _ & Hskip & _).
    pose (st0 :=
            (reset E2
               (nextRowState E2
                  (with_vb (set_inflight E2 4
                              (vb (skip E2 10
                                     (reset E2 (fetchedState E2 HASMORE exampleInput3
                                                  (construct E2 Scored))).2).2))
                     (skip E2 10
                        (reset E2 (fetchedState E2 HASMORE exampleInput3
                                     (construct E2 Scored))).2).2))).2).
    assert (Hat : skipSomeAt E2 10 (construct E2 Scored) [(HASMORE, Some exampleInput3)]
                    st0 []).
    { eapply skipSomeAt_pass; [apply skipSomeAt_entry|].
      split; [vm_compute; lia|]. eexists. split; [by_evaluation|].
      intros again. vm_compute. reflexivity. }
    destruct (Hskip eq_refl st0 [] Hat) as [_ Hrow].
    { vm_compute. lia. }
    eexists. split.
    + eapply Hrow.
      * by_evaluation.
      * by_evaluation.
      * by_evaluation.
      * vm_compute. lia.
      * vm_compute. lia.
      * by_evaluation.
    + vm_compute. reflexivity.
  - destruct (reset_failure_propagates exampleEnvUntranslatable Scored 2
                (construct exampleEnvUntranslatable Scored) [(HASMORE, Some exampleInput2)])
      as (_ & _ & _ & _ & Hlater).
    apply Hlater. intros c. left. reflexivity.
Defined.

(** C8, as stated, fails: [skipSome(5)] skips the four matches of the current
    row, uses the row up and then meets WAITING: it answers (WAITING, 0) with
    the in-flight counter at 4, the input buffer emptied and the cursor moved;
    [getSome] on a drained row likewise answers WAITING with the buffer
    emptied. *)
Lemma waiting_after_progress_changes_state :
  exists st1 st2,
    skipSome exampleEnv 5 exampleBound [(WAITING, None)] = Some (Ok (WAITING, 0), st1, [])
    /\ (_inflight (vb exampleBound), _inflight (vb st1)) = (0, 4)
    /\ (_buffer (eb exampleBound), _buffer (eb st1)) = ([exampleInput], [])
    /\ (_readerOffset (cur exampleBound), _readerOffset (cur st1)) = (0, 2)
    /\ getSome exampleEnv Scored 2 exampleDrained [(WAITING, None)]
       = Some (Ok (WAITING, None), st2, [])
    /\ (_buffer (eb exampleDrained), _buffer (eb st2)) = ([exampleInput], []).
Proof.
  exists (outcomeState (skipSome exampleEnv 5 exampleBound [(WAITING, None)]) exampleBound),
         (outcomeState (getSome exampleEnv Scored 2 exampleDrained [(WAITING, None)])
            exampleBound).
  vm_compute. repeat split.
Qed.

Lemma waiting_keeps_progress_witness :
  (exists st1,
     getSome exampleEnv Scored 2 exampleDrained [(WAITING, None); (HASMORE, Some exampleInput)]
     = Some (Ok (WAITING, None), st1, [(HASMORE, Some exampleInput)])
     /\ _buffer (eb st1) = [] /\ _done (eb st1) = false
     /\ scannedIndex (eb st1) = 0%Z /\ _inflight (vb st1) = 0)
  /\ (exists st2,
        skipSome exampleEnv 5 exampleBound [(WAITING, None); (HASMORE, Some exampleInput)]
        = Some (Ok (WAITING, 0), st2, [(HASMORE, Some exampleInput)])
        /\ _buffer (eb st2) = [] /\ _done (eb st2) = false
        /\ scannedIndex (eb st2) = 0%Z /\ 0 <= _inflight (vb st2))
  /\ getResumes exampleEnv Scored 2 exampleDrained
       [(WAITING, None); (HASMORE, Some exampleInput)]
  /\ skipResumes exampleEnv 5 exampleBound [(WAITING, None); (HASMORE, Some exampleInput)].
Proof.
  destruct (waiting_keeps_progress exampleEnv Scored 2 exampleDrained
              [(WAITING, None); (HASMORE, Some exampleInput)]) as (Hgw & _ & _ & Hg & _);
    [lia|].
  destruct (waiting_keeps_progress exampleEnv Scored 5 exampleBound
              [(WAITING, None); (HASMORE, Some exampleInput)]) as (_ & Hsw & _ & _ & Hs);
    [lia|].
  split; [|split; [|exact (conj Hg Hs)]].
  - destruct (getSome exampleEnv Scored 2 exampleDrained
                [(WAITING, None); (HASMORE, Some exampleInput)])
      as [[[r st1] up1]|] eqn:H; [|by vm_compute in H].
    assert (Hr : r = Ok (WAITING, None)) by (vm_compute in H; by injection H as <- _ _).
    assert (Hu : up1 = [(HASMORE, Some exampleInput)])
      by (vm_compute in H; by injection H as _ _ <-).
    subst r up1. exists st1. split; [reflexivity|].
    destruct (Hgw None st1 _ eq_refl) as (_ & Hb & Hd & Hsc & Hi).
    split; [exact Hb|]. split; [exact Hd|]. split; [exact Hsc|exact Hi].
  - destruct (skipSome exampleEnv 5 exampleBound
                [(WAITING, None); (HASMORE, Some exampleInput)])
      as [[[r st2] up2]|] eqn:H; [|by vm_compute in H].
    assert (Hr : r = Ok (WAITING, 0)) by (vm_compute in H; by injection H as <- _ _).
    assert (Hu : up2 = [(HASMORE, Some exampleInput)])
      by (vm_compute in H; by injection H as _ _ <-).
    subst r up2. exists st2. split; [reflexivity|].
    destruct (Hsw 0 st2 _ eq_refl) as (_ & Hb & Hd & Hsc & Hi).
    split; [exact Hb|]. split; [exact Hd|]. split; [exact Hsc|exact Hi].
Defined.

(** C3, as stated, fails: document 2 is matched by the index but gone from
    storage, so [getSome] until DONE returns three rows where [skipSome]
    until DONE counts the four matches. *)
Lemma getSome_rows_differ_from_skipSome_count :
  getSome_run exampleEnv 6 Scored 2 (construct exampleEnv Scored)
    [(HASMORE, Some exampleInput)] = Some (Ok 3)
  /\ skipSome_run exampleEnv 6 2 (construct exampleEnv Scored)
       [(HASMORE, Some exampleInput)] = Some (Ok 4).
Proof. vm_compute. split; reflexivity. Qed.

Lemma exampleEnvJoined_joinable : allJoinable exampleEnvJoined.
Proof.
  intros root po ord c seg docId scrVal Hin. simpl in Hin. unfold exampleExecute in Hin.
  destruct seg as [|[|seg]];
    repeat (apply elem_of_cons in Hin as [Hin|Hin];
            [injection Hin as -> ->; vm_compute; eexists; reflexivity|]);
    by apply elem_of_nil in Hin.
Qed.

Lemma exampleEnvJoined_compiles : alwaysCompiles exampleEnvJoined.
Proof. intros c. split; by eexists. Qed.

Lemma getSome_rows_equal_skipSome_count_witness :
  getSome_run exampleEnvJoined 6 Scored 2 (construct exampleEnvJoined Scored)
    [(HASMORE, Some exampleInput)] = Some (Ok 4)
  /\ skipSome_run exampleEnvJoined 6 3 (construct exampleEnvJoined Scored)
       [(HASMORE, Some exampleInput)] = Some (Ok 4).
Proof.
  destruct (getSome_rows_equal_skipSome_count exampleEnvJoined Scored 2 3
              [(HASMORE, Some exampleInput)]
              exampleEnvJoined_joinable exampleEnvJoined_compiles)
    as (total & Htot & Hruns); [lia|lia|].
  assert (total = 4) as -> by (rewrite Htot; vm_compute; reflexivity).
  apply Hruns. simpl. lia.
Defined.

(* ------------------------------------------------------------------------- *)
(** ** Further properties on the concrete snapshot *)
(* ------------------------------------------------------------------------- *)

Lemma unordered_next_returns_first_joined_witness :
  rowsWritten exampleEnvJoined (vb exampleBoundJoined) false exampleCtx
    (IResearchViewUnorderedBlock_next exampleEnvJoined exampleCtx 2 exampleBoundJoined).1.2
    [([x0b], [x02]); ([x0a], [x01])]
  /\ (IResearchViewUnorderedBlock_next exampleEnvJoined exampleCtx 2 exampleBoundJoined).1.1
     = true.
Proof.
  assert (Hall : Forall (λ m, is_Some (joinMatch exampleEnvJoined m))
                   (matchesAhead exampleEnvJoined exampleBoundJoined)).
  { vm_compute. repeat (constructor; [by eexists|]). constructor. }
  destruct (unordered_next_returns_first_joined exampleEnvJoined exampleCtx 2
              exampleBoundJoined Hall) as (Hrows & _ & _ & Hflag).
  split; [exact Hrows|]. apply Hflag. vm_compute. lia.
Defined.

Lemma reset_compiles_in_declared_order_witness :
  _order (vb (IResearchViewBlockBase_reset exampleEnv exampleFetched).2) = [(true, 200)]
  /\ _volatileSort (vb (IResearchViewBlockBase_reset exampleEnv exampleFetched).2) = true
  /\ _volatileFilter (vb (IResearchViewBlockBase_reset exampleEnv exampleFetched).2) = true.
Proof.
  destruct (reset_compiles_in_declared_order exampleEnv exampleFetched
              (IResearchViewBlockBase_reset exampleEnv exampleFetched).2 eq_refl eq_refl)
    as (_ & _ & Hord & Hvs & Hvf & _).
  split; [|split; [exact Hvs|exact Hvf]].
  cbn [_volatileSort vb exampleFetched fetchedState with_eb construct] in Hord.
  apply Forall2_cons_inv_l in Hord as ([d x] & rest & [Hd Hs] & Hrest & Heq).
  apply Forall2_nil_inv_l in Hrest as ->. rewrite Heq. simpl in Hd, Hs.
  injection Hs as <-. by rewrite Hd.
Defined.

Lemma getSome_counts_returned_rows_witness :
  exists r st' up',
    getSome exampleEnv Scored 2 (construct exampleEnv Scored) [(HASMORE, Some exampleInput)]
    = Some (r, st', up')
    /\ replyRows r = 2
    /\ scannedIndex (eb st') = 2%Z.
Proof.
  destruct (getSome exampleEnv Scored 2 (construct exampleEnv Scored)
              [(HASMORE, Some exampleInput)]) as [[[r st'] up']|] eqn:H;
    [|by vm_compute in H].
  destruct (getSome_counts_returned_rows exampleEnv Scored 2 _ _ _ _ _ H) as (_ & Hs & _).
  assert (Hr : replyRows r = 2) by (vm_compute in H; by injection H as <- _ _).
  exists r, st', up'. split; [done|]. split; [done|]. rewrite Hs, Hr. reflexivity.
Defined.

Lemma skipSome_never_overshoots_witness :
  exists st' up',
    skipSome exampleEnv 3 exampleBound [] = Some (Ok (HASMORE, 3), st', up')
    /\ _inflight (vb st') <= 3.
Proof.
  destruct (skipSome exampleEnv 3 exampleBound []) as [[[r st'] up']|] eqn:H;
    [|by vm_compute in H].
  destruct (skipSome_never_overshoots exampleEnv 3 exampleBound st' [] up' r) as (Hi & _).
  { simpl. lia. }
  { exact H. }
  assert (Hr : r = Ok (HASMORE, 3)) by (vm_compute in H; by injection H as <- _ _).
  subst r. by exists st', up'.
Defined.

Lemma nonvolatile_filter_compiled_once_witness :
  exists st',
    skipSome (exampleEnvRowFails 1) 10 exampleBoundKept [] = Some (Ok (DONE, 8), st', [])
    /\ compiledOf (exampleEnvRowFails 1) (vb st')
       = compiledOf (exampleEnvRowFails 1) (vb exampleBoundKept)
    /\ _pos (eb (IResearchViewBlockBase_reset (exampleEnvRowFails 1)
                   (nextRowState (exampleEnvRowFails 1) exampleBoundKept)).2) = 1.
Proof.
  destruct (nonvolatile_filter_compiled_once (exampleEnvRowFails 1) Scored 10
              exampleBoundKept [] eq_refl ltac:(lia))
    as (_ & _ & ([[r st'] up'] & Hs & Hc)).
  destruct (nonvolatile_filter_compiled_once (exampleEnvRowFails 1) Scored 10
              (nextRowState (exampleEnvRowFails 1) exampleBoundKept) [] eq_refl ltac:(lia))
    as (Hreset & _).
  assert (Hr : r = Ok (DONE, 8)) by (vm_compute in Hs; by injection Hs as <- _ _).
  assert (Hu : up' = []) by (vm_compute in Hs; by injection Hs as _ _ <-).
  subst r up'. exists st'. split; [exact Hs|]. split; [exact Hc|].
  rewrite Hreset. reflexivity.
Defined.

Lemma reply_without_block_ends_scan_witness :
  getSome exampleEnv Scored 2 (construct exampleEnv Scored) [(HASMORE, None)]
  = Some (Ok (DONE, None), exhaustedState exampleEnv HASMORE (construct exampleEnv Scored), [])
  /\ skipSome exampleEnv 2 (construct exampleEnv Scored) [(HASMORE, None)]
     = Some (Ok (DONE, 0),
             (reportInflight exampleEnv
                (exhaustedState exampleEnv HASMORE (construct exampleEnv Scored))).2, []).
Proof.
  destruct (reply_without_block_ends_scan exampleEnv Scored 2 (construct exampleEnv Scored)
              HASMORE []) as (Hg & _ & Hs & _); [done|done|done|].
  split; [exact Hg|]. apply Hs. simpl. lia.
Defined.

Lemma skipSome_then_getSome_returns_the_rest_witness :
  exists st' up',
    skipSome exampleEnvJoined 3 (construct exampleEnvJoined Scored)
      [(HASMORE, Some exampleInput)] = Some (Ok (HASMORE, 3), st', up')
    /\ getSome_run exampleEnvJoined 6 Scored 2 st' up' = Some (Ok 1).
Proof.
  destruct (skipSome exampleEnvJoined 3 (construct exampleEnvJoined Scored)
              [(HASMORE, Some exampleInput)]) as [[[r st'] up']|] eqn:H;
    [|by vm_compute in H].
  assert (Hr : r = Ok (HASMORE, 3)) by (vm_compute in H; by injection H as <- _ _).
  subst r. exists st', up'. split; [done|].
  destruct (skipSome_then_getSome_returns_the_rest exampleEnvJoined Scored 3 2
              [(HASMORE, Some exampleInput)] up' HASMORE 3 st'
              exampleEnvJoined_joinable exampleEnvJoined_compiles) as [_ Hrun];
    [lia|lia|exact H|done|].
  apply (Hrun 6). vm_compute. lia.
Defined.

Lemma exampleEnv_compiles : alwaysCompiles exampleEnv.
Proof. intros c. split; by eexists. Qed.

Lemma skipSome_reports_every_match_witness :
  skipSome_run exampleEnv 6 3 (construct exampleEnv Unordered) [(HASMORE, Some exampleInput)]
  = Some (Ok 4).
Proof.
  apply (skipSome_reports_every_match exampleEnv Unordered 3 6
           [(HASMORE, Some exampleInput)] exampleEnv_compiles).
  - lia.
  - vm_compute. lia.
Defined.

Lemma scored_getSome_returns_every_joined_match_witness :
  getSome_run exampleEnvClears 6 Scored 2 (construct exampleEnvClears Scored)
    [(HASMORE, Some exampleInput)]
  = Some (Ok 3)
  /\ getSome_collect exampleEnvClears 6 Scored 2 (construct exampleEnvClears Scored)
       [(HASMORE, Some exampleInput)]
     = Some (Ok [AqlValue_slice [x0a]; AqlValue_slice [x0c]; AqlValue_slice [x0d]]).
Proof.
  assert (Hcomp : alwaysCompiles exampleEnvClears).
  { intros c. split; by eexists. }
  assert (Hreg : nrInputRegisters (env_node exampleEnvClears)
                 ∉ regsToClear (env_node exampleEnvClears)).
  { intros H. vm_compute in H.
    apply elem_of_cons in H as [H|H]; [discriminate H|].
    apply elem_of_cons in H as [H|H]; [discriminate H|].
    by apply elem_of_nil in H. }
  destruct (scored_getSome_returns_every_joined_match exampleEnvClears 2 6
              [(HASMORE, Some exampleInput)] Hcomp) as [Hrun Hdocs].
  - lia.
  - vm_compute. lia.
  - split; [exact Hrun|].
    etransitivity; [exact (Hdocs Hreg)|].
    vm_compute. reflexivity.
Defined.

Lemma initializeCursor_restarts_scan_witness :
  skipSome_run exampleEnv 6 3
    (initializeCursor exampleEnv (DONE, Ok tt) (mkEB [] 0 false HASMORE 0%Z) exampleDrained).2
    [(HASMORE, Some exampleInput)]
  = Some (Ok 4).
Proof.
  destruct (initializeCursor_restarts_scan exampleEnv (DONE, Ok tt)
              (mkEB [] 0 false HASMORE 0%Z) exampleDrained 3 6
              [(HASMORE, Some exampleInput)] exampleEnv_compiles)
    as (_ & _ & _ & _ & _ & Hok); [lia|].
  destruct (Hok ltac:(done) eq_refl) as (_ & _ & Hrun).
  destruct (Hrun eq_refl eq_refl) as [Hs _].
  apply Hs. vm_compute. lia.
Defined.
